(** * Cairde10 golf scorecards: scoring, ranking and OCR-text interpretation

    A shallow embedding of the TypeScript sources

    - the golf scoring utilities listed in [src/lib/rankingHelper.ts], the
      module the application imports as [./lib/scoring] (team handicap,
      straight and champagne scramble, tie-break, ranking),
    - [src/lib/ocr.ts], the line-based scorecard interpreter,
    - the bounding-box variant of [ocr.ts] (row-based interpreter and its
      text-only fallback),
    - their callers: [applyRankings] of [src/lib/rankingHelper.ts], the
      upload handler from the OCR result on, the ranked teams of the current
      event in [src/App.tsx], and the ordinal helpers,

    together with the properties of the specification that concern them and
    further properties of the code.

    Conventions of the embedding:
    - a JavaScript [number] that the code only ever uses as an integer is a
      [Z]; a value that may also be [undefined] or [NaN] is an [option Z];
    - a JavaScript string is the list of its UTF-16 code units;
    - an exception (the [TypeError] of a property read on [undefined], the
      [RangeError] of a negative array length) is the [Throw] outcome of the
      [result] type;
    - [Date.now()] is an explicit argument [now] of every function that
      reads the clock; [console.log] is left out. *)

From Stdlib Require Import String Ascii ZArith NArith List Bool Lia QArith.
From Stdlib Require Import Sorting.Permutation Sorting.Sorted DecimalString.
Import ListNotations.
Open Scope Z_scope.

(* ===================================================================== *)
(** * The JavaScript runtime, as far as the sources use it *)
(* ===================================================================== *)

Module Js.

(** A UTF-16 code unit and a string. *)
Definition char := N.
Definition jsstring := list char.

(** An ASCII literal of the source text. *)
Definition lit (s : string) : jsstring :=
  map N_of_ascii (list_ascii_of_string s).

(** Outcome of code that may throw. *)
Inductive result (A : Type) : Type :=
| Ok (a : A)
| Throw.
Arguments Ok {A} a.
Arguments Throw {A}.

Definition bind {A B} (r : result A) (f : A -> result B) : result B :=
  match r with
  | Ok a => f a
  | Throw => Throw
  end.

Notation "x <- r ;; k" := (bind r (fun x => k))
  (at level 61, r at next level, right associativity).

(** Built-ins whose tables are the engine's: [String.prototype.toUpperCase]
    (Unicode case mapping) and [Number::toString] on integers. *)
Class Runtime := {
  toUpperCase : jsstring -> jsstring;
  numberToString : Z -> jsstring
}.

(** [arr[i]] for a numeric index: [undefined] outside the array. *)
Definition index {A} (arr : list A) (i : Z) : option A :=
  if i <? 0 then None else nth_error arr (Z.to_nat i).

(** [arr.join(sep)] on strings. *)
Fixpoint join (sep : jsstring) (parts : list jsstring) : jsstring :=
  match parts with
  | [] => []
  | [p] => p
  | p :: rest => p ++ sep ++ join sep rest
  end.

(** [Array.prototype.sort(cmp)]: a stable sort; the comparator's sign
    decides ([cmp a b <= 0] keeps [a] before [b]). For a comparator that is
    a total preorder the result of a stable sort is unique, and this
    insertion sort computes it (lemma [stable_sort_unique] below). *)
Section Sort.
Context {A : Type} (cmp : A -> A -> Z).

Fixpoint insert (x : A) (l : list A) : list A :=
  match l with
  | [] => [x]
  | y :: ys => if cmp x y <=? 0 then x :: y :: ys else y :: insert x ys
  end.

Fixpoint sort (l : list A) : list A :=
  match l with
  | [] => []
  | x :: xs => insert x (sort xs)
  end.
End Sort.

(** [arr.forEach((x, index) => ...)] / [arr.map((x, index) => ...)]:
    the elements paired with their indices, counted from [start]. *)
Fixpoint withIndex {A} (start : Z) (l : list A) : list (Z * A) :=
  match l with
  | [] => []
  | x :: xs => (start, x) :: withIndex (start + 1) xs
  end.

(** ** Strings *)

Definition streq (a b : jsstring) : bool :=
  if list_eq_dec N.eq_dec a b then true else false.

Definition inRange (lo hi c : N) : bool := ((lo <=? c) && (c <=? hi))%N.

Definition isDigit (c : char) : bool := inRange 48 57 c.
Definition isUpper (c : char) : bool := inRange 65 90 c.
Definition isLower (c : char) : bool := inRange 97 122 c.
Definition isLetter (c : char) : bool := isUpper c || isLower c.

(** [\w]: letters, digits and the underscore. *)
Definition isWordChar (c : char) : bool := isLetter c || isDigit c || (c =? 95)%N.

(** [\s], which is also what [trim] and [parseInt] strip: the WhiteSpace and
    LineTerminator code points. *)
Definition isSpace (c : char) : bool :=
  inRange 9 13 c || (c =? 32)%N || (c =? 160)%N || (c =? 5760)%N
  || inRange 8192 8202 c || (c =? 8232)%N || (c =? 8233)%N
  || (c =? 8239)%N || (c =? 8287)%N || (c =? 12288)%N || (c =? 65279)%N.

(** [.] matches everything but a line terminator. *)
Definition isDot (c : char) : bool :=
  negb ((c =? 10)%N || (c =? 13)%N || (c =? 8232)%N || (c =? 8233)%N).

(** Case folding of the [i] flag (without [u]): on ASCII patterns only the
    two cases of an ASCII letter are identified. *)
Definition foldCase (c : char) : char := if isLower c then (c - 32)%N else c.

Fixpoint dropWhile {A} (p : A -> bool) (l : list A) : list A :=
  match l with
  | [] => []
  | x :: xs => if p x then dropWhile p xs else l
  end.

Fixpoint takeWhile {A} (p : A -> bool) (l : list A) : list A :=
  match l with
  | [] => []
  | x :: xs => if p x then x :: takeWhile p xs else []
  end.

Definition trim (s : jsstring) : jsstring :=
  rev (dropWhile isSpace (rev (dropWhile isSpace s))).

(** [s.split(sep)] for a one-unit separator: at least one piece. *)
Fixpoint split (sep : char) (s : jsstring) : list jsstring :=
  match s with
  | [] => [[]]
  | c :: t =>
      if (c =? sep)%N then [] :: split sep t
      else match split sep t with
           | [] => [[c]]
           | p :: ps => (c :: p) :: ps
           end
  end.

(** [parseInt(s, 10)]: leading white space, a sign, then the longest run of
    digits; [None] is [NaN]. *)
Definition digitsValue (ds : jsstring) : Z :=
  fold_left (fun acc d => 10 * acc + (Z.of_N d - 48)) ds 0.

Definition parseInt (s : jsstring) : option Z :=
  let s := dropWhile isSpace s in
  let '(sign, s) :=
    match s with
    | 45%N :: t => (-1, t)
    | 43%N :: t => (1, t)
    | _ => (1, s)
    end in
  match takeWhile isDigit s with
  | [] => None
  | ds => Some (sign * digitsValue ds)
  end.

(** [Math.max(...l)] and [Math.min(...l)]; [None] is the infinity an empty
    argument list gives. *)
Definition maxOf (l : list Z) : option Z :=
  match l with
  | [] => None
  | x :: xs => Some (fold_left Z.max xs x)
  end.

Definition minOf (l : list Z) : option Z :=
  match l with
  | [] => None
  | x :: xs => Some (fold_left Z.min xs x)
  end.

(** ** Regular expressions (backtracking, leftmost, greedy) *)

Inductive regex :=
| Eps                                        (* the empty pattern *)
| Chr (p : char -> bool)                     (* one code unit of a class *)
| Cat (r1 r2 : regex)
| Alt (r1 r2 : regex)                        (* r1|r2, r1 first *)
| Rep (r : regex) (mn : nat) (mx : option nat) (* greedy {mn,mx} *)
| Wordb                                      (* \b *)
| Bol                                        (* ^ *)
| Eol                                        (* $ *)
| Grp (i : nat) (r : regex).                 (* capturing group number i *)

Definition star (r : regex) : regex := Rep r 0 None.
Definition plus (r : regex) : regex := Rep r 1 None.
Definition opt (r : regex) : regex := Rep r 0 (Some 1%nat).

Definition chr (c : char) : regex := Chr (fun d => (d =? c)%N).
Definition ichr (c : char) : regex := Chr (fun d => (foldCase d =? foldCase c)%N).

(** A literal word, case-sensitive and with the [i] flag. *)
Definition word (s : string) : regex := fold_right (fun c r => Cat (chr c) r) Eps (lit s).
Definition iword (s : string) : regex := fold_right (fun c r => Cat (ichr c) r) Eps (lit s).

Fixpoint seqs (rs : list regex) : regex :=
  match rs with
  | [] => Eps
  | [r] => r
  | r :: rest => Cat r (seqs rest)
  end.

(** [r1|r2|...|rn] for a non-empty list. *)
Fixpoint alts (rs : list regex) : regex :=
  match rs with
  | [] => Chr (fun _ => false)
  | [r] => r
  | r :: rest => Alt r (alts rest)
  end.

(** A position in the subject: the unit before it, the units from it on,
    and the groups captured so far (latest first). *)
Record mstate := {
  prev : option char;
  rest : jsstring;
  caps : list (nat * jsstring)
}.

Definition isWordAt (c : option char) : bool :=
  match c with
  | Some c => isWordChar c
  | None => false
  end.

(** The units between two positions of one subject. *)
Definition consumed (from to : jsstring) : jsstring :=
  firstn (length from - length to) from.

(** The greedy quantifier [{mn,mx}] over the matcher [m] of its operand:
    one more iteration first, the continuation [k] when that fails. An
    iteration that consumes nothing is refused once the minimum is reached,
    so there are at most [mn + length rest] iterations, and [fuel] beyond
    that is never used up. *)
Fixpoint repeatMatch (fuel : nat)
    (m : (mstate -> option mstate) -> mstate -> option mstate)
    (k : mstate -> option mstate) (mn : nat) (mx : option nat) (s : mstate)
  : option mstate :=
  match fuel with
  | O => None
  | S fuel' =>
      match mx with
      | Some O => k s
      | _ =>
          let d := fun s' =>
            if (mn =? 0)%nat && (length (rest s') =? length (rest s))%nat
            then None
            else repeatMatch fuel' m k (Nat.pred mn) (option_map Nat.pred mx) s' in
          if (0 <? mn)%nat then m d s
          else match m d s with
               | Some e => Some e
               | None => k s
               end
      end
  end.

(** [run r k s]: match [r] at [s], then the continuation [k]; the first
    success in backtracking order. (The groups of an operand are not reset
    between the iterations of a quantifier; no pattern of the sources has a
    group under a quantifier that iterates more than once.) *)
Fixpoint run (r : regex) (k : mstate -> option mstate) (s : mstate) : option mstate :=
  match r with
  | Eps => k s
  | Chr p =>
      match rest s with
      | c :: t => if p c then k {| prev := Some c; rest := t; caps := caps s |} else None
      | [] => None
      end
  | Cat r1 r2 => run r1 (run r2 k) s
  | Alt r1 r2 =>
      match run r1 k s with
      | Some e => Some e
      | None => run r2 k s
      end
  | Rep r1 mn mx => repeatMatch (S (mn + length (rest s))) (run r1) k mn mx s
  | Wordb =>
      if xorb (isWordAt (prev s)) (isWordAt (hd_error (rest s))) then k s else None
  | Bol =>
      match prev s with
      | None => k s
      | Some _ => None
      end
  | Eol =>
      match rest s with
      | [] => k s
      | _ :: _ => None
      end
  | Grp i r1 =>
      run r1 (fun s' => k {| prev := prev s'; rest := rest s';
                             caps := (i, consumed (rest s) (rest s')) :: caps s' |}) s
  end.

(** A match attempt at one position. *)
Definition matchAt (r : regex) (prev : option char) (rest : jsstring) : option mstate :=
  run r Some {| prev := prev; rest := rest; caps := [] |}.

(** A successful match: where it starts, what it matched, its groups. *)
Record Match := {
  mindex : nat;
  mtext : jsstring;
  mcaps : list (nat * jsstring)
}.

(** [m[i]]: [undefined] for a group that took no part in the match. *)
Definition group (m : Match) (i : nat) : option jsstring :=
  option_map snd (find (fun c => (fst c =? i)%nat) (mcaps m)).

(** The leftmost match from a position on. *)
Fixpoint searchFrom (r : regex) (prev : option char) (rest : jsstring) (idx : nat)
  : option Match :=
  match matchAt r prev rest with
  | Some e => Some {| mindex := idx; mtext := consumed rest (Js.rest e); mcaps := caps e |}
  | None =>
      match rest with
      | [] => None
      | c :: t => searchFrom r (Some c) t (S idx)
      end
  end.

(** [s.match(r)] for a pattern without the [g] flag. *)
Definition exec (r : regex) (s : jsstring) : option Match := searchFrom r None s 0.

(** [r.test(s)]. *)
Definition test (r : regex) (s : jsstring) : bool :=
  match exec r s with
  | Some _ => true
  | None => false
  end.

(** [s.match(r)] with the [g] flag: every match, left to right, each search
    resuming where the last match ended (one unit further after an empty
    match). [skip] counts the units still inside the last match. [null] is
    the empty list. *)
Fixpoint matchAllFrom (r : regex) (prev : option char) (rest : jsstring) (skip : nat)
  : list jsstring :=
  match skip, rest with
  | S k, c :: t => matchAllFrom r (Some c) t k
  | S _, [] => []
  | O, _ =>
      match matchAt r prev rest with
      | Some e =>
          let m := consumed rest (Js.rest e) in
          m :: match rest with
               | [] => []
               | c :: t => matchAllFrom r (Some c) t (Nat.pred (length m))
               end
      | None =>
          match rest with
          | [] => []
          | c :: t => matchAllFrom r (Some c) t 0
          end
      end
  end.

Definition matchAll (r : regex) (s : jsstring) : list jsstring :=
  matchAllFrom r None s 0.

(** [s.replace(r, by)] with the [g] flag and a plain replacement. *)
Fixpoint replaceFrom (r : regex) (by_ : jsstring) (prev : option char) (rest : jsstring)
  (skip : nat) : jsstring :=
  match skip, rest with
  | S k, c :: t => replaceFrom r by_ (Some c) t k
  | S _, [] => []
  | O, _ =>
      match matchAt r prev rest with
      | Some e =>
          let m := consumed rest (Js.rest e) in
          by_ ++ match rest with
                 | [] => []
                 | c :: t =>
                     (match m with [] => [c] | _ :: _ => [] end)
                     ++ replaceFrom r by_ (Some c) t (Nat.pred (length m))
                 end
      | None =>
          match rest with
          | [] => []
          | c :: t => c :: replaceFrom r by_ (Some c) t 0
          end
      end
  end.

Definition replaceAll (r : regex) (by_ : jsstring) (s : jsstring) : jsstring :=
  replaceFrom r by_ None s 0.

(** Loops over indices. [forReturn] is a [for] loop whose body may
    [return] a value ([Some]); [forState] threads the loop's variables. *)
Fixpoint forReturn {A} (idxs : list nat) (body : nat -> result (option A))
  : result (option A) :=
  match idxs with
  | [] => Ok None
  | i :: rest =>
      o <- body i ;;
      match o with
      | Some a => Ok (Some a)
      | None => forReturn rest body
      end
  end.

Fixpoint forState {S} (idxs : list nat) (body : nat -> S -> result S) (s : S)
  : result S :=
  match idxs with
  | [] => Ok s
  | i :: rest => s' <- body i s ;; forState rest body s'
  end.

(** A runtime to evaluate examples with: exact on ASCII text and on the
    integers that print without an exponent. *)
Definition asciiRuntime : Runtime :=
  {| toUpperCase := map foldCase;
     numberToString := fun z => lit (NilZero.string_of_int (Z.to_int z)) |}.

(** [arr[i]] read for a method call on it: a [TypeError] on [undefined]. *)
Definition at_ {A} (arr : list A) (i : nat) : result A :=
  match nth_error arr i with
  | Some a => Ok a
  | None => Throw
  end.

End Js.

Import Js.

(* ===================================================================== *)
(** * Golf scoring utilities for straight and champagne scramble
      (src/lib/rankingHelper.ts, the module ./scoring) *)
(* ===================================================================== *)

Module Scoring.

Inductive ScrambleMode := straight | champagne.

Definition ScrambleMode_eqb (a b : ScrambleMode) : bool :=
  match a, b with
  | straight, straight | champagne, champagne => true
  | _, _ => false
  end.

Record PlayerScore := {
  name : jsstring;
  handicap : Z;
  holeScores : list Z  (* gross scores for each hole *)
}.

Record TeamData := {
  teamName : jsstring;
  players : list PlayerScore;
  holeCount : Z;
  scrambleMode : ScrambleMode
}.

Record ScoringResult := {
  grossTotal : Z;
  teamHandicap : Z;
  netScore : option Z;          (* for straight scramble *)
  pointsTotal : option Z;       (* for champagne scramble *)
  breakdown : option jsstring
}.

(** Standard stroke index for 18 holes. *)
Definition STROKE_INDEX_18 : list Z :=
  [10; 4; 14; 2; 16; 8; 12; 6; 18; 11; 1; 15; 7; 17; 5; 13; 3; 9].

(** [Math.round(sum * 0.1)] on an integer [sum]: the nearest integer to
    [sum/10], a half rounding up. (For [|sum| < 2^46] the double product
    [sum * 0.1] rounds to the same integer as the real [sum/10]: it is exact
    on the halves and off by far less than a tenth elsewhere.) *)
Definition roundTenth (sum : Z) : Z := (sum + 5) / 10.

Definition calculateTeamHandicap (playerHandicaps : list Z) : Z :=
  let sum := fold_left (fun acc h => acc + h) playerHandicaps 0 in
  roundTenth sum.

Definition calculateGrossTotal (holeScores : list Z) : Z :=
  fold_left (fun acc score => acc + score) holeScores 0.

Section WithRuntime.
Context {rt : Runtime}.

(** [players[0].holeScores] throws on an empty player list. *)
Definition calculateStraightScramble (teamData : TeamData) : result ScoringResult :=
  let playerHandicaps := map handicap (players teamData) in
  let teamHandicap := calculateTeamHandicap playerHandicaps in
  match index (players teamData) 0 with
  | None => Throw
  | Some first =>
      let grossTotal := calculateGrossTotal (holeScores first) in
      let netScore := grossTotal - teamHandicap in
      Ok {| grossTotal := grossTotal;
            teamHandicap := teamHandicap;
            netScore := Some netScore;
            pointsTotal := None;
            breakdown := Some (lit "Gross: " ++ numberToString grossTotal
                               ++ lit ", Team HCP: " ++ numberToString teamHandicap
                               ++ lit ", Net: " ++ numberToString netScore) |}
  end.

(** The stroke index of a hole, [undefined] when the table is read outside
    its 18 entries. For [totalHoles <> 18] the index is
    [Math.floor(((holeNumber - 1) / totalHoles) * 18)], which on the holes
    [1 .. totalHoles] of a card is the integer quotient below (the rounding
    of the double division does not reach the next integer); the division by
    zero gives [NaN] or an infinity, which index nothing. *)
Definition getStrokeIndex (holeNumber totalHoles : Z) : option Z :=
  if totalHoles =? 18 then index STROKE_INDEX_18 (holeNumber - 1)
  else if totalHoles =? 0 then None
  else
    let scaledIndex := ((holeNumber - 1) * 18) / totalHoles in
    index STROKE_INDEX_18 scaledIndex.

(** A comparison with [undefined] is false, so an unknown stroke index gives
    no stroke. *)
Definition getHoleHandicapStrokes (playerHandicap holeNumber totalHoles : Z) : Z :=
  match getStrokeIndex holeNumber totalHoles with
  | None => 0
  | Some strokeIndex =>
      if playerHandicap >=? strokeIndex then 1
      else if playerHandicap >=? strokeIndex + 18 then 2
      else 0
  end.

(** [netScore] is [None] for [NaN] (a gross score read past the end of a
    player's scores): every comparison fails and the last [return 0] is
    taken. *)
Definition netScoreToStableford (netScore : option Z) (par : Z) : Z :=
  match netScore with
  | None => 0
  | Some netScore =>
      let scoreToPar := netScore - par in
      if scoreToPar >=? 2 then 0        (* double bogey or worse *)
      else if scoreToPar =? 1 then 1    (* bogey *)
      else if scoreToPar =? 0 then 2    (* par *)
      else if scoreToPar =? -1 then 3   (* birdie *)
      else if scoreToPar =? -2 then 4   (* eagle *)
      else if scoreToPar =? -3 then 5   (* albatross *)
      else if scoreToPar =? -4 then 6   (* condor *)
      else 0
  end.

(** The default value of the parameter [par]. *)
Definition defaultPar : Z := 4.

(** One player's Stableford points on hole [holeNum] (the body of the inner
    loop of [calculateChampagneScramble]). *)
Definition playerPoints (holeCount holeNum : Z) (player : PlayerScore) : Z :=
  let holeIndex := holeNum - 1 in
  let grossScore := index (holeScores player) holeIndex in
  let handicapStrokes := getHoleHandicapStrokes (handicap player) holeNum holeCount in
  let netScore := option_map (fun g => g - handicapStrokes) grossScore in
  netScoreToStableford netScore defaultPar.

(** The inner loop: [bestPoints] starts at 0 and is raised by every player
    who scores more. *)
Definition bestPointsOnHole (players : list PlayerScore) (holeCount holeNum : Z) : Z :=
  fold_left
    (fun bestPoints player =>
       let points := playerPoints holeCount holeNum player in
       if points >? bestPoints then points else bestPoints)
    players 0.

(** The hole numbers [1 .. holeCount] the outer loop visits. *)
Definition holeNumbers (holeCount : Z) : list Z :=
  map Z.of_nat (seq 1 (Z.to_nat holeCount)).

Definition calculateChampagneScramble (teamData : TeamData) : result ScoringResult :=
  let players := players teamData in
  let holeCount := holeCount teamData in
  let playerHandicaps := map handicap players in
  let teamHandicap := calculateTeamHandicap playerHandicaps in
  match index players 0 with
  | None => Throw
  | Some first =>
      let grossTotal := calculateGrossTotal (holeScores first) in
      let '(teamPointsTotal, holeBreakdown) :=
        fold_left
          (fun '(teamPointsTotal, holeBreakdown) holeNum =>
             let bestPoints := bestPointsOnHole players holeCount holeNum in
             (teamPointsTotal + bestPoints,
              holeBreakdown ++ [lit "H" ++ numberToString holeNum ++ lit ": "
                                ++ numberToString bestPoints ++ lit "pts"]))
          (holeNumbers holeCount) (0, []) in
      Ok {| grossTotal := grossTotal;
            teamHandicap := teamHandicap;
            netScore := None;
            pointsTotal := Some teamPointsTotal;
            breakdown := Some (lit "Total Points: " ++ numberToString teamPointsTotal
                               ++ lit " (" ++ join (lit ", ") holeBreakdown ++ lit ")") |}
  end.

Definition calculateTeamScore (teamData : TeamData) : result ScoringResult :=
  match scrambleMode teamData with
  | straight => calculateStraightScramble teamData
  | champagne => calculateChampagneScramble teamData
  end.

End WithRuntime.

End Scoring.

(* ===================================================================== *)
(** * Tie-break and ranking (same module) *)
(* ===================================================================== *)

Module Ranking.

Record TeamForRanking := {
  id : Z;
  scrambleMode : Scoring.ScrambleMode;
  netScore : option Z;
  pointsTotal : option Z;
  grossTotal : Z;
  teamHandicap : Z
}.

(** An entry [{id, rank}] of the ranking. *)
Record Ranking := { teamId : Z; rank : Z }.

(** -1 if team1 wins, 1 if team2 wins, 0 if still tied. *)
Definition breakTie (team1 team2 : TeamForRanking) : Z :=
  if negb (grossTotal team1 =? grossTotal team2) then
    (if grossTotal team1 <? grossTotal team2 then -1 else 1)
  else if negb (teamHandicap team1 =? teamHandicap team2) then
    (if teamHandicap team1 <? teamHandicap team2 then -1 else 1)
  else 0.

(** [a !== b] on values that are a number or [undefined]. *)
Definition strictNe (a b : option Z) : bool :=
  match a, b with
  | Some x, Some y => negb (x =? y)
  | None, None => false
  | _, _ => true
  end.

(** [v || 0]. *)
Definition orZero (v : option Z) : Z :=
  match v with
  | Some x => x
  | None => 0
  end.

Definition straightCompare (a b : TeamForRanking) : Z :=
  if strictNe (netScore a) (netScore b)
  then orZero (netScore a) - orZero (netScore b)
  else breakTie a b.

Definition champagneCompare (a b : TeamForRanking) : Z :=
  if strictNe (pointsTotal a) (pointsTotal b)
  then orZero (pointsTotal b) - orZero (pointsTotal a)
  else breakTie a b.

(** [teams.forEach((team, index) => rankings.push({id, rank: index + 1}))]. *)
Definition pushRanks (teams : list TeamForRanking) : list Ranking :=
  map (fun '(index, team) => {| teamId := id team; rank := index + 1 |})
      (withIndex 0 teams).

Definition rankTeams (teams : list TeamForRanking) : list Ranking :=
  let straightTeams :=
    filter (fun t => Scoring.ScrambleMode_eqb (scrambleMode t) Scoring.straight) teams in
  let champagneTeams :=
    filter (fun t => Scoring.ScrambleMode_eqb (scrambleMode t) Scoring.champagne) teams in
  let rankings := [] in
  let straightTeams := sort straightCompare straightTeams in
  let rankings := rankings ++ pushRanks straightTeams in
  let champagneTeams := sort champagneCompare champagneTeams in
  let rankings := rankings ++ pushRanks champagneTeams in
  rankings.

End Ranking.

(* ===================================================================== *)
(** * The interpretation result (declared alike in both OCR files) *)
(* ===================================================================== *)

(** [confidence] is a rational: the decimal literals of the source and their
    sums, taken exactly. *)
Record OCRResult := {
  playerNames : list jsstring;
  playerHandicaps : list Z;
  holeScores : list (list Z);
  detectedHoleCount : Z;
  teamName : option jsstring;
  confidence : Q
}.

(** The 32 county names of [generateTeamName] (the same list in both files). *)
Definition counties : list jsstring :=
  map lit
    ["ANTRIM"; "ARMAGH"; "CARLOW"; "CAVAN"; "CLARE"; "CORK"; "DERRY"; "DONEGAL";
     "DOWN"; "DUBLIN"; "FERMANAGH"; "GALWAY"; "KERRY"; "KILDARE"; "KILKENNY";
     "LAOIS"; "LEITRIM"; "LIMERICK"; "LONGFORD"; "LOUTH"; "MAYO"; "MEATH";
     "MONAGHAN"; "OFFALY"; "ROSCOMMON"; "SLIGO"; "TIPPERARY"; "TYRONE";
     "WATERFORD"; "WESTMEATH"; "WEXFORD"; "WICKLOW"]%string.

(** [counties[Math.floor(Date.now() % counties.length)]], the clock reading
    being [now]; [%] truncates, so a negative reading indexes nothing. *)
Definition generateTeamName (now : Z) : option jsstring :=
  let index := Z.rem now (Z.of_nat (length counties)) in
  Js.index counties index.

(** Patterns both files use. *)
Definition digit : regex := Chr isDigit.
Definition space : regex := Chr isSpace.

(** [/\b\d{1,2}\b/]. *)
Definition reNumber : regex := seqs [Wordb; Rep digit 1 (Some 2%nat); Wordb].

(** [/\bw\b/i] for a keyword [w]. *)
Definition reKeyword (w : string) : regex := seqs [Wordb; iword w; Wordb].

(** [/\s+/]. *)
Definition reSpaces : regex := plus space.

(** [r.test(v)] on a value that may be [undefined]: the argument is
    converted to a string first. *)
Definition testU (r : regex) (v : option jsstring) : bool :=
  match v with
  | Some s => test r s
  | None => test r (lit "undefined")
  end.

(** [v || ""]. *)
Definition orEmpty (v : option jsstring) : jsstring :=
  match v with
  | Some s => s
  | None => []
  end.

(** [m && m[i]] followed by [parseInt(m[i], 10)] and the [isNaN] check: the
    number a match captured, if any. *)
Definition capturedInt (m : option Match) (i : nat) : option Z :=
  match m with
  | None => None
  | Some m =>
      match group m i with
      | None | Some [] => None
      | Some s => parseInt s
      end
  end.

(** The first alternative that produced a value. *)
Fixpoint firstSome {A} (l : list (option A)) : option A :=
  match l with
  | [] => None
  | Some a :: _ => Some a
  | None :: rest => firstSome rest
  end.

(** The text split into trimmed, non-empty lines (the first statements of
    both [parseScorecard]s). *)
Definition textLines (text : jsstring) : list jsstring :=
  let cleaned := replaceAll (chr 13%N) [] text in
  filter (fun l => (0 <? length l)%nat) (map trim (split 10%N cleaned)).

(* ===================================================================== *)
(** * src/lib/ocr.ts: the line-based interpreter *)
(* ===================================================================== *)

Module Ocr.

(** ** 1. Infer hole count *)

Definition canonicalCounts : list Z := [9; 13; 16; 18].

Definition includes (l : list Z) (x : Z) : bool := existsb (Z.eqb x) l.

(** The maximum of the numeric tokens of a line that has at least six of
    them (the part of the loop body before the decisions); [None] when the
    loop moves on to the next line. *)
Definition qualifyingMax (line : jsstring) : option Z :=
  let nums := matchAll reNumber line in
  if (length nums <? 6)%nat then None
  else
    let intNums := flat_map (fun n => match parseInt n with
                                      | Some v => [v]
                                      | None => []
                                      end) nums in
    if (length intNums <? 6)%nat then None
    else maxOf intNums.

Fixpoint inferHoleCountFrom (allLines : list jsstring) (bestGuess : Z) : Z :=
  match allLines with
  | [] => bestGuess
  | line :: rest =>
      match qualifyingMax line with
      | None => inferHoleCountFrom rest bestGuess
      | Some max =>
          if includes canonicalCounts max then max
          else if (max >=? 9) && (max <=? 18) then inferHoleCountFrom rest max
          else inferHoleCountFrom rest bestGuess
      end
  end.

Definition inferHoleCount (allLines : list jsstring) : Z :=
  inferHoleCountFrom allLines 18.

(** ** 2. Find players (names + handicaps) *)

Record ParsedPlayer := {
  name : jsstring;
  handicap : Z;
  lineIndex : nat
}.

Definition layoutKeywords : list string :=
  ["hole"; "yards"; "yard's"; "par"; "index"; "blue"; "white"; "green";
   "pts"; "points"; "ladies"]%string.

Definition layoutRegex : regex := alts (map reKeyword layoutKeywords).

(** [/\b(NAME|HCAP|Hcap|CAP|Cap|HEAP|Heap)\b/gi]. *)
Definition reAnchorWords : regex :=
  seqs [Wordb;
        Grp 1 (alts (map iword ["NAME"; "HCAP"; "Hcap"; "CAP"; "Cap"; "HEAP"; "Heap"]%string));
        Wordb].

(** [/[^A-Za-z.'\s]+$/g]. *)
Definition isNameChar (c : char) : bool :=
  isLetter c || (c =? 46)%N || (c =? 39)%N || isSpace c.
Definition reTrailingJunk : regex :=
  seqs [plus (Chr (fun c => negb (isNameChar c))); Eol].

Section WithRuntime.
Context {rt : Runtime}.

Definition cleanName (raw : jsstring) : jsstring :=
  let out := raw in
  (* cut off when we hit layout keywords *)
  let out := match exec layoutRegex out with
             | Some m => firstn (mindex m) out
             | None => out
             end in
  let out := replaceAll reAnchorWords [] out in
  let out := replaceAll reNumber [] out in
  let out := replaceAll reTrailingJunk [] out in
  let out := trim (replaceAll reSpaces (lit " ") out) in
  let out := toUpperCase out in
  if streq out (lit "NAME") then [] else out.

(** [/\bHcap\b[:\s]*([0-9]{1,2})/i]. *)
Definition reHcapThenNumber : regex :=
  seqs [reKeyword "Hcap"; star (Chr (fun c => (c =? 58)%N || isSpace c));
        Grp 1 (Rep digit 1 (Some 2%nat))].

(** [/([0-9]{1,2})\s*\bHcap\b/i]. *)
Definition reNumberThenHcap : regex :=
  seqs [Grp 1 (Rep digit 1 (Some 2%nat)); star space; reKeyword "Hcap"].

(** [/\b[cC]ap\b/], and with the [i] flag of the second pass, where it is
    the keyword in any case. *)
Definition reCap : regex :=
  seqs [Wordb; Chr (fun c => (c =? 99)%N || (c =? 67)%N); word "ap"; Wordb].
Definition reCapAnyCase : regex := reKeyword "cap".

(** [/\b[cC]ap\b[:\s]*([0-9]{1,2})/]. *)
Definition reCapThenNumber : regex :=
  seqs [reCap; star (Chr (fun c => (c =? 58)%N || isSpace c));
        Grp 1 (Rep digit 1 (Some 2%nat))].

(** [/\b([0-9]{1,2})\b/]. *)
Definition reNumberGroup : regex :=
  seqs [Wordb; Grp 1 (Rep digit 1 (Some 2%nat)); Wordb].

(** [/\b([0-9]{1,2})\s+Name\b/i]. *)
Definition reNumberThenName : regex :=
  seqs [Wordb; Grp 1 (Rep digit 1 (Some 2%nat)); plus space; iword "Name"; Wordb].

(** The indices [centerIndex .. end] of the three passes. *)
Definition handicapWindow (lines : list jsstring) (centerIndex : nat) : list nat :=
  let end_ := Z.min (Z.of_nat (length lines) - 1) (Z.of_nat centerIndex + 8) in
  seq centerIndex (Z.to_nat (end_ + 1 - Z.of_nat centerIndex)).

(** Find handicap near a name line, looking only forward a few lines. *)
Definition findHandicapNearLine (lines : list jsstring) (centerIndex : nat) : result Z :=
  let window := handicapWindow lines centerIndex in
  (* Pass 1: explicit Hcap / cap on the same or later lines *)
  pass1 <- forReturn window (fun i =>
    line <- at_ lines i ;;
    Ok (firstSome [capturedInt (exec reHcapThenNumber line) 1;
                   capturedInt (exec reNumberThenHcap line) 1;
                   capturedInt (exec reCapThenNumber line) 1])) ;;
  match pass1 with
  | Some n => Ok n
  | None =>
      (* Pass 2: number just above or below an Hcap/Cap line *)
      pass2 <- forReturn window (fun i =>
        let line := nth_error lines i in
        if negb (testU (reKeyword "Hcap") line) && negb (testU reCapAnyCase line) then Ok None
        else
          let prev := orEmpty (index lines (Z.of_nat i - 1)) in
          let next := orEmpty (index lines (Z.of_nat i + 1)) in
          Ok (firstSome [capturedInt (exec reNumberGroup prev) 1;
                         capturedInt (exec reNumberGroup next) 1])) ;;
      match pass2 with
      | Some n => Ok n
      | None =>
          (* Pass 3: "15 Name" within this forward window *)
          pass3 <- forReturn window (fun i =>
            line <- at_ lines i ;;
            Ok (capturedInt (exec reNumberThenName line) 1)) ;;
          match pass3 with
          | Some n => Ok n
          | None => Ok 0
          end
      end
  end.

(** The pattern of [inlineMatch], with the [i] flag: from the start of the
    line an optional group 1 of [\d{1,2}] followed by [\s+], then [Name\b],
    [\s*], and group 2, the rest of the line (any run of [.]), up to [$]. *)
Definition reInline : regex :=
  seqs [Bol; opt (seqs [Grp 1 (Rep digit 1 (Some 2%nat)); plus space]);
        iword "Name"; Wordb; star space; Grp 2 (star (Chr isDot)); Eol].

(** [/^[A-Z0-9]$/]. *)
Definition reSingleMark : regex :=
  seqs [Bol; Chr (fun c => isUpper c || isDigit c); Eol].

(** [/^(Hcap|Heap|Cap|cap)$/i]. *)
Definition reHandicapLabel : regex :=
  seqs [Bol; Grp 1 (alts (map iword ["Hcap"; "Heap"; "Cap"; "cap"]%string)); Eol].

(** The lines below a bare "Name" line that make up the name: the loop
    [for (j = i + 1; j < Math.min(lines.length, i + 5); j++)], which skips
    marks and labels and stops at a layout line. *)
Fixpoint collectNameParts (lines : list jsstring) (js : list nat) (nameParts : list jsstring)
  : list jsstring :=
  match js with
  | [] => nameParts
  | j :: rest =>
      match nth_error lines j with
      | None | Some [] => collectNameParts lines rest nameParts
      | Some nextLine =>
          if test reSingleMark nextLine then collectNameParts lines rest nameParts
          else if test reHandicapLabel nextLine then collectNameParts lines rest nameParts
          else if test layoutRegex nextLine then nameParts
          else collectNameParts lines rest (nameParts ++ [nextLine])
      end
  end.

(** One turn of the scan for "Name" markers, at line [i]. *)
Definition scanLine (lines : list jsstring) (i : nat) (players : list ParsedPlayer)
  : result (list ParsedPlayer) :=
  let line := nth_error lines i in
  if negb (testU (reKeyword "Name") line) then Ok players
  else
    match line with
    | None => Throw
    | Some line =>
        (* Case 1: "15 Name J.MU CONNOR" or "Name J.MU CONNOR" *)
        let inlineMatch := exec reInline line in
        let rawHandicap := capturedInt inlineMatch 1 in
        let nameParts :=
          match inlineMatch with
          | Some m =>
              match orEmpty (group m 2) with
              | [] => []
              | inlineName => [inlineName]
              end
          | None => []
          end in
        (* Case 2: the actual name is below the "Name" line *)
        let nameParts :=
          match nameParts with
          | [] =>
              let stop := Nat.min (length lines) (i + 5) in
              collectNameParts lines (seq (i + 1) (stop - (i + 1))) []
          | _ :: _ => nameParts
          end in
        let rawName := cleanName (join (lit " ") nameParts) in
        if (length rawName <? 2)%nat then Ok players
        else if existsb (fun p => streq (name p) rawName) players then Ok players
        else
          handicap <- match rawHandicap with
                      | Some n => Ok n
                      | None => findHandicapNearLine lines i
                      end ;;
          Ok (players ++ [{| name := rawName; handicap := handicap; lineIndex := i |}])
    end.

Definition findPlayers (lines : list jsstring) : result (list ParsedPlayer) :=
  forState (seq 0 (length lines)) (scanLine lines) [].

(** ** 3. Extract possible hole scores for each player *)

(** The labels of lines that carry no scores. *)
Definition nonScoreLabels : list regex :=
  [reKeyword "Name"; reKeyword "Par"; reKeyword "Index"; reKeyword "Total";
   seqs [Wordb; iword "Point"; opt (ichr 115%N); Wordb];
   reKeyword "Hcap"; reKeyword "Heap"].

(** The inner loop over the numeric tokens of one line: scores in 2..12 are
    pushed until [targetHoles] are there. *)
Fixpoint pushScores (tokens : list jsstring) (targetHoles : Z) (scores : list Z) : list Z :=
  match tokens with
  | [] => scores
  | token :: rest =>
      match parseInt token with
      | None => pushScores rest targetHoles scores
      | Some n =>
          if (n <? 2) || (n >? 12) then pushScores rest targetHoles scores
          else
            let scores := scores ++ [n] in
            if Z.of_nat (length scores) >=? targetHoles then scores
            else pushScores rest targetHoles scores
      end
  end.

(** The loop [for (i = startIndex + 1; i < endIndex && scores.length <
    targetHoles; i++)]. *)
Fixpoint scanScoreLines (allLines : list jsstring) (idxs : list nat) (targetHoles : Z)
  (scores : list Z) : result (list Z) :=
  match idxs with
  | [] => Ok scores
  | i :: rest =>
      if negb (Z.of_nat (length scores) <? targetHoles) then Ok scores
      else
        let line := nth_error allLines i in
        if existsb (fun r => testU r line) nonScoreLabels
        then scanScoreLines allLines rest targetHoles scores
        else
          match line with
          | None => Throw
          | Some line =>
              let nums := matchAll reNumber line in
              scanScoreLines allLines rest targetHoles (pushScores nums targetHoles scores)
          end
  end.

(** Setting [scores.length] to a negative number is a [RangeError]. *)
Definition extractScoresForPlayer (allLines : list jsstring) (startIndex endIndex : nat)
  (targetHoles : Z) : result (list Z) :=
  scores <- scanScoreLines allLines
              (seq (startIndex + 1) (endIndex - (startIndex + 1))) targetHoles [] ;;
  let scores := scores ++ repeat 0 (Z.to_nat (targetHoles - Z.of_nat (length scores))) in
  if Z.of_nat (length scores) >? targetHoles then
    if targetHoles <? 0 then Throw else Ok (firstn (Z.to_nat targetHoles) scores)
  else Ok scores.

(** The [players.forEach] that collects one row of scores per player, the
    next player's line being the end of a player's block. *)
Fixpoint collectScores (lines : list jsstring) (players : list ParsedPlayer) (holeCount : Z)
  : result (list (list Z)) :=
  match players with
  | [] => Ok []
  | player :: rest =>
      let thisStart := lineIndex player in
      let thisEnd := match rest with
                     | nextPlayer :: _ => lineIndex nextPlayer
                     | [] => length lines
                     end in
      scores <- extractScoresForPlayer lines thisStart thisEnd holeCount ;;
      others <- collectScores lines rest holeCount ;;
      Ok (scores :: others)
  end.

(** ** 4. The interpreter *)

Definition parseScorecard (now : Z) (text : jsstring) : result OCRResult :=
  let lines := textLines text in
  let holeCount := inferHoleCount lines in
  players <- findPlayers lines ;;
  (* No players? Bail with low confidence *)
  if (length players =? 0)%nat then
    Ok {| playerNames := [];
          playerHandicaps := [];
          holeScores := [];
          detectedHoleCount := 0;
          teamName := generateTeamName now;
          confidence := 0.2%Q |}
  else
    let playerNames := map name players in
    let playerHandicaps := map handicap players in
    holeScores <- collectScores lines players holeCount ;;
    let hasAnyRealScores := existsb (fun row => existsb (fun s => s >? 0) row) holeScores in
    let base := if (3 <=? length players)%nat then 0.5%Q
                else if (length players =? 2)%nat then 0.45%Q
                else 0.4%Q in
    let confidence := if hasAnyRealScores then (base + 0.2)%Q else base in
    Ok {| playerNames := playerNames;
          playerHandicaps := playerHandicaps;
          holeScores := holeScores;
          detectedHoleCount := holeCount;
          teamName := generateTeamName now;
          confidence := confidence |}.

End WithRuntime.

End Ocr.

(* ===================================================================== *)
(** * The bounding-box variant of ocr.ts (src/unnamed/part_004): rows of
      positioned tokens, and the text fallback *)
(* ===================================================================== *)

Module OcrBox.

Record Vertex := { x : Z; y : Z }.

Record BoundingBox := { vertices : list Vertex }.

Record TextAnnotation := {
  description : jsstring;
  boundingPoly : BoundingBox
}.

(** [Math.min(...ann.boundingPoly.vertices.map((v) => v.y))]; [None] is the
    [Infinity] of a box without vertices. *)
Definition topY (ann : TextAnnotation) : option Z :=
  minOf (map y (vertices (boundingPoly ann))).

Definition leftX (ann : TextAnnotation) : option Z :=
  minOf (map x (vertices (boundingPoly ann))).

(** The comparator [a - b] as [sort] reads it: an infinity minus a number is
    an infinity, and the [NaN] of two infinities counts as 0. *)
Definition compareCoord (a b : option Z) : Z :=
  match a, b with
  | Some a, Some b => a - b
  | None, Some _ => 1
  | Some _, None => -1
  | None, None => 0
  end.

(** [Math.abs(y - lastY) <= tolerance], false as soon as an infinity takes
    part. *)
Definition within (y lastY : option Z) (tolerance : Z) : bool :=
  match y, lastY with
  | Some a, Some b => Z.abs (a - b) <=? tolerance
  | _, _ => false
  end.

(** [lastY === -1000]. *)
Definition isSentinel (lastY : option Z) : bool :=
  match lastY with
  | Some v => v =? -1000
  | None => false
  end.

(** Group text annotations by vertical position (same Y = same row). *)
Definition groupByRows (annotations : list TextAnnotation) (tolerance : Z)
  : list (list TextAnnotation) :=
  let sorted := sort (fun a b => compareCoord (topY a) (topY b)) annotations in
  let '(rows, currentRow, _) :=
    fold_left
      (fun '(rows, currentRow, lastY) ann =>
         let y := topY ann in
         if isSentinel lastY || within y lastY tolerance
         then (rows, currentRow ++ [ann], y)
         else ((if (0 <? length currentRow)%nat then rows ++ [currentRow] else rows),
               [ann], y))
      sorted ([], [], Some (-1000)) in
  if (0 <? length currentRow)%nat then rows ++ [currentRow] else rows.

(** [/\b(hole|par|index|yard)/i]. *)
Definition reHeader : regex :=
  seqs [Wordb; Grp 1 (alts (map iword ["hole"; "par"; "index"; "yard"]%string))].

(** [/[A-Za-z]{2,}/]. *)
Definition reTwoLetters : regex := Rep (Chr isLetter) 2 None.

(** Find rows that likely contain player information. *)
Definition findPlayerRows (rows : list (list TextAnnotation)) : list (list TextAnnotation) :=
  filter
    (fun row =>
       let text := join (lit " ") (map description row) in
       if test reHeader text then false
       else
         let hasLetters := test reTwoLetters text in
         let hasNameMarker := test (reKeyword "name") text in
         hasLetters || hasNameMarker)
    rows.

Record Token := { text : jsstring; tokenX : option Z }.

Record Player := {
  name : jsstring;
  handicap : Z;
  row : list TextAnnotation
}.

(** [arr.findIndex(p)], [None] for -1. *)
Fixpoint findIndex {A} (p : A -> bool) (l : list A) : option nat :=
  match l with
  | [] => None
  | a :: rest => if p a then Some 0%nat else option_map S (findIndex p rest)
  end.

(** [/^name$/i] and [/^(hcap|cap)$/i]. *)
Definition reNameOnly : regex := seqs [Bol; iword "name"; Eol].
Definition reHcapOnly : regex :=
  seqs [Bol; Grp 1 (alts [iword "hcap"; iword "cap"]); Eol].

(** The class [A-Za-z.'\s] and [/^[A-Za-z.'\s]+$/]. *)
Definition isNameChar (c : char) : bool :=
  isLetter c || (c =? 46)%N || (c =? 39)%N || isSpace c.
Definition reAlphabetic : regex := seqs [Bol; plus (Chr isNameChar); Eol].

(** [/\b(name|hcap|cap|heap)\b/gi] and [/\d+/g]. *)
Definition reAnchorWords : regex :=
  seqs [Wordb; Grp 1 (alts (map iword ["name"; "hcap"; "cap"; "heap"]%string)); Wordb].
Definition reDigits : regex := plus digit.

(** [!isNaN(num) && num >= lo && num <= hi]. *)
Definition inBounds (lo hi : Z) (num : option Z) : bool :=
  match num with
  | Some n => (lo <=? n) && (n <=? hi)
  | None => false
  end.

Section WithRuntime.
Context {rt : Runtime}.

(** Extract player name and handicap from a row. *)
Definition extractPlayer (row : list TextAnnotation) : result Player :=
  let tokens :=
    sort (fun a b => compareCoord (tokenX a) (tokenX b))
         (map (fun a => {| text := description a; tokenX := leftX a |}) row) in
  (* Strategy 1: the words after "Name"; Strategy 2: the first alphabetic tokens *)
  let name :=
    match findIndex (fun t => test reNameOnly (text t)) tokens with
    | Some nameIdx =>
        let nameParts :=
          map text (filter (fun t => test reAlphabetic (text t))
                           (skipn (nameIdx + 1) tokens)) in
        join (lit " ") (firstn 3 nameParts)
    | None =>
        let nameParts :=
          map text (filter (fun t => test reAlphabetic (text t)
                                     && (1 <? length (text t))%nat) tokens) in
        join (lit " ") (firstn 3 nameParts)
    end in
  (* the handicap after "Hcap" or "Cap", else the first number in 0..36 *)
  handicap <-
    match findIndex (fun t => test reHcapOnly (text t)) tokens with
    | Some hcapIdx =>
        if Z.of_nat hcapIdx <? Z.of_nat (length tokens) - 1 then
          next <- at_ tokens (hcapIdx + 1) ;;
          let num := parseInt (text next) in
          Ok (if inBounds 0 54 num then
                match num with Some n => n | None => 0 end
              else 0)
        else
          Ok (match find (fun t => inBounds 0 36 (parseInt (text t))) tokens with
              | Some hcapCandidate =>
                  match parseInt (text hcapCandidate) with Some n => n | None => 0 end
              | None => 0
              end)
    | None =>
        Ok (match find (fun t => inBounds 0 36 (parseInt (text t))) tokens with
            | Some hcapCandidate =>
                match parseInt (text hcapCandidate) with Some n => n | None => 0 end
            | None => 0
            end)
    end ;;
  (* clean up name *)
  let name := replaceAll reAnchorWords [] name in
  let name := replaceAll reDigits [] name in
  let name := replaceAll reSpaces (lit " ") name in
  let name := toUpperCase (trim name) in
  Ok {| name := match name with [] => lit "PLAYER" | _ :: _ => name end;
        handicap := handicap;
        row := row |}.

End WithRuntime.

Definition canonicalCounts : list Z := [9; 13; 16; 18].

(** The numbers of a row that pass a range filter:
    [row.map((a) => parseInt(a.description, 10)).filter(...)]. *)
Definition rowNumbers (lo hi : Z) (row : list TextAnnotation) : list Z :=
  flat_map (fun a => match parseInt (description a) with
                     | Some n => if (lo <=? n) && (n <=? hi) then [n] else []
                     | None => []
                     end) row.

(** The maximum of the numbers in 1..18 of a row that has at least six of
    them; [None] when the loop moves on to the next row. *)
Definition qualifyingMax (row : list TextAnnotation) : option Z :=
  let numbers := rowNumbers 1 18 row in
  if (6 <=? length numbers)%nat then maxOf numbers else None.

(** Detect hole count from scorecard (9, 13, 16, or 18). *)
Fixpoint detectHoleCount (rows : list (list TextAnnotation)) : Z :=
  match rows with
  | [] => 18
  | row :: rest =>
      match qualifyingMax row with
      | None => detectHoleCount rest
      | Some max =>
          if existsb (Z.eqb max) canonicalCounts then max
          else if (max >=? 9) && (max <=? 18) then max
          else detectHoleCount rest
      end
  end.

(** [arr.slice(0, end)]: a negative [end] counts from the end of the array. *)
Definition slice0 {A} (arr : list A) (end_ : Z) : list A :=
  if end_ <? 0 then firstn (Z.to_nat (Z.of_nat (length arr) + end_)) arr
  else firstn (Z.to_nat end_) arr.

(** Extract hole scores from a player row. *)
Definition extractScoresFromRow (row : list TextAnnotation) (holeCount : Z) : list Z :=
  let scores := rowNumbers 2 12 row in
  let scores := scores ++ repeat 0 (Z.to_nat (holeCount - Z.of_nat (length scores))) in
  slice0 scores holeCount.

(** [arr.map(f)] for an [f] that may throw. *)
Fixpoint mapResult {A B} (f : A -> result B) (l : list A) : result (list B) :=
  match l with
  | [] => Ok []
  | a :: rest => b <- f a ;; bs <- mapResult f rest ;; Ok (b :: bs)
  end.

Section WithRuntime.
Context {rt : Runtime}.

(** Parse scorecard using bounding box positions. *)
Definition parseScorecardWithBoundingBoxes (now : Z) (annotations : list TextAnnotation)
  (fullText : jsstring) : result OCRResult :=
  let rowGroups := groupByRows annotations 20 in
  let playerRows := findPlayerRows rowGroups in
  players <- mapResult extractPlayer playerRows ;;
  let holeCount := detectHoleCount rowGroups in
  let holeScores := map (fun player => extractScoresFromRow (row player) holeCount) players in
  let playerNames := map name players in
  let playerHandicaps := map handicap players in
  let hasRealScores := existsb (fun row => existsb (fun s => s >? 0) row) holeScores in
  let confidence :=
    if (3 <=? length playerNames)%nat && hasRealScores then 0.8%Q
    else if (2 <=? length playerNames)%nat then 0.6%Q
    else 0.4%Q in
  Ok {| playerNames := playerNames;
        playerHandicaps := playerHandicaps;
        holeScores := holeScores;
        detectedHoleCount := holeCount;
        teamName := generateTeamName now;
        confidence := confidence |}.

(** [/^[A-Za-z.\s]{2,}$/]. *)
Definition reNameLine : regex :=
  seqs [Bol; Rep (Chr (fun c => isLetter c || (c =? 46)%N || isSpace c)) 2 None; Eol].

(** [/\b(\d{1,2})\s*(hcap|cap)\b/i]. *)
Definition reNumberThenCap : regex :=
  seqs [Wordb; Grp 1 (Rep digit 1 (Some 2%nat)); star space;
        Grp 2 (alts [iword "hcap"; iword "cap"]); Wordb].

(** The name lines below a "Name" line: the loop that pushes the next lines
    while they look like names and breaks at the first that does not. *)
Fixpoint collectNameLines (lines : list jsstring) (js : list nat) : list jsstring :=
  match js with
  | [] => []
  | j :: rest =>
      let next := nth_error lines j in
      if testU reNameLine next then orEmpty next :: collectNameLines lines rest
      else []
  end.

(** One turn of the fallback's scan, at line [i]. The handicap loop stops at
    the first line that matches; its group 1 is one or two digits. *)
Definition scanLine (lines : list jsstring) (i : nat) (players : list (jsstring * Z))
  : result (list (jsstring * Z)) :=
  let line := nth_error lines i in
  if negb (testU (reKeyword "Name") line) then Ok players
  else
    let nameParts :=
      collectNameLines lines
        (seq (i + 1) (Nat.min (i + 4) (length lines) - (i + 1))) in
    let name := match toUpperCase (join (lit " ") nameParts) with
                | [] => lit "PLAYER"
                | n => n
                end in
    found <- forReturn (seq i (Nat.min (i + 5) (length lines) - i)) (fun j =>
      l <- at_ lines j ;;
      Ok (capturedInt (exec reNumberThenCap l) 1)) ;;
    let handicap := match found with Some n => n | None => 0 end in
    Ok (players ++ [(name, handicap)]).

(** FALLBACK: text-based parsing for when no bounding boxes are available. *)
Definition parseScorecard (now : Z) (text : jsstring) : result OCRResult :=
  let lines := textLines text in
  players <- forState (seq 0 (length lines)) (scanLine lines) [] ;;
  let holeCount := 18 in
  let holeScores := map (fun _ => repeat 0 (Z.to_nat holeCount)) players in
  Ok {| playerNames := map fst players;
        playerHandicaps := map snd players;
        holeScores := holeScores;
        detectedHoleCount := holeCount;
        teamName := generateTeamName now;
        confidence := if (0 <? length players)%nat then 0.4%Q else 0.2%Q |}.

(** The end of [extractScorecardData], once the recognised text and the
    annotations are there: spatial parsing if there are annotations,
    otherwise the text fallback. *)
Definition interpret (now : Z) (annotations : list TextAnnotation) (fullText : jsstring)
  : result OCRResult :=
  if (0 <? length annotations)%nat
  then parseScorecardWithBoundingBoxes now annotations fullText
  else parseScorecard now fullText.

End WithRuntime.

End OcrBox.

(* ===================================================================== *)
(** * JSON values, as far as the callers serialise and read them *)
(* ===================================================================== *)

Module Json.

(** The values the upload handler hands to [JSON.stringify]: arrays of
    strings, of numbers and of arrays of numbers. *)
#[warnings="-register-all"]
Inductive json :=
| JNumber (n : Z)
| JString (s : jsstring)
| JArray (items : list json).

(** [JSON.stringify] on these values and [JSON.parse], which throws a
    [SyntaxError] on a text that is not JSON; what [parse] returns is only
    carried along by the callers, so its type is left open. *)
Class Runtime := {
  stringify : json -> jsstring;
  Parsed : Type;
  parse : jsstring -> result Parsed
}.

End Json.

(* ===================================================================== *)
(** * src/lib/rankingHelper.ts: ranks applied to the teams *)
(* ===================================================================== *)

Module RankingHelper.
Import Ranking.

(** [new Map(entries).get(key)]: of the entries with one key the last one
    counts. *)
Definition mapGet (entries : list (Z * Z)) (key : Z) : option Z :=
  option_map snd (find (fun e => fst e =? key) (rev entries)).

Section Generic.
(** [T extends TeamForRanking]: a team type with the ranking fields. *)
Context {T : Type} (fields : T -> TeamForRanking).

(** Calculate and apply ranks to teams; the result pairs each team with its
    [rank] (the object [{...team, rank}]). *)
Definition applyRankings (teams : list T) : list (T * Z) :=
  if (length teams =? 0)%nat then []
  else
    let rankings := rankTeams (map fields teams) in
    let rankMap := map (fun r => (teamId r, rank r)) rankings in
    map (fun team => (team, orZero (mapGet rankMap (id (fields team))))) teams.

End Generic.

End RankingHelper.

(* ===================================================================== *)
(** * The ordinal helpers listed in src/lib/ocr.ts (the module ./ordinal) *)
(* ===================================================================== *)

Module Ordinal.

Definition getOrdinalSuffix (num : Z) : jsstring :=
  if num =? 1 then lit "st"
  else if num =? 2 then lit "nd"
  else if num =? 3 then lit "rd"
  else lit "th".

Section WithRuntime.
Context {rt : Js.Runtime}.

Definition formatRank (rank : Z) : jsstring :=
  numberToString rank ++ getOrdinalSuffix rank.

End WithRuntime.

End Ordinal.

(* ===================================================================== *)
(** * The upload handler (src/unnamed/part_005), from the OCR result on *)
(* ===================================================================== *)

Module UploadHandler.
Import Json.

(** The team record handed to [onTeamCreated]. *)
Record TeamRecord := {
  eventId : Z;
  teamName : jsstring;
  scrambleMode : Scoring.ScrambleMode;
  playerNames : jsstring;        (* JSON array of player names *)
  playerHandicaps : jsstring;    (* JSON array of player handicaps *)
  holeCount : Z;
  grossTotal : Z;
  teamHandicap : Z;
  netScore : option Z;
  pointsTotal : option Z;
  rank : Z;
  holeScores : jsstring          (* JSON array of hole-by-hole scores *)
}.

(** [ocrData.detectedHoleCount || 18]. *)
Definition holeCountOr18 (detected : Z) : Z :=
  if detected =? 0 then 18 else detected.

(** [ocrData.teamName || fallback]: a missing or empty label is replaced. *)
Definition labelOr (label : option jsstring) (fallback : jsstring) : jsstring :=
  match label with
  | Some (c :: s) => c :: s
  | Some [] | None => fallback
  end.

(** Step 3: handicaps padded with 0 to one per name, and a row of zeros per
    name when there are no score rows at all. *)
Definition padHandicaps (names : list jsstring) (handicaps : list Z) : list Z :=
  if (length handicaps <? length names)%nat
  then handicaps ++ repeat 0 (length names - length handicaps)
  else handicaps.

Definition scoreRows (names : list jsstring) (scores : list (list Z)) (detected : Z)
  : list (list Z) :=
  if (0 <? length scores)%nat then scores
  else map (fun _ => repeat 0 (Z.to_nat (holeCountOr18 detected))) names.

(** The players of the scoring input: name [idx] with
    [playerHandicaps[idx] ?? 0] and [holeScores[idx] || []]. *)
Definition scoringPlayers (names : list jsstring) (handicaps : list Z)
    (scores : list (list Z)) : list Scoring.PlayerScore :=
  map (fun '(idx, name) =>
         {| Scoring.name := name;
            Scoring.handicap := match index handicaps idx with
                                | Some h => h
                                | None => 0
                                end;
            Scoring.holeScores := match index scores idx with
                                  | Some row => row
                                  | None => []
                                  end |})
      (withIndex 0 names).

Section WithRuntime.
Context {rt : Js.Runtime} {json_rt : Json.Runtime}.

(** Steps 3 to 5 of [processUploadedScorecard]: the team record built from
    the OCR result [ocrData], or the error thrown ("No players detected in
    scorecard", or what the scoring throws). *)
Definition teamFromOcr (eventId : Z) (scrambleMode : Scoring.ScrambleMode)
    (ocrData : OCRResult) : result TeamRecord :=
  let '(Build_OCRResult names ocrHandicaps ocrScores detected label _) := ocrData in
  if (length names =? 0)%nat then Throw
  else
    let playerHandicaps := padHandicaps names ocrHandicaps in
    let holeScores := scoreRows names ocrScores detected in
    scoringResult <-
      Scoring.calculateTeamScore
        {| Scoring.teamName := labelOr label (lit "Unnamed Team");
           Scoring.players := scoringPlayers names playerHandicaps holeScores;
           Scoring.holeCount := holeCountOr18 detected;
           Scoring.scrambleMode := scrambleMode |} ;;
    Ok {| eventId := eventId;
          teamName := labelOr label (lit "Team");
          scrambleMode := scrambleMode;
          playerNames := stringify (JArray (map JString names));
          playerHandicaps := stringify (JArray (map JNumber playerHandicaps));
          holeCount := holeCountOr18 detected;
          grossTotal := Scoring.grossTotal scoringResult;
          teamHandicap := Scoring.teamHandicap scoringResult;
          netScore := Scoring.netScore scoringResult;
          pointsTotal := Scoring.pointsTotal scoringResult;
          rank := 0;
          holeScores :=
            stringify (JArray (map (fun row => JArray (map JNumber row)) holeScores)) |}.

End WithRuntime.

End UploadHandler.

(* ===================================================================== *)
(** * src/App.tsx: the ranked teams of the current event *)
(* ===================================================================== *)

Module AppEvent.

Inductive EventStatus := active | published | archived.

Record Event := {
  id : Z;
  eventDate : jsstring;
  holeCount : Z;
  scrambleMode : Scoring.ScrambleMode;
  status : EventStatus;
  teamCount : Z;
  publishedAt : option jsstring;
  created_at : jsstring;
  updated_at : jsstring
}.

End AppEvent.

Module App.
Import Json.

Record Team := {
  id : Z;
  eventId : Z;
  teamName : jsstring;
  playerNames : jsstring;
  playerHandicaps : jsstring;
  scrambleMode : Scoring.ScrambleMode;
  holeCount : Z;
  grossTotal : Z;
  teamHandicap : Z;
  netScore : option Z;
  pointsTotal : option Z;
  rank : Z;
  holeScores : jsstring;
  created_at : jsstring;
  updated_at : jsstring
}.

(** The fields [rankTeams] is called with. *)
Definition rankingFields (t : Team) : Ranking.TeamForRanking :=
  {| Ranking.id := id t;
     Ranking.scrambleMode := scrambleMode t;
     Ranking.netScore := netScore t;
     Ranking.pointsTotal := pointsTotal t;
     Ranking.grossTotal := grossTotal t;
     Ranking.teamHandicap := teamHandicap t |}.

Section WithRuntime.
Context {json_rt : Json.Runtime}.

(** A team of the board: the stored team with its two JSON fields parsed
    and its rank replaced (the object
    [{...team, playerNames, playerHandicaps, rank}]). *)
Record RankedTeam := {
  team : Team;
  parsedNames : Parsed;
  parsedHandicaps : Parsed;
  boardRank : Z
}.

(** [{...team, playerNames: JSON.parse(...), playerHandicaps: JSON.parse(...)}]. *)
Definition parseTeam (t : Team) : result (Team * Parsed * Parsed) :=
  names <- parse (playerNames t) ;;
  handicaps <- parse (playerHandicaps t) ;;
  Ok (t, names, handicaps).

(** [rankings.find((r) => r.id === team.id)] and [ranking?.rank || 0]. *)
Definition rankOf (rankings : list Ranking.Ranking) (teamId : Z) : Z :=
  match find (fun r => Ranking.teamId r =? teamId) rankings with
  | Some ranking => Ranking.rank ranking
  | None => 0
  end.

(** The computation of [eventTeams]: the teams of the current event, ranked
    and sorted by rank. *)
Definition eventTeams (currentEvent : option AppEvent.Event) (allTeams : list Team)
  : result (list RankedTeam) :=
  match currentEvent with
  | None => Ok []
  | Some currentEvent =>
      let teamsForEvent :=
        filter (fun t => eventId t =? AppEvent.id currentEvent) allTeams in
      parsedTeams <- OcrBox.mapResult parseTeam teamsForEvent ;;
      let rankings := Ranking.rankTeams (map rankingFields teamsForEvent) in
      let rankedTeams :=
        map (fun '(t, names, handicaps) =>
               {| team := t; parsedNames := names; parsedHandicaps := handicaps;
                  boardRank := rankOf rankings (id t) |})
            parsedTeams in
      Ok (sort (fun a b => boardRank a - boardRank b) rankedTeams)
  end.

End WithRuntime.

End App.

(* ===================================================================== *)
(** * Notions of the specification *)
(* ===================================================================== *)

Module RegexSpec.

(** [s'] is not before [s] in the subject. *)
Definition advances (s s' : mstate) : Prop :=
  (length (rest s') <= length (rest s))%nat.

(** A matcher that asks its continuation only about positions not before
    its own. *)
Definition forwardOnly (m : (mstate -> option mstate) -> mstate -> option mstate) : Prop :=
  forall k1 k2 s,
    (forall s', advances s s' -> k1 s' = k2 s') -> m k1 s = m k2 s.

(** The words a pattern can consume (anchors and boundaries consume
    nothing). *)
Fixpoint lang (r : regex) (w : jsstring) : Prop :=
  match r with
  | Eps | Wordb | Bol | Eol => w = []
  | Chr p => exists c, w = [c] /\ p c = true
  | Cat r1 r2 => exists u v, w = u ++ v /\ lang r1 u /\ lang r2 v
  | Alt r1 r2 => lang r1 w \/ lang r2 w
  | Rep r1 mn mx =>
      exists ws, w = concat ws /\ Forall (lang r1) ws
                 /\ (mn <= length ws)%nat
                 /\ match mx with
                    | Some m => (length ws <= m)%nat
                    | None => True
                    end
  | Grp _ r1 => lang r1 w
  end.

(** The words group [i] of a pattern can capture. *)
Fixpoint groupLang (r : regex) (i : nat) (w : jsstring) : Prop :=
  match r with
  | Cat r1 r2 | Alt r1 r2 => groupLang r1 i w \/ groupLang r2 i w
  | Rep r1 _ _ => groupLang r1 i w
  | Grp j r1 => (j = i /\ lang r1 w) \/ groupLang r1 i w
  | Eps | Chr _ | Wordb | Bol | Eol => False
  end.

(** The bounds of every quantifier are in order (a pattern literal with
    [{m,n}], [n < m], is a syntax error). *)
Fixpoint wellFormed (r : regex) : bool :=
  match r with
  | Cat r1 r2 | Alt r1 r2 => wellFormed r1 && wellFormed r2
  | Rep r1 mn mx =>
      wellFormed r1 && match mx with
                       | Some m => (mn <=? m)%nat
                       | None => true
                       end
  | Grp _ r1 => wellFormed r1
  | Eps | Chr _ | Wordb | Bol | Eol => true
  end.

(** [s'] is reached from [s] over a word of the pattern, with captures of
    the pattern's groups added. *)
Definition reaches (r : regex) (s s' : mstate) : Prop :=
  exists w added,
    rest s = w ++ rest s' /\ lang r w
    /\ caps s' = added ++ caps s
    /\ Forall (fun c => groupLang r (fst c) (snd c)) added.

(** One or two decimal digits. *)
Definition twoDigits (w : jsstring) : Prop :=
  (exists c, w = [c] /\ isDigit c = true)
  \/ (exists c d, w = [c; d] /\ isDigit c = true /\ isDigit d = true).

End RegexSpec.

Module Spec.
Import Scoring.

(** The sum of a sequence. *)
Definition sumZ (l : list Z) : Z := fold_right Z.add 0 l.

(** [m] is the maximum of the values [l]. *)
Definition isMaximumOf (l : list Z) (m : Z) : Prop :=
  In m l /\ Forall (fun v => v <= m) l.

(** [r] is [sum * 0.10] rounded to the nearest integer (a half up):
    [sum/10 - 1/2 < r <= sum/10 + 1/2]. *)
Definition nearestToTenth (sum r : Z) : Prop :=
  -5 < 10 * r - sum <= 5.

(** A one-player team that played one hole in [gross] strokes. *)
Definition oneHoleTeam (gross : Z) : TeamData :=
  {| teamName := lit "T";
     players := [{| name := lit "P"; handicap := 0; holeScores := [gross] |}];
     holeCount := 1;
     scrambleMode := champagne |}.

(** The points total of a result, when the scoring returned one. *)
Definition pointsOf (r : result ScoringResult) : option Z :=
  match r with
  | Ok r => pointsTotal r
  | Throw => None
  end.

End Spec.

Module RankingSpec.
Import Ranking.

(** The tie-break rule: lower gross total, then lower team handicap. *)
Definition tieBreakOrder (a b : TeamForRanking) : Prop :=
  grossTotal a < grossTotal b
  \/ (grossTotal a = grossTotal b /\ teamHandicap a <= teamHandicap b).

(** Ascending net score, the tie-break rule on exact ties. *)
Definition straightOrder (a b : TeamForRanking) : Prop :=
  orZero (netScore a) < orZero (netScore b)
  \/ (orZero (netScore a) = orZero (netScore b) /\ tieBreakOrder a b).

(** Descending points total, the tie-break rule on exact ties. *)
Definition champagneOrder (a b : TeamForRanking) : Prop :=
  orZero (pointsTotal b) < orZero (pointsTotal a)
  \/ (orZero (pointsTotal a) = orZero (pointsTotal b) /\ tieBreakOrder a b).

(** A team score carries the metric of its format. *)
Definition hasMetric (t : TeamForRanking) : Prop :=
  match scrambleMode t with
  | Scoring.straight => netScore t <> None
  | Scoring.champagne => pointsTotal t <> None
  end.

(** The elements a comparator holds equal to [z], in their order in [l]. *)
Definition tiedWith {A} (cmp : A -> A -> Z) (z : A) (l : list A) : list A :=
  filter (fun y => cmp z y =? 0) l.

(** [l'] is a stable sort of [l]: a permutation, in order, that keeps the
    elements the comparator holds equal in their order in [l]. *)
Definition stableSortOf {A} (cmp : A -> A -> Z) (R : A -> A -> Prop) (P : A -> Prop)
    (l l' : list A) : Prop :=
  Permutation l' l
  /\ StronglySorted R l'
  /\ (forall z, P z -> tiedWith cmp z l' = tiedWith cmp z l).

(** The two format groups. *)
Definition isStraight (t : TeamForRanking) : bool :=
  Scoring.ScrambleMode_eqb (scrambleMode t) Scoring.straight.
Definition isChampagne (t : TeamForRanking) : bool :=
  Scoring.ScrambleMode_eqb (scrambleMode t) Scoring.champagne.

(** Ranks 1, 2, ... by position. *)
Definition ranksFromOne (l : list TeamForRanking) : list Ranking :=
  map (fun p => {| teamId := id (snd p); rank := Z.of_nat (fst p) |})
      (combine (seq 1 (length l)) l).

(** Three straight teams and two champagne teams, mixed. *)
Definition mixedTeams : list TeamForRanking :=
  [ {| id := 1; scrambleMode := Scoring.straight; netScore := Some 70;
       pointsTotal := None; grossTotal := 75; teamHandicap := 5 |};
    {| id := 2; scrambleMode := Scoring.champagne; netScore := None;
       pointsTotal := Some 40; grossTotal := 80; teamHandicap := 3 |};
    {| id := 3; scrambleMode := Scoring.straight; netScore := Some 68;
       pointsTotal := None; grossTotal := 72; teamHandicap := 4 |};
    {| id := 4; scrambleMode := Scoring.champagne; netScore := None;
       pointsTotal := Some 44; grossTotal := 78; teamHandicap := 2 |};
    {| id := 5; scrambleMode := Scoring.straight; netScore := Some 70;
       pointsTotal := None; grossTotal := 74; teamHandicap := 4 |} ].

End RankingSpec.

Module OcrSpec.

(** All the fields of an interpretation result but the team label. *)
Definition content (r : OCRResult) :=
  (playerNames r, playerHandicaps r, holeScores r, detectedHoleCount r, confidence r).

(** Every player has a row of scores, as long as the detected hole count. *)
Definition padded (r : OCRResult) : Prop :=
  length (holeScores r) = length (playerNames r)
  /\ Forall (fun row => Z.of_nat (length row) = detectedHoleCount r) (holeScores r).

(** Every player found stands on a line of the text. *)
Definition onLines (lines : list jsstring) (players : list Ocr.ParsedPlayer) : Prop :=
  Forall (fun p => (Ocr.lineIndex p < length lines)%nat) players.

(** What the pad-or-trim step makes of the scores found for a player. *)
Definition paddedOrTruncated (found : list Z) (holeCount : Z) (scores : list Z) : Prop :=
  Z.of_nat (length scores) = holeCount
  /\ (Z.of_nat (length found) <= holeCount ->
      scores = found ++ repeat 0 (Z.to_nat (holeCount - Z.of_nat (length found))))
  /\ (holeCount < Z.of_nat (length found) ->
      scores = firstn (Z.to_nat holeCount) found).

(** A result with another team label. *)
Definition withTeamName (r : OCRResult) (label : option jsstring) : OCRResult :=
  {| playerNames := playerNames r;
     playerHandicaps := playerHandicaps r;
     holeScores := holeScores r;
     detectedHoleCount := detectedHoleCount r;
     teamName := label;
     confidence := confidence r |}.

(** The result without players of the line-based interpreter. *)
Definition emptyResult (now : Z) : OCRResult :=
  {| playerNames := [];
     playerHandicaps := [];
     holeScores := [];
     detectedHoleCount := 0;
     teamName := generateTeamName now;
     confidence := 0.2%Q |}.

(** A card of two lines: a player and three scores. *)
Definition sampleText : jsstring := lit "Name JOHN" ++ [10%N] ++ lit "4 5 3".

(** A single token that is a number: a row without a player. *)
Definition loneNumber : list OcrBox.TextAnnotation :=
  [{| OcrBox.description := lit "12";
      OcrBox.boundingPoly := {| OcrBox.vertices := [{| OcrBox.x := 0; OcrBox.y := 0 |}] |} |}].

(** Header lines that print the hole numbers 1..16, 1..17 and 1..18. *)
Definition line16 : jsstring := lit "1 2 3 4 5 6 7 8 9 10 11 12 13 14 15 16".
Definition line17 : jsstring := lit "1 2 3 4 5 6 7 8 9 10 11 12 13 14 15 16 17".
Definition line18 : jsstring := lit "1 2 3 4 5 6 7 8 9 10 11 12 13 14 15 16 17 18".

(** The same headers as rows of tokens (their boxes play no part in the
    hole count). *)
Definition numberRow (n : nat) : list OcrBox.TextAnnotation :=
  map (fun k => {| OcrBox.description := numberToString (Runtime := asciiRuntime) (Z.of_nat k);
                   OcrBox.boundingPoly := {| OcrBox.vertices := [] |} |})
      (seq 1 n).

End OcrSpec.

Module ExtraSpec.

(** A hole score as the interpreters leave it: 0 (not recovered) or a
    plausible gross score. *)
Definition scoreValue (s : Z) : Prop := s = 0 \/ 2 <= s <= 12.

(** The English ordinal suffix of a rank. *)
Definition englishSuffix (n : Z) : jsstring :=
  if (n mod 100 =? 11) || (n mod 100 =? 12) || (n mod 100 =? 13) then lit "th"
  else if n mod 10 =? 1 then lit "st"
  else if n mod 10 =? 2 then lit "nd"
  else if n mod 10 =? 3 then lit "rd"
  else lit "th".

(** The ranking fields of a team record of the upload handler, with the
    identifier the store gives it. *)
Definition storedFields (key : Z) (t : UploadHandler.TeamRecord) : Ranking.TeamForRanking :=
  {| Ranking.id := key;
     Ranking.scrambleMode := UploadHandler.scrambleMode t;
     Ranking.netScore := UploadHandler.netScore t;
     Ranking.pointsTotal := UploadHandler.pointsTotal t;
     Ranking.grossTotal := UploadHandler.grossTotal t;
     Ranking.teamHandicap := UploadHandler.teamHandicap t |}.

(** The test that keeps token [b] in the row of the token [a] before it:
    their top edges are at most [tolerance] apart (or the top edge of [a] is
    the initial value -1000 of the loop variable). *)
Definition sameRow (tolerance : Z) (a b : OcrBox.TextAnnotation) : bool :=
  OcrBox.isSentinel (OcrBox.topY a)
  || OcrBox.within (OcrBox.topY b) (OcrBox.topY a) tolerance.

(** Every token of a row passes the test with the token before it. *)
Fixpoint chained (tolerance : Z) (row : list OcrBox.TextAnnotation) : Prop :=
  match row with
  | a :: rest =>
      match rest with
      | b :: _ => sameRow tolerance a b = true
      | [] => True
      end /\ chained tolerance rest
  | [] => True
  end.

Fixpoint lastOf {A} (l : list A) : option A :=
  match l with
  | [] => None
  | a :: rest =>
      match rest with
      | [] => Some a
      | _ :: _ => lastOf rest
      end
  end.

(** Rows as the grouping makes them: none is empty, each is chained, and
    the first token of a row fails the test with the last token of the row
    before. *)
Fixpoint grouped (tolerance : Z) (rows : list (list OcrBox.TextAnnotation)) : Prop :=
  match rows with
  | [] => True
  | row :: rest =>
      row <> [] /\ chained tolerance row
      /\ match rest with
         | next :: _ =>
             forall a b, lastOf row = Some a -> hd_error next = Some b ->
                         sameRow tolerance a b = false
         | [] => True
         end
      /\ grouped tolerance rest
  end.

(** A score taken from the block of a player: the number of a one- or
    two-digit token, from 2 to 12, on a line strictly between the player's
    line and the end of the block that carries none of the labels. *)
Definition fromBlock (allLines : list jsstring) (startIndex endIndex : nat) (s : Z) : Prop :=
  exists i line token,
    (startIndex < i < endIndex)%nat
    /\ nth_error allLines i = Some line
    /\ existsb (fun r => test r line) Ocr.nonScoreLabels = false
    /\ In token (matchAll reNumber line)
    /\ parseInt token = Some s
    /\ 2 <= s <= 12.

(** The lines of a card with a player and three scores. *)
Definition sampleLines : list jsstring := [lit "Name JOHN"; lit "4 5 3"].

Section Upload.
Context {json_rt : Json.Runtime}.

(** What the upload handler makes of an interpretation result: a failure
    when there is no player, otherwise a team record with the detected hole
    count, the team handicap of the recognised handicaps and the gross total
    of the first player's row. *)
Definition uploadOutcome (ocr : OCRResult) (res : result UploadHandler.TeamRecord) : Prop :=
  match playerNames ocr with
  | [] => res = Throw
  | _ :: _ =>
      exists t,
        res = Ok t
        /\ UploadHandler.holeCount t = detectedHoleCount ocr
        /\ 9 <= UploadHandler.holeCount t <= 18
        /\ UploadHandler.teamHandicap t = Scoring.calculateTeamHandicap (playerHandicaps ocr)
        /\ 0 <= UploadHandler.teamHandicap t <= 10 * Z.of_nat (length (playerNames ocr))
        /\ UploadHandler.grossTotal t = Spec.sumZ (hd [] (holeScores ocr))
        /\ 0 <= UploadHandler.grossTotal t <= 12 * UploadHandler.holeCount t
        /\ UploadHandler.playerHandicaps t
           = Json.stringify (Json.JArray (map Json.JNumber (playerHandicaps ocr)))
        /\ UploadHandler.holeScores t
           = Json.stringify
               (Json.JArray (map (fun row => Json.JArray (map Json.JNumber row))
                                 (holeScores ocr)))
  end.

End Upload.

(** A two-player team of the examples. *)
Definition pairTeam (first second : Scoring.PlayerScore) (holes : Z) : Scoring.TeamData :=
  {| Scoring.teamName := lit "T";
     Scoring.players := [first; second];
     Scoring.holeCount := holes;
     Scoring.scrambleMode := Scoring.champagne |}.

Definition playerA : Scoring.PlayerScore :=
  {| Scoring.name := lit "A"; Scoring.handicap := 5; Scoring.holeScores := [4; 5; 4] |}.
Definition playerB : Scoring.PlayerScore :=
  {| Scoring.name := lit "B"; Scoring.handicap := 15; Scoring.holeScores := [5; 4; 6] |}.

(** A player of handicap 0 none of whose three scores was recovered. *)
Definition blankPlayer : Scoring.PlayerScore :=
  {| Scoring.name := lit "PLAYER"; Scoring.handicap := 0; Scoring.holeScores := [0; 0; 0] |}.

End ExtraSpec.

(* ===================================================================== *)
(** * Properties of the pattern matcher *)
(* ===================================================================== *)

Module RegexProps.
Import RegexSpec.

(** With fuel above [mn + length rest] the quantifier gives the same answer
    whatever the fuel. *)
Lemma repeatMatch_fuel (m : (mstate -> option mstate) -> mstate -> option mstate) :
  forwardOnly m ->
  forall (n fuel1 fuel2 : nat) (k1 k2 : mstate -> option mstate)
         (mn : nat) (mx : option nat) (s : mstate),
    (mn + length (rest s) <= n)%nat ->
    (mn + length (rest s) < fuel1)%nat ->
    (mn + length (rest s) < fuel2)%nat ->
    (forall s', advances s s' -> k1 s' = k2 s') ->
    repeatMatch fuel1 m k1 mn mx s = repeatMatch fuel2 m k2 mn mx s.
Proof.
  intros Hm. induction n as [|n IH]; intros fuel1 fuel2 k1 k2 mn mx s Hn H1 H2 Hk;
    (destruct fuel1 as [|f1]; [lia|]); (destruct fuel2 as [|f2]; [lia|]);
    cbn [repeatMatch].
  all: assert (Hks : k1 s = k2 s) by (apply Hk; unfold advances; lia).
  all: assert (Hd : m (fun s' =>
                         if (mn =? 0)%nat && (length (rest s') =? length (rest s))%nat
                         then None
                         else repeatMatch f1 m k1 (Nat.pred mn) (option_map Nat.pred mx) s') s
                    = m (fun s' =>
                         if (mn =? 0)%nat && (length (rest s') =? length (rest s))%nat
                         then None
                         else repeatMatch f2 m k2 (Nat.pred mn) (option_map Nat.pred mx) s') s).
  1, 3: apply Hm; intros s' Hs'; unfold advances in Hs';
    destruct (Nat.eqb_spec mn 0) as [Hmn|Hmn];
    destruct (Nat.eqb_spec (length (rest s')) (length (rest s))) as [Hl|Hl];
    cbn [andb]; try reflexivity.
  - lia.
  - lia.
  - lia.
  - apply IH; try lia. intros s'' Hs''. apply Hk. unfold advances in *. lia.
  - apply IH; try lia. intros s'' Hs''. apply Hk. unfold advances in *. lia.
  - apply IH; try lia. intros s'' Hs''. apply Hk. unfold advances in *. lia.
  - destruct mx as [[|mx']|]; [exact Hks | |]; rewrite Hd, Hks; reflexivity.
  - destruct mx as [[|mx']|]; [exact Hks | |]; rewrite Hd, Hks; reflexivity.
Qed.

Lemma run_forwardOnly (r : regex) : forwardOnly (run r).
Proof.
  induction r as [|p|r1 IH1 r2 IH2|r1 IH1 r2 IH2|r1 IH1 mn mx| | | |i r1 IH1];
    intros k1 k2 s Hk; cbn [run].
  - apply Hk. unfold advances. lia.
  - destruct (rest s) as [|c t] eqn:Hr; [reflexivity|].
    destruct (p c); [|reflexivity]. apply Hk. unfold advances. rewrite Hr. simpl. lia.
  - apply IH1. intros s' Hs'. apply IH2. intros s'' Hs''. apply Hk.
    unfold advances in *. lia.
  - rewrite (IH1 k1 k2 s Hk), (IH2 k1 k2 s Hk). reflexivity.
  - apply (repeatMatch_fuel (run r1) IH1 (mn + length (rest s))); try lia. exact Hk.
  - rewrite (Hk s); [reflexivity | unfold advances; lia].
  - rewrite (Hk s); [reflexivity | unfold advances; lia].
  - rewrite (Hk s); [reflexivity | unfold advances; lia].
  - apply IH1. intros s' Hs'. apply Hk. exact Hs'.
Qed.

(** The fuel of a quantifier is enough: more of it changes nothing. *)
Lemma quantifier_fuel_enough (r : regex) (k : mstate -> option mstate)
      (mn : nat) (mx : option nat) (s : mstate) (more : nat) :
  repeatMatch (S (mn + length (rest s)) + more) (run r) k mn mx s
  = run (Rep r mn mx) k s.
Proof.
  cbn [run].
  apply (repeatMatch_fuel (run r) (run_forwardOnly r) (mn + length (rest s))); try lia.
  reflexivity.
Qed.

End RegexProps.

(* ===================================================================== *)
(** * Properties of the scoring engine *)
(* ===================================================================== *)

Module ScoringProps.
Import Scoring Spec.

Lemma fold_left_add_sum (l : list Z) (a : Z) :
  fold_left (fun acc h => acc + h) l a = a + sumZ l.
Proof.
  revert a; induction l as [|h t IH]; intros a; simpl.
  - lia.
  - rewrite IH. lia.
Qed.

Lemma calculateGrossTotal_sum (l : list Z) : calculateGrossTotal l = sumZ l.
Proof. unfold calculateGrossTotal. rewrite fold_left_add_sum. lia. Qed.

Lemma calculateTeamHandicap_formula (l : list Z) :
  calculateTeamHandicap l = (sumZ l + 5) / 10.
Proof.
  unfold calculateTeamHandicap, roundTenth. rewrite fold_left_add_sum. reflexivity.
Qed.

Lemma roundTenth_nearest (s : Z) : nearestToTenth s (roundTenth s).
Proof.
  unfold nearestToTenth, roundTenth.
  pose proof (Z.div_mod (s + 5) 10 ltac:(lia)) as Hdm.
  pose proof (Z.mod_pos_bound (s + 5) 10 ltac:(lia)) as Hb.
  lia.
Qed.

(** ** Stableford points *)

Lemma netScoreToStableford_range (n : option Z) (par : Z) :
  0 <= netScoreToStableford n par <= 6.
Proof.
  unfold netScoreToStableford. destruct n as [n|]; [|lia].
  repeat match goal with
         | |- context [if ?c then _ else _] => destruct c
         end; lia.
Qed.

Lemma playerPoints_nonneg (hc h : Z) (p : PlayerScore) : 0 <= playerPoints hc h p.
Proof. unfold playerPoints. apply netScoreToStableford_range. Qed.

(** The running maximum of the inner loop. *)
Lemma best_fold (f : PlayerScore -> Z) (l : list PlayerScore) (b : Z) :
  let m := fold_left (fun best p => if f p >? best then f p else best) l b in
  b <= m /\ Forall (fun p => f p <= m) l /\ (m = b \/ In m (map f l)).
Proof.
  revert b; induction l as [|p t IH]; intros b; simpl.
  - repeat split; [lia | constructor | now left].
  - destruct (Z.gtb_spec (f p) b) as [Hgt|Hle].
    + destruct (IH (f p)) as (H1 & H2 & H3). repeat split.
      * lia.
      * constructor; [exact H1 | exact H2].
      * right. destruct H3 as [-> | H3]; [now left | now right].
    + destruct (IH b) as (H1 & H2 & H3). repeat split.
      * exact H1.
      * constructor; [lia | exact H2].
      * destruct H3 as [H3 | H3]; [now left | right; now right].
Qed.

Lemma bestPointsOnHole_max (ps : list PlayerScore) (hc h : Z) :
  ps <> [] ->
  isMaximumOf (map (playerPoints hc h) ps) (bestPointsOnHole ps hc h).
Proof.
  intros Hne. unfold bestPointsOnHole, isMaximumOf.
  pose proof (best_fold (playerPoints hc h) ps 0) as Hb. cbv zeta in Hb.
  destruct Hb as (H1 & H2 & H3).
  split.
  - destruct H3 as [H3 | H3]; [|exact H3].
    destruct ps as [|p t]; [congruence|].
    inversion H2 as [|? ? Hp Ht]; subst.
    pose proof (playerPoints_nonneg hc h p) as Hp0.
    left. rewrite H3 in *. lia.
  - rewrite Forall_map. exact H2.
Qed.

(** The outer loop adds the best points of the holes it visits. *)
Lemma hole_loop_total {rt : Runtime} (ps : list PlayerScore) (hc : Z) (hs : list Z)
      (acc : Z) (bd : list jsstring) :
  fst (fold_left
         (fun '(teamPointsTotal, holeBreakdown) holeNum =>
            let bestPoints := bestPointsOnHole ps hc holeNum in
            (teamPointsTotal + bestPoints,
             holeBreakdown ++ [lit "H" ++ numberToString holeNum ++ lit ": "
                               ++ numberToString bestPoints ++ lit "pts"]))
         hs (acc, bd))
  = acc + sumZ (map (bestPointsOnHole ps hc) hs).
Proof.
  revert acc bd; induction hs as [|h t IH]; intros acc bd; simpl.
  - lia.
  - rewrite IH. lia.
Qed.

Lemma holeNumbers_spec (hc h : Z) : In h (holeNumbers hc) <-> 1 <= h <= hc.
Proof.
  unfold holeNumbers. rewrite in_map_iff. split.
  - intros (n & <- & Hn). apply in_seq in Hn. lia.
  - intros Hh. exists (Z.to_nat h). split; [lia|]. apply in_seq. lia.
Qed.

(** The two players of the scenario on hole 1 of an 18-hole card. *)
Lemma best_ball_hole_1 (p1 p2 : PlayerScore) :
  handicap p1 = 5 -> index (holeScores p1) 0 = Some 4 ->
  handicap p2 = 15 -> index (holeScores p2) 0 = Some 5 ->
  getStrokeIndex 1 18 = Some 10
  /\ getHoleHandicapStrokes (handicap p1) 1 18 = 0
  /\ playerPoints 18 1 p1 = 2
  /\ getHoleHandicapStrokes (handicap p2) 1 18 = 1
  /\ playerPoints 18 1 p2 = 2
  /\ bestPointsOnHole [p1; p2] 18 1 = 2.
Proof.
  intros H1 G1 H2 G2.
  unfold bestPointsOnHole, playerPoints. cbn [fold_left].
  rewrite H1, H2. replace (1 - 1) with 0 by reflexivity. rewrite G1, G2.
  repeat split; reflexivity.
Qed.

(** A team without players: reading [players[0].holeScores] throws. *)
Lemma no_players_throws {rt : Runtime} (team : TeamData) :
  players team = [] ->
  calculateStraightScramble team = Throw /\ calculateChampagneScramble team = Throw.
Proof.
  intros Hps. unfold calculateStraightScramble, calculateChampagneScramble.
  rewrite Hps. split; reflexivity.
Qed.

(** ** The claims on the scoring engine *)

(** C1. Points (champagne) format: on every hole the team's points are the
    maximum of the players' Stableford points on that hole, and the points
    total is the sum of these maxima over the holes 1..holeCount. On hole 1
    of 18 (stroke index 10) a player of handicap 5 with gross 4 gets no
    stroke and 2 points, a player of handicap 15 with gross 5 gets one
    stroke and 2 points, and their team's points on the hole are 2. *)
Theorem champagne_best_ball {rt : Runtime} (team : TeamData)
    (first : PlayerScore) (others : list PlayerScore) :
  players team = first :: others ->
  exists r,
    calculateChampagneScramble team = Ok r
    /\ (forall holeNum,
          isMaximumOf (map (playerPoints (holeCount team) holeNum) (players team))
                      (bestPointsOnHole (players team) (holeCount team) holeNum))
    /\ (forall holeNum, In holeNum (holeNumbers (holeCount team))
                        <-> 1 <= holeNum <= holeCount team)
    /\ pointsTotal r
        = Some (sumZ (map (bestPointsOnHole (players team) (holeCount team))
                          (holeNumbers (holeCount team))))
    /\ (forall p1 p2 : PlayerScore,
          handicap p1 = 5 -> index (holeScores p1) 0 = Some 4 ->
          handicap p2 = 15 -> index (holeScores p2) 0 = Some 5 ->
          getStrokeIndex 1 18 = Some 10
          /\ getHoleHandicapStrokes (handicap p1) 1 18 = 0
          /\ playerPoints 18 1 p1 = 2
          /\ getHoleHandicapStrokes (handicap p2) 1 18 = 1
          /\ playerPoints 18 1 p2 = 2
          /\ bestPointsOnHole [p1; p2] 18 1 = 2).
Proof.
  intros Hps.
  unfold calculateChampagneScramble. rewrite Hps. cbn [index Z.ltb Z.compare Z.to_nat nth_error].
  match goal with
  | |- context [fold_left ?f ?l ?a] =>
      assert (Hloop : fst (fold_left f l a)
                      = 0 + sumZ (map (bestPointsOnHole (first :: others) (holeCount team)) l))
        by apply hole_loop_total;
      destruct (fold_left f l a) as [total bd]
  end.
  cbn [fst] in Hloop.
  eexists. split; [reflexivity|]. cbn [pointsTotal].
  split; [|split; [|split]].
  - intros h. apply bestPointsOnHole_max. discriminate.
  - intros h. apply holeNumbers_spec.
  - rewrite Hloop. f_equal.
  - exact best_ball_hole_1.
Qed.

(** A team of two on an 18-hole card, as in the scenario of C1. *)
Lemma champagne_best_ball_witness :
  exists r,
    calculateChampagneScramble (rt := asciiRuntime)
      {| teamName := lit "DOWN";
         players := [{| name := lit "A"; handicap := 5; holeScores := [4; 5; 4] |};
                     {| name := lit "B"; handicap := 15; holeScores := [5; 4; 6] |}];
         holeCount := 18;
         scrambleMode := champagne |} = Ok r
    /\ pointsTotal r = Some 7.
Proof.
  destruct (champagne_best_ball (rt := asciiRuntime)
              {| teamName := lit "DOWN";
                 players := [{| name := lit "A"; handicap := 5; holeScores := [4; 5; 4] |};
                             {| name := lit "B"; handicap := 15; holeScores := [5; 4; 6] |}];
                 holeCount := 18;
                 scrambleMode := champagne |}
              {| name := lit "A"; handicap := 5; holeScores := [4; 5; 4] |}
              [{| name := lit "B"; handicap := 15; holeScores := [5; 4; 6] |}]
              eq_refl) as (r & Hr & _ & _ & Ht & _).
  exists r. split; [exact Hr | rewrite Ht; vm_compute; reflexivity].
Defined.

(** C2. Straight format, for a team with a first player: the team handicap
    is the sum of the players' handicaps times 0.10 rounded to the nearest
    integer, the gross total is the sum of the first player's scores, and the
    net score is the gross total minus the team handicap. Handicaps
    [8,12,6] give a team handicap of 3, and with first-player scores that
    sum to 75 the gross total is 75 and the net score 72. *)
Theorem straight_scramble_result {rt : Runtime} (team : TeamData)
    (first : PlayerScore) (others : list PlayerScore) :
  players team = first :: others ->
  exists r,
    calculateStraightScramble team = Ok r
    /\ nearestToTenth (sumZ (map handicap (players team))) (teamHandicap r)
    /\ grossTotal r = sumZ (holeScores first)
    /\ netScore r = Some (grossTotal r - teamHandicap r)
    /\ (map handicap (players team) = [8; 12; 6] -> teamHandicap r = 3)
    /\ (map handicap (players team) = [8; 12; 6] ->
        sumZ (holeScores first) = 75 ->
        grossTotal r = 75 /\ netScore r = Some 72).
Proof.
  intros Hps.
  unfold calculateStraightScramble. rewrite Hps.
  cbn [index Z.ltb Z.compare Z.to_nat nth_error].
  eexists. split; [reflexivity|].
  cbn [teamHandicap grossTotal netScore].
  rewrite calculateGrossTotal_sum, calculateTeamHandicap_formula.
  split; [|split; [|split; [|split]]].
  - apply roundTenth_nearest.
  - reflexivity.
  - reflexivity.
  - intros Hh. rewrite Hh. reflexivity.
  - intros Hh Hg. rewrite Hh, Hg. split; reflexivity.
Qed.

(** Three players with handicaps 8, 12 and 6, the first with 75 strokes. *)
Lemma straight_scramble_result_witness :
  exists r,
    calculateStraightScramble (rt := asciiRuntime)
      {| teamName := lit "CORK";
         players := [{| name := lit "A"; handicap := 8;
                        holeScores := [4; 4; 4; 4; 4; 4; 4; 4; 4; 4; 4; 4; 4; 4; 4; 5; 5; 5] |};
                     {| name := lit "B"; handicap := 12; holeScores := [] |};
                     {| name := lit "C"; handicap := 6; holeScores := [] |}];
         holeCount := 18;
         scrambleMode := straight |} = Ok r
    /\ teamHandicap r = 3 /\ grossTotal r = 75 /\ netScore r = Some 72.
Proof.
  destruct (straight_scramble_result (rt := asciiRuntime)
              {| teamName := lit "CORK";
                 players := [{| name := lit "A"; handicap := 8;
                                holeScores := [4; 4; 4; 4; 4; 4; 4; 4; 4; 4; 4; 4; 4; 4; 4; 5; 5; 5] |};
                             {| name := lit "B"; handicap := 12; holeScores := [] |};
                             {| name := lit "C"; handicap := 6; holeScores := [] |}];
                 holeCount := 18;
                 scrambleMode := straight |}
              {| name := lit "A"; handicap := 8;
                 holeScores := [4; 4; 4; 4; 4; 4; 4; 4; 4; 4; 4; 4; 4; 4; 4; 5; 5; 5] |}
              [{| name := lit "B"; handicap := 12; holeScores := [] |};
               {| name := lit "C"; handicap := 6; holeScores := [] |}]
              eq_refl) as (r & Hr & _ & _ & _ & Hh & Hg).
  exists r. split; [exact Hr|].
  split; [exact (Hh eq_refl)|]. exact (Hg eq_refl eq_refl).
Defined.

(** C6. The stroke allocation never grants 2 strokes: the test
    [playerHandicap >= strokeIndex] is made first and already holds whenever
    [playerHandicap >= strokeIndex + 18] does. A handicap of 30 on the
    stroke-index-1 hole (hole 11 of 18) gets 1 stroke. *)
Theorem handicap_strokes_never_two (playerHandicap holeNumber totalHoles : Z) :
  getStrokeIndex 11 18 = Some 1
  /\ getHoleHandicapStrokes 30 11 18 = 1
  /\ getHoleHandicapStrokes playerHandicap holeNumber totalHoles <> 2
  /\ (forall strokeIndex, getStrokeIndex holeNumber totalHoles = Some strokeIndex ->
        getHoleHandicapStrokes playerHandicap holeNumber totalHoles
        = if playerHandicap >=? strokeIndex then 1 else 0).
Proof.
  split; [reflexivity|]. split; [reflexivity|].
  unfold getHoleHandicapStrokes.
  destruct (getStrokeIndex holeNumber totalHoles) as [si|].
  - split.
    + destruct (Z.geb_spec playerHandicap si); [lia|].
      destruct (Z.geb_spec playerHandicap (si + 18)); lia.
    + intros si' [= <-].
      destruct (Z.geb_spec playerHandicap si); [reflexivity|].
      destruct (Z.geb_spec playerHandicap (si + 18)); [lia | reflexivity].
  - split; [lia | discriminate].
Qed.

(** C10. A net score more than 4 under the assumed par of 4 (net <= -1)
    earns 0 points, as a double bogey does, not 6 or more; so the points are
    not monotone in the net score, in either direction, and this shows at
    [calculateChampagneScramble]: a hole in -1 strokes scores less than a
    hole in 0 strokes, which scores more than a hole in 4. *)
Theorem stableford_far_under_par {rt : Runtime} (net : Z) :
  net <= -1 ->
  netScoreToStableford (Some net) defaultPar = 0
  /\ netScoreToStableford (Some net) defaultPar
     = netScoreToStableford (Some (defaultPar + 2)) defaultPar
  /\ netScoreToStableford (Some net) defaultPar
     < netScoreToStableford (Some 0) defaultPar
  /\ ~ (forall a b, a <= b ->
          netScoreToStableford (Some b) defaultPar
          <= netScoreToStableford (Some a) defaultPar)
  /\ ~ (forall a b, a <= b ->
          netScoreToStableford (Some a) defaultPar
          <= netScoreToStableford (Some b) defaultPar)
  /\ pointsOf (calculateChampagneScramble (oneHoleTeam (-1))) = Some 0
  /\ pointsOf (calculateChampagneScramble (oneHoleTeam 0)) = Some 6
  /\ pointsOf (calculateChampagneScramble (oneHoleTeam 4)) = Some 2.
Proof.
  intros Hnet.
  assert (H0 : netScoreToStableford (Some net) defaultPar = 0).
  { unfold netScoreToStableford, defaultPar.
    repeat match goal with
           | |- context [Z.geb ?x ?y] => destruct (Z.geb_spec x y); try lia
           | |- context [Z.eqb ?x ?y] => destruct (Z.eqb_spec x y); try lia
           end. }
  split; [exact H0|]. rewrite H0.
  split; [reflexivity|]. split; [reflexivity|].
  split.
  { intros Hmono. specialize (Hmono (-1) 0 ltac:(lia)). vm_compute in Hmono.
    apply Hmono. reflexivity. }
  split.
  { intros Hmono. specialize (Hmono 0 4 ltac:(lia)). vm_compute in Hmono.
    apply Hmono. reflexivity. }
  repeat split; reflexivity.
Qed.

(** A net score of -1: gross 0 (an unrecovered score) less one stroke. *)
Lemma stableford_far_under_par_witness :
  netScoreToStableford (Some (-1)) defaultPar = 0.
Proof.
  exact (proj1 (stableford_far_under_par (rt := asciiRuntime) (-1) ltac:(lia))).
Defined.

End ScoringProps.

(* ===================================================================== *)
(** * Properties of the ranking engine *)
(* ===================================================================== *)

Module RankingProps.
Import Ranking RankingSpec.

(** ** Tie-break *)

(** Case analysis on every integer comparison of the goal. *)
Ltac split_comparisons :=
  repeat match goal with
         | |- context [Z.eqb ?x ?y] => destruct (Z.eqb_spec x y)
         | |- context [Z.ltb ?x ?y] => destruct (Z.ltb_spec x y)
         | |- context [Z.leb ?x ?y] => destruct (Z.leb_spec x y)
         end; simpl.

Lemma breakTie_opp (a b : TeamForRanking) : breakTie a b = - breakTie b a.
Proof. unfold breakTie. split_comparisons; lia. Qed.

Lemma breakTie_zero (a b : TeamForRanking) :
  breakTie a b = 0 <->
  grossTotal a = grossTotal b /\ teamHandicap a = teamHandicap b.
Proof. unfold breakTie. split_comparisons; lia. Qed.

Lemma breakTie_le (a b : TeamForRanking) : breakTie a b <= 0 <-> tieBreakOrder a b.
Proof. unfold breakTie, tieBreakOrder. split_comparisons; lia. Qed.

(** ** The sort *)

Section SortFacts.
Context {A : Type} (cmp : A -> A -> Z) (R : A -> A -> Prop) (P : A -> Prop).

Lemma insert_perm (x : A) (l : list A) : Permutation (insert cmp x l) (x :: l).
Proof.
  induction l as [|y ys IH]; simpl.
  - apply Permutation_refl.
  - destruct (cmp x y <=? 0).
    + apply Permutation_refl.
    + rewrite IH. apply perm_swap.
Qed.

Lemma sort_perm (l : list A) : Permutation (sort cmp l) l.
Proof.
  induction l as [|x xs IH]; simpl.
  - apply Permutation_refl.
  - rewrite insert_perm. now apply perm_skip.
Qed.

Lemma sort_length (l : list A) : length (sort cmp l) = length l.
Proof. apply Permutation_length, sort_perm. Qed.

Hypothesis R_of_le : forall a b, P a -> P b -> cmp a b <= 0 -> R a b.
Hypothesis R_of_gt : forall a b, P a -> P b -> 0 < cmp a b -> R b a.
Hypothesis R_trans : forall a b c, R a b -> R b c -> R a c.

Lemma insert_sorted (x : A) (l : list A) :
  P x -> Forall P l -> StronglySorted R l -> StronglySorted R (insert cmp x l).
Proof.
  intros Px. induction l as [|y ys IH]; intros HP Hs; simpl.
  - repeat constructor.
  - inversion HP as [|? ? Py Pys]; subst.
    inversion Hs as [|? ? Hys Hy]; subst.
    destruct (Z.leb_spec (cmp x y) 0) as [Hle|Hgt].
    + constructor; [exact Hs|].
      constructor; [now apply R_of_le|].
      eapply Forall_impl; [|exact Hy].
      intros z Hz. apply R_trans with y; [now apply R_of_le | exact Hz].
    + constructor; [now apply IH|].
      apply (Permutation_Forall (Permutation_sym (insert_perm x ys))).
      constructor; [now apply R_of_gt | exact Hy].
Qed.

Lemma sort_sorted (l : list A) : Forall P l -> StronglySorted R (sort cmp l).
Proof.
  induction l as [|x xs IH]; intros HP; simpl.
  - constructor.
  - inversion HP; subst. apply insert_sorted; auto.
    apply (Permutation_Forall (Permutation_sym (sort_perm xs))). assumption.
Qed.
Hypothesis cmp_refl : forall a, P a -> cmp a a = 0.
Hypothesis cmp_tied : forall z a b, P z -> P a -> P b ->
  cmp z a = 0 -> cmp z b = 0 -> cmp a b = 0.
Hypothesis R_both : forall a b, P a -> P b -> R a b -> R b a -> cmp a b = 0.

Lemma insert_tied (z x : A) (l : list A) :
  P z -> P x -> Forall P l ->
  tiedWith cmp z (insert cmp x l) = tiedWith cmp z (x :: l).
Proof.
  intros Pz Px. induction l as [|y ys IH]; intros HP; [reflexivity|].
  inversion HP as [|? ? Py Pys]; subst. cbn [insert].
  destruct (Z.leb_spec (cmp x y) 0) as [Hle|Hgt]; [reflexivity|].
  unfold tiedWith in *. cbn [filter]. rewrite (IH Pys). cbn [filter].
  destruct (Z.eqb_spec (cmp z y) 0) as [Hy|Hy];
    destruct (Z.eqb_spec (cmp z x) 0) as [Hx|Hx]; try reflexivity.
  pose proof (cmp_tied z x y Pz Px Py Hx Hy). lia.
Qed.

Lemma sort_tied (z : A) (l : list A) :
  P z -> Forall P l -> tiedWith cmp z (sort cmp l) = tiedWith cmp z l.
Proof.
  intros Pz. induction l as [|x xs IH]; intros HP; [reflexivity|].
  inversion HP as [|? ? Px Pxs]; subst. cbn [sort].
  rewrite insert_tied; auto.
  - unfold tiedWith in *. cbn [filter]. now rewrite (IH Pxs).
  - apply (Permutation_Forall (Permutation_sym (sort_perm xs))). assumption.
Qed.

Lemma sort_stableSortOf (l : list A) :
  Forall P l -> stableSortOf cmp R P l (sort cmp l).
Proof.
  intros HP. split; [apply sort_perm|]. split; [now apply sort_sorted|].
  intros z Pz. now apply sort_tied.
Qed.

(** Two sorted lists with the same elements and the same order among tied
    elements are equal. *)
Lemma sorted_tied_unique (l1 l2 : list A) :
  Forall P l1 -> Permutation l1 l2 ->
  StronglySorted R l1 -> StronglySorted R l2 ->
  (forall z, P z -> tiedWith cmp z l1 = tiedWith cmp z l2) ->
  l1 = l2.
Proof.
  revert l2. induction l1 as [|a t1 IH]; intros l2 HP Hperm Hs1 Hs2 Htied.
  - apply Permutation_nil in Hperm. now subst.
  - destruct l2 as [|b t2];
      [apply Permutation_sym, Permutation_nil in Hperm; discriminate|].
    inversion HP as [|? ? Pa Pt1]; subst.
    inversion Hs1 as [|? ? Hs1' Ha]; subst.
    inversion Hs2 as [|? ? Hs2' Hb]; subst.
    assert (Pb : P b).
    { apply (Permutation_Forall Hperm) in HP. now inversion HP. }
    assert (Hab : a = b).
    { assert (Hin1 : In b (a :: t1))
        by (apply (Permutation_in b (Permutation_sym Hperm)); now left).
      assert (Hin2 : In a (b :: t2))
        by (apply (Permutation_in a Hperm); now left).
      destruct Hin1 as [E|Hin1]; [exact E|].
      destruct Hin2 as [E|Hin2]; [now symmetry|].
      rewrite Forall_forall in Ha, Hb.
      pose proof (R_both a b Pa Pb (Ha b Hin1) (Hb a Hin2)) as H0.
      specialize (Htied a Pa). unfold tiedWith in Htied. cbn [filter] in Htied.
      rewrite (cmp_refl a Pa), H0 in Htied. cbn in Htied. now injection Htied. }
    subst b. f_equal. apply IH; auto.
    + now apply Permutation_cons_inv in Hperm.
    + intros z Pz. specialize (Htied z Pz). unfold tiedWith in *. cbn [filter] in Htied.
      destruct (cmp z a =? 0); [now injection Htied | exact Htied].
Qed.

(** [sort] computes the one stable sort there is. *)
Lemma stable_sort_unique (l l' : list A) :
  Forall P l -> stableSortOf cmp R P l l' -> l' = sort cmp l.
Proof.
  intros HP (Hperm & Hsorted & Htied).
  destruct (sort_stableSortOf l HP) as (Hp & Hs & Ht).
  apply sorted_tied_unique; auto.
  - apply (Permutation_Forall (Permutation_sym Hperm)). exact HP.
  - rewrite Hperm. now apply Permutation_sym.
  - intros z Pz. rewrite (Htied z Pz). symmetry. now apply Ht.
Qed.

End SortFacts.

(** ** The two comparators *)

Lemma straightCompare_le (a b : TeamForRanking) :
  netScore a <> None -> netScore b <> None ->
  straightCompare a b <= 0 -> straightOrder a b.
Proof.
  unfold straightCompare, straightOrder, strictNe.
  destruct (netScore a) as [x|], (netScore b) as [y|]; try congruence.
  intros _ _. simpl. destruct (Z.eqb_spec x y) as [->|Hne]; simpl.
  - intros H. right. split; [reflexivity | now apply breakTie_le].
  - intros H. left. lia.
Qed.

Lemma straightCompare_gt (a b : TeamForRanking) :
  netScore a <> None -> netScore b <> None ->
  0 < straightCompare a b -> straightOrder b a.
Proof.
  unfold straightCompare, straightOrder, strictNe.
  destruct (netScore a) as [x|], (netScore b) as [y|]; try congruence.
  intros _ _. simpl. destruct (Z.eqb_spec x y) as [->|Hne]; simpl.
  - intros H. right. split; [reflexivity|].
    apply breakTie_le. rewrite breakTie_opp. lia.
  - intros H. left. lia.
Qed.

Lemma champagneCompare_le (a b : TeamForRanking) :
  pointsTotal a <> None -> pointsTotal b <> None ->
  champagneCompare a b <= 0 -> champagneOrder a b.
Proof.
  unfold champagneCompare, champagneOrder, strictNe.
  destruct (pointsTotal a) as [x|], (pointsTotal b) as [y|]; try congruence.
  intros _ _. simpl. destruct (Z.eqb_spec x y) as [->|Hne]; simpl.
  - intros H. right. split; [reflexivity | now apply breakTie_le].
  - intros H. left. lia.
Qed.

Lemma champagneCompare_gt (a b : TeamForRanking) :
  pointsTotal a <> None -> pointsTotal b <> None ->
  0 < champagneCompare a b -> champagneOrder b a.
Proof.
  unfold champagneCompare, champagneOrder, strictNe.
  destruct (pointsTotal a) as [x|], (pointsTotal b) as [y|]; try congruence.
  intros _ _. simpl. destruct (Z.eqb_spec x y) as [->|Hne]; simpl.
  - intros H. right. split; [reflexivity|].
    apply breakTie_le. rewrite breakTie_opp. lia.
  - intros H. left. lia.
Qed.

Lemma straightOrder_trans (a b c : TeamForRanking) :
  straightOrder a b -> straightOrder b c -> straightOrder a c.
Proof. unfold straightOrder, tieBreakOrder. lia. Qed.

Lemma champagneOrder_trans (a b c : TeamForRanking) :
  champagneOrder a b -> champagneOrder b c -> champagneOrder a c.
Proof. unfold champagneOrder, tieBreakOrder. lia. Qed.

Lemma straightCompare_refl (a : TeamForRanking) : straightCompare a a = 0.
Proof.
  unfold straightCompare, strictNe, breakTie.
  destruct (netScore a); rewrite ?Z.eqb_refl; reflexivity.
Qed.

Lemma champagneCompare_refl (a : TeamForRanking) : champagneCompare a a = 0.
Proof.
  unfold champagneCompare, strictNe, breakTie.
  destruct (pointsTotal a); rewrite ?Z.eqb_refl; reflexivity.
Qed.

Lemma straightCompare_zero (a b : TeamForRanking) :
  netScore a <> None -> netScore b <> None ->
  (straightCompare a b = 0 <->
   netScore a = netScore b /\ grossTotal a = grossTotal b
   /\ teamHandicap a = teamHandicap b).
Proof.
  unfold straightCompare, strictNe.
  destruct (netScore a) as [x|], (netScore b) as [y|]; try congruence.
  intros _ _. unfold orZero. destruct (Z.eqb_spec x y) as [->|Hne]; cbn [negb].
  - rewrite breakTie_zero. intuition.
  - split; [lia|]. intros ([= E] & _). congruence.
Qed.

Lemma champagneCompare_zero (a b : TeamForRanking) :
  pointsTotal a <> None -> pointsTotal b <> None ->
  (champagneCompare a b = 0 <->
   pointsTotal a = pointsTotal b /\ grossTotal a = grossTotal b
   /\ teamHandicap a = teamHandicap b).
Proof.
  unfold champagneCompare, strictNe.
  destruct (pointsTotal a) as [x|], (pointsTotal b) as [y|]; try congruence.
  intros _ _. unfold orZero. destruct (Z.eqb_spec x y) as [->|Hne]; cbn [negb].
  - rewrite breakTie_zero. intuition.
  - split; [lia|]. intros ([= E] & _). congruence.
Qed.

Lemma straightOrder_both (a b : TeamForRanking) :
  netScore a <> None -> netScore b <> None ->
  straightOrder a b -> straightOrder b a -> straightCompare a b = 0.
Proof.
  intros Ha Hb Hab Hba. apply straightCompare_zero; auto.
  unfold straightOrder, tieBreakOrder in *.
  destruct (netScore a) as [x|], (netScore b) as [y|]; try congruence.
  unfold orZero in *. assert (x = y) by lia. subst. repeat split; lia.
Qed.

Lemma champagneOrder_both (a b : TeamForRanking) :
  pointsTotal a <> None -> pointsTotal b <> None ->
  champagneOrder a b -> champagneOrder b a -> champagneCompare a b = 0.
Proof.
  intros Ha Hb Hab Hba. apply champagneCompare_zero; auto.
  unfold champagneOrder, tieBreakOrder in *.
  destruct (pointsTotal a) as [x|], (pointsTotal b) as [y|]; try congruence.
  unfold orZero in *. assert (x = y) by lia. subst. repeat split; lia.
Qed.

(** On teams that carry their metric the comparators are consistent, so the
    sorted order of a group is the one stable sort there is: the order any
    implementation of [Array.prototype.sort] produces. *)
Lemma straight_sort_unique (l l' : list TeamForRanking) :
  Forall (fun t => netScore t <> None) l ->
  stableSortOf straightCompare straightOrder (fun t => netScore t <> None) l l' ->
  l' = sort straightCompare l.
Proof.
  apply stable_sort_unique.
  - exact straightCompare_le.
  - exact straightCompare_gt.
  - exact straightOrder_trans.
  - intros a _. apply straightCompare_refl.
  - intros z a b Hz Ha Hb Hza Hzb.
    apply straightCompare_zero in Hza; auto. apply straightCompare_zero in Hzb; auto.
    apply straightCompare_zero; auto. intuition congruence.
  - exact straightOrder_both.
Qed.

Lemma champagne_sort_unique (l l' : list TeamForRanking) :
  Forall (fun t => pointsTotal t <> None) l ->
  stableSortOf champagneCompare champagneOrder (fun t => pointsTotal t <> None) l l' ->
  l' = sort champagneCompare l.
Proof.
  apply stable_sort_unique.
  - exact champagneCompare_le.
  - exact champagneCompare_gt.
  - exact champagneOrder_trans.
  - intros a _. apply champagneCompare_refl.
  - intros z a b Hz Ha Hb Hza Hzb.
    apply champagneCompare_zero in Hza; auto. apply champagneCompare_zero in Hzb; auto.
    apply champagneCompare_zero; auto. intuition congruence.
  - exact champagneOrder_both.
Qed.

(** ** Ranks by position *)

Lemma pushRanks_from (l : list TeamForRanking) (k : nat) :
  map (fun '(index, team) => {| teamId := id team; rank := index + 1 |})
      (withIndex (Z.of_nat k) l)
  = map (fun p => {| teamId := id (snd p); rank := Z.of_nat (fst p) |})
        (combine (seq (S k) (length l)) l).
Proof.
  revert k; induction l as [|t ts IH]; intros k; simpl.
  - reflexivity.
  - f_equal.
    + f_equal. lia.
    + replace (Z.of_nat k + 1) with (Z.of_nat (S k)) by lia. apply IH.
Qed.

Lemma pushRanks_ranksFromOne (l : list TeamForRanking) : pushRanks l = ranksFromOne l.
Proof. apply (pushRanks_from l 0). Qed.

Lemma ranksFromOne_length (l : list TeamForRanking) : length (ranksFromOne l) = length l.
Proof.
  unfold ranksFromOne. rewrite length_map, length_combine, length_seq. lia.
Qed.

Lemma ranks_of_combine (l : list TeamForRanking) (k : nat) :
  map rank (map (fun p => {| teamId := id (snd p); rank := Z.of_nat (fst p) |})
                (combine (seq k (length l)) l))
  = map Z.of_nat (seq k (length l)).
Proof.
  revert k; induction l as [|t ts IH]; intros k; simpl.
  - reflexivity.
  - f_equal. apply IH.
Qed.

Lemma ranksFromOne_ranks (l : list TeamForRanking) :
  map rank (ranksFromOne l) = map Z.of_nat (seq 1 (length l)).
Proof. apply ranks_of_combine. Qed.

Lemma rankTeams_unfold (teams : list TeamForRanking) :
  rankTeams teams
  = ranksFromOne (sort straightCompare (filter isStraight teams))
    ++ ranksFromOne (sort champagneCompare (filter isChampagne teams)).
Proof.
  unfold rankTeams. rewrite !pushRanks_ranksFromOne. reflexivity.
Qed.

Lemma metric_of_straight (teams : list TeamForRanking) :
  Forall hasMetric teams ->
  Forall (fun t => netScore t <> None) (filter isStraight teams).
Proof.
  intros H. apply Forall_forall. intros t Ht. apply filter_In in Ht as [Hin Hm].
  rewrite Forall_forall in H. specialize (H t Hin).
  unfold hasMetric in H. unfold isStraight in Hm.
  destruct (scrambleMode t); [exact H | discriminate].
Qed.

Lemma metric_of_champagne (teams : list TeamForRanking) :
  Forall hasMetric teams ->
  Forall (fun t => pointsTotal t <> None) (filter isChampagne teams).
Proof.
  intros H. apply Forall_forall. intros t Ht. apply filter_In in Ht as [Hin Hm].
  rewrite Forall_forall in H. specialize (H t Hin).
  unfold hasMetric in H. unfold isChampagne in Hm.
  destruct (scrambleMode t); [discriminate | exact H].
Qed.

(** C3. The ranking engine partitions the teams by format and ranks each
    group on its own: the straight teams sorted ascending by net score (the
    tie-break rule on exact ties) get the ranks 1..N by sorted position, the
    champagne teams sorted descending by points total (same tie-break) get
    the ranks 1..M, starting again at 1, and the ranks of one group do not
    depend on the members of the other group. The sorted order is stated for
    teams that carry the metric of their format; teams that tie on every
    key keep their input order. *)
Theorem rankTeams_groups (teams : list TeamForRanking) :
  exists straightSorted champagneSorted : list TeamForRanking,
    rankTeams teams = ranksFromOne straightSorted ++ ranksFromOne champagneSorted
    /\ Permutation straightSorted (filter isStraight teams)
    /\ Permutation champagneSorted (filter isChampagne teams)
    /\ (Forall hasMetric teams ->
        stableSortOf straightCompare straightOrder (fun t => netScore t <> None)
                     (filter isStraight teams) straightSorted
        /\ stableSortOf champagneCompare champagneOrder (fun t => pointsTotal t <> None)
                        (filter isChampagne teams) champagneSorted)
    /\ map rank (ranksFromOne straightSorted)
       = map Z.of_nat (seq 1 (length straightSorted))
    /\ map rank (ranksFromOne champagneSorted)
       = map Z.of_nat (seq 1 (length champagneSorted))
    /\ (forall teams', filter isStraight teams' = filter isStraight teams ->
          firstn (length straightSorted) (rankTeams teams')
          = ranksFromOne straightSorted)
    /\ (forall teams', filter isChampagne teams' = filter isChampagne teams ->
          skipn (length (filter isStraight teams')) (rankTeams teams')
          = ranksFromOne champagneSorted).
Proof.
  exists (sort straightCompare (filter isStraight teams)),
         (sort champagneCompare (filter isChampagne teams)).
  split; [apply rankTeams_unfold|].
  split; [apply sort_perm|].
  split; [apply sort_perm|].
  split.
  { intros Hm. split.
    - apply sort_stableSortOf.
      + exact straightCompare_le.
      + exact straightCompare_gt.
      + exact straightOrder_trans.
      + intros z a b Hz Ha Hb Hza Hzb.
        apply straightCompare_zero in Hza; auto. apply straightCompare_zero in Hzb; auto.
        apply straightCompare_zero; auto. intuition congruence.
      + now apply metric_of_straight.
    - apply sort_stableSortOf.
      + exact champagneCompare_le.
      + exact champagneCompare_gt.
      + exact champagneOrder_trans.
      + intros z a b Hz Ha Hb Hza Hzb.
        apply champagneCompare_zero in Hza; auto. apply champagneCompare_zero in Hzb; auto.
        apply champagneCompare_zero; auto. intuition congruence.
      + now apply metric_of_champagne. }
  split; [apply ranksFromOne_ranks|].
  split; [apply ranksFromOne_ranks|].
  split.
  - intros teams' Heq. rewrite rankTeams_unfold, Heq.
    rewrite <- (ranksFromOne_length (sort straightCompare (filter isStraight teams))).
    rewrite firstn_app, Nat.sub_diag, firstn_all. simpl. apply app_nil_r.
  - intros teams' Heq. rewrite rankTeams_unfold, Heq.
    rewrite <- (sort_length straightCompare (filter isStraight teams')).
    rewrite <- (ranksFromOne_length (sort straightCompare (filter isStraight teams'))).
    rewrite skipn_app, Nat.sub_diag, skipn_all. reflexivity.
Qed.

(** The mixed teams: ranks 1, 2, 3 for the straight group (the tie on net 70
    broken by the gross total), then 1, 2 for the champagne group. *)
Lemma rankTeams_groups_witness :
  rankTeams mixedTeams
  = [ {| teamId := 3; rank := 1 |}; {| teamId := 5; rank := 2 |};
      {| teamId := 1; rank := 3 |};
      {| teamId := 4; rank := 1 |}; {| teamId := 2; rank := 2 |} ]
  /\ exists straightSorted champagneSorted,
       rankTeams mixedTeams = ranksFromOne straightSorted ++ ranksFromOne champagneSorted
       /\ StronglySorted straightOrder straightSorted
       /\ StronglySorted champagneOrder champagneSorted.
Proof.
  split; [reflexivity|].
  destruct (rankTeams_groups mixedTeams) as (s & c & Hranks & _ & _ & Hsorted & _).
  exists s, c. split; [exact Hranks|].
  assert (Hm : Forall hasMetric mixedTeams)
    by (repeat constructor; simpl; discriminate).
  destruct (Hsorted Hm) as ((_ & Hs & _) & (_ & Hc & _)).
  split; [exact Hs | exact Hc].
Defined.

(** C7. [breakTie] is antisymmetric: [breakTie A B = - breakTie B A] whenever
    the gross totals or the team handicaps differ (and otherwise too), and
    [breakTie A B = 0] exactly when the gross totals are equal and the team
    handicaps are equal. *)
Theorem breakTie_antisymmetric (A B : TeamForRanking) :
  (grossTotal A <> grossTotal B \/ teamHandicap A <> teamHandicap B ->
   breakTie A B = - breakTie B A)
  /\ breakTie A B = - breakTie B A
  /\ (breakTie A B = 0 <->
      grossTotal A = grossTotal B /\ teamHandicap A = teamHandicap B).
Proof.
  split; [intros _; apply breakTie_opp|].
  split; [apply breakTie_opp | apply breakTie_zero].
Qed.

End RankingProps.

(* ===================================================================== *)
(** * Properties of the interpreters *)
(* ===================================================================== *)

Module OcrProps.
Import OcrSpec.

(** ** Loops that cannot throw *)

Lemma forReturn_ok {A} (idxs : list nat) (body : nat -> result (option A)) :
  (forall i, In i idxs -> exists o, body i = Ok o) ->
  exists o, forReturn idxs body = Ok o.
Proof.
  induction idxs as [|i rest IH]; intros Hbody; simpl.
  - eexists; reflexivity.
  - destruct (Hbody i (or_introl eq_refl)) as [o Ho]. rewrite Ho. simpl.
    destruct o as [a|].
    + eexists; reflexivity.
    + apply IH. intros j Hj. apply Hbody. now right.
Qed.

Lemma forState_inv {S} (P : S -> Prop) (idxs : list nat) (body : nat -> S -> result S) :
  (forall i s, In i idxs -> P s -> exists s', body i s = Ok s' /\ P s') ->
  forall s, P s -> exists s', forState idxs body s = Ok s' /\ P s'.
Proof.
  induction idxs as [|i rest IH]; intros Hbody s Hs; simpl.
  - exists s. split; [reflexivity | exact Hs].
  - destruct (Hbody i s (or_introl eq_refl) Hs) as (s1 & H1 & P1). rewrite H1. simpl.
    apply IH; [|exact P1]. intros j s2 Hj. apply Hbody. now right.
Qed.

Lemma at_ok {A} (arr : list A) (i : nat) :
  (i < length arr)%nat -> exists a, at_ arr i = Ok a /\ nth_error arr i = Some a.
Proof.
  intros Hi. unfold at_.
  destruct (nth_error arr i) as [a|] eqn:E.
  - exists a. split; reflexivity.
  - apply nth_error_None in E. lia.
Qed.

(** ** The hole count *)

Lemma includes_In (l : list Z) (m : Z) : existsb (Z.eqb m) l = true <-> In m l.
Proof.
  rewrite existsb_exists. split.
  - intros (x & Hx & Heq). apply Z.eqb_eq in Heq. now subst.
  - intros Hin. exists m. split; [exact Hin | apply Z.eqb_refl].
Qed.

Lemma canonical_range (m : Z) : In m Ocr.canonicalCounts -> 9 <= m <= 18.
Proof. simpl. intuition lia. Qed.

Lemma inferHoleCountFrom_range (allLines : list jsstring) (bestGuess : Z) :
  9 <= bestGuess <= 18 -> 9 <= Ocr.inferHoleCountFrom allLines bestGuess <= 18.
Proof.
  revert bestGuess; induction allLines as [|line rest IH]; intros bg Hbg; cbn [Ocr.inferHoleCountFrom].
  - exact Hbg.
  - destruct (Ocr.qualifyingMax line) as [max|]; [|now apply IH].
    unfold Ocr.includes.
    destruct (existsb (Z.eqb max) Ocr.canonicalCounts) eqn:Hc.
    + apply canonical_range. now apply includes_In.
    + destruct ((max >=? 9) && (max <=? 18)) eqn:Hr.
      * apply IH. apply andb_true_iff in Hr as [H1 H2]. lia.
      * now apply IH.
Qed.

Lemma inferHoleCount_range (allLines : list jsstring) :
  9 <= Ocr.inferHoleCount allLines <= 18.
Proof. apply inferHoleCountFrom_range. lia. Qed.

Lemma detectHoleCount_range (rows : list (list OcrBox.TextAnnotation)) :
  9 <= OcrBox.detectHoleCount rows <= 18.
Proof.
  induction rows as [|row rest IH]; cbn [OcrBox.detectHoleCount].
  - lia.
  - destruct (OcrBox.qualifyingMax row) as [max|]; [|exact IH].
    destruct (existsb (Z.eqb max) OcrBox.canonicalCounts) eqn:Hc.
    + apply canonical_range. now apply includes_In.
    + destruct ((max >=? 9) && (max <=? 18)) eqn:Hr; [|exact IH].
      apply andb_true_iff in Hr as [H1 H2]. lia.
Qed.

Lemma inferHoleCountFrom_first_canonical
      (before : list jsstring) (line : jsstring) (after : list jsstring) (m : Z) :
  Ocr.qualifyingMax line = Some m ->
  In m Ocr.canonicalCounts ->
  (forall l m', In l before -> Ocr.qualifyingMax l = Some m' ->
                ~ In m' Ocr.canonicalCounts) ->
  forall bestGuess,
    Ocr.inferHoleCountFrom (before ++ line :: after) bestGuess = m.
Proof.
  intros Hq Hm. induction before as [|l rest IH]; intros Hbefore bg; cbn [Ocr.inferHoleCountFrom app].
  - rewrite Hq. unfold Ocr.includes.
    apply includes_In in Hm. rewrite Hm. reflexivity.
  - assert (Hrest : forall l0 m', In l0 rest -> Ocr.qualifyingMax l0 = Some m' ->
                                  ~ In m' Ocr.canonicalCounts)
      by (intros l0 m' Hin; apply Hbefore; now right).
    destruct (Ocr.qualifyingMax l) as [m'|] eqn:Hl; [|now apply IH].
    unfold Ocr.includes.
    destruct (existsb (Z.eqb m') Ocr.canonicalCounts) eqn:Hc.
    + exfalso. apply (Hbefore l m' (or_introl eq_refl) Hl). now apply includes_In.
    + destruct ((m' >=? 9) && (m' <=? 18)); now apply IH.
Qed.

Lemma detectHoleCount_first_in_range
      (before : list (list OcrBox.TextAnnotation)) (row : list OcrBox.TextAnnotation)
      (after : list (list OcrBox.TextAnnotation)) (m : Z) :
  OcrBox.qualifyingMax row = Some m ->
  9 <= m <= 18 ->
  (forall r m', In r before -> OcrBox.qualifyingMax r = Some m' -> ~ 9 <= m' <= 18) ->
  OcrBox.detectHoleCount (before ++ row :: after) = m.
Proof.
  intros Hq Hm. induction before as [|r rest IH]; intros Hbefore; cbn [OcrBox.detectHoleCount app].
  - rewrite Hq.
    destruct (existsb (Z.eqb m) OcrBox.canonicalCounts); [reflexivity|].
    destruct (Z.geb_spec m 9); [|lia]. destruct (Z.leb_spec m 18); [|lia]. reflexivity.
  - assert (Hrest : forall r0 m', In r0 rest -> OcrBox.qualifyingMax r0 = Some m' ->
                                  ~ 9 <= m' <= 18)
      by (intros r0 m' Hin; apply Hbefore; now right).
    destruct (OcrBox.qualifyingMax r) as [m'|] eqn:Hr; [|now apply IH].
    pose proof (Hbefore r m' (or_introl eq_refl) Hr) as Hout.
    destruct (existsb (Z.eqb m') OcrBox.canonicalCounts) eqn:Hc.
    + exfalso. apply Hout. apply canonical_range. now apply includes_In.
    + destruct (Z.geb_spec m' 9); destruct (Z.leb_spec m' 18); cbn [andb];
        try now apply IH. lia.
Qed.

(** C4, as the code has it. The line-based detector returns the maximum of
    the first qualifying line whose maximum is one of 9, 13, 16, 18, whenever
    there is such a line, whatever non-canonical maxima earlier qualifying
    lines had; the row-based detector returns the maximum of a qualifying row
    when no earlier qualifying row had a maximum in 9..18. So a later line
    with maximum 18 gives 18 after a line that suggested 17, while after a
    qualifying line with maximum exactly 16 the answer is 16: the first
    exact match ends the scan. *)
Theorem first_exact_hole_count_wins :
  (forall (before : list jsstring) (line : jsstring) (after : list jsstring) (m : Z),
      Ocr.qualifyingMax line = Some m ->
      In m Ocr.canonicalCounts ->
      (forall l m', In l before -> Ocr.qualifyingMax l = Some m' ->
                    ~ In m' Ocr.canonicalCounts) ->
      Ocr.inferHoleCount (before ++ line :: after) = m)
  /\ (forall (before : list (list OcrBox.TextAnnotation)) (row : list OcrBox.TextAnnotation)
             (after : list (list OcrBox.TextAnnotation)) (m : Z),
        OcrBox.qualifyingMax row = Some m ->
        In m OcrBox.canonicalCounts ->
        (forall r m', In r before -> OcrBox.qualifyingMax r = Some m' ->
                      ~ 9 <= m' <= 18) ->
        OcrBox.detectHoleCount (before ++ row :: after) = m)
  /\ Ocr.inferHoleCount [line17; line18] = 18
  /\ Ocr.inferHoleCount [line16; line18] = 16.
Proof.
  split; [|split; [|split]].
  - intros before line after m Hq Hm Hb.
    now apply inferHoleCountFrom_first_canonical.
  - intros before row after m Hq Hm Hb.
    apply detectHoleCount_first_in_range; auto. now apply canonical_range.
  - vm_compute. reflexivity.
  - vm_compute. reflexivity.
Qed.

(** A line that suggests 17, then the full header 1..18. *)
Lemma first_exact_hole_count_wins_witness :
  Ocr.inferHoleCount ([line17] ++ line18 :: []) = 18.
Proof.
  apply (proj1 first_exact_hole_count_wins [line17] line18 [] 18).
  - vm_compute. reflexivity.
  - simpl. tauto.
  - intros l m' [<- | []] Hq. vm_compute in Hq. injection Hq as <-.
    simpl. intuition discriminate.
Defined.

(** C4 as stated fails: a later row whose maximum is exactly 18 does not
    make the detectors return 18 when an earlier row suggested 16. *)
Lemma later_18_does_not_beat_16 :
  Ocr.qualifyingMax line16 = Some 16
  /\ Ocr.qualifyingMax line18 = Some 18
  /\ Ocr.inferHoleCount [line16; line18] = 16
  /\ Ocr.inferHoleCount [line16; line18] <> 18
  /\ OcrBox.qualifyingMax (numberRow 18) = Some 18
  /\ OcrBox.detectHoleCount [numberRow 16; numberRow 18] = 16.
Proof.
  repeat split; try (vm_compute; reflexivity).
  vm_compute. discriminate.
Qed.

(** The row-based detector also stops at a non-canonical maximum in 9..18:
    after a row that suggests 17 a row with maximum 18 is not looked at. *)
Lemma detectHoleCount_stops_at_17 :
  OcrBox.detectHoleCount [numberRow 17; numberRow 18] = 17.
Proof. vm_compute. reflexivity. Qed.

(** ** The line-based interpreter never throws *)

Section LineBased.
Context {rt : Runtime}.

Lemma handicapWindow_bound (lines : list jsstring) (c i : nat) :
  In i (Ocr.handicapWindow lines c) -> (i < length lines)%nat.
Proof. unfold Ocr.handicapWindow. intros H. apply in_seq in H. lia. Qed.

Lemma findHandicapNearLine_ok (lines : list jsstring) (c : nat) :
  exists n, Ocr.findHandicapNearLine lines c = Ok n.
Proof.
  unfold Ocr.findHandicapNearLine.
  match goal with
  | |- exists n, bind (forReturn ?w ?b) _ = _ =>
      destruct (forReturn_ok w b) as [o1 H1]
  end.
  { intros i Hi. apply handicapWindow_bound in Hi.
    destruct (at_ok lines i Hi) as (line & Hl & _). rewrite Hl. simpl.
    eexists; reflexivity. }
  rewrite H1. cbn [bind]. destruct o1 as [n|]; [eexists; reflexivity|].
  match goal with
  | |- exists n, bind (forReturn ?w ?b) _ = _ =>
      destruct (forReturn_ok w b) as [o2 H2]
  end.
  { intros i Hi.
    match goal with
    | |- exists o, (if ?c then _ else _) = _ => destruct c
    end; eexists; reflexivity. }
  rewrite H2. cbn [bind]. destruct o2 as [n|]; [eexists; reflexivity|].
  match goal with
  | |- exists n, bind (forReturn ?w ?b) _ = _ =>
      destruct (forReturn_ok w b) as [o3 H3]
  end.
  { intros i Hi. apply handicapWindow_bound in Hi.
    destruct (at_ok lines i Hi) as (line & Hl & _). rewrite Hl. simpl.
    eexists; reflexivity. }
  rewrite H3. cbn [bind]. destruct o3 as [n|]; eexists; reflexivity.
Qed.

Lemma scanLine_ok (lines : list jsstring) (i : nat) (players : list Ocr.ParsedPlayer) :
  (i < length lines)%nat -> onLines lines players ->
  exists players', Ocr.scanLine lines i players = Ok players' /\ onLines lines players'.
Proof.
  intros Hi Hps. unfold Ocr.scanLine.
  destruct (at_ok lines i Hi) as (line & _ & Hl). rewrite Hl. cbv zeta.
  destruct (negb (testU (reKeyword "Name") (Some line))).
  { exists players. split; [reflexivity | exact Hps]. }
  match goal with
  | |- context [(length ?n <? 2)%nat] => generalize n; intros rawName
  end.
  destruct (length rawName <? 2)%nat.
  { exists players. split; [reflexivity | exact Hps]. }
  destruct (existsb _ players).
  { exists players. split; [reflexivity | exact Hps]. }
  assert (Hpush : forall h, onLines lines
            (players ++ [{| Ocr.name := rawName; Ocr.handicap := h; Ocr.lineIndex := i |}])).
  { intros h. apply Forall_app. split; [exact Hps|]. constructor; [exact Hi | constructor]. }
  destruct (capturedInt (exec Ocr.reInline line) 1) as [n|].
  - cbn [bind]. eexists. split; [reflexivity | apply Hpush].
  - destruct (findHandicapNearLine_ok lines i) as [n Hn]. rewrite Hn. cbn [bind].
    eexists. split; [reflexivity | apply Hpush].
Qed.

Lemma findPlayers_ok (lines : list jsstring) :
  exists players, Ocr.findPlayers lines = Ok players /\ onLines lines players.
Proof.
  unfold Ocr.findPlayers.
  apply (forState_inv (onLines lines)).
  - intros i s Hin Hs. apply scanLine_ok; [|exact Hs]. apply in_seq in Hin. lia.
  - constructor.
Qed.

Lemma scanScoreLines_ok (allLines : list jsstring) (idxs : list nat) (targetHoles : Z)
      (scores : list Z) :
  (forall i, In i idxs -> (i < length allLines)%nat) ->
  exists found, Ocr.scanScoreLines allLines idxs targetHoles scores = Ok found.
Proof.
  revert scores; induction idxs as [|i rest IH]; intros scores Hin;
    cbn [Ocr.scanScoreLines].
  - eexists; reflexivity.
  - assert (Hrest : forall j, In j rest -> (j < length allLines)%nat)
      by (intros j Hj; apply Hin; now right).
    destruct (negb (Z.of_nat (length scores) <? targetHoles)); [eexists; reflexivity|].
    destruct (at_ok allLines i (Hin i (or_introl eq_refl))) as (line & _ & Hl).
    rewrite Hl. cbv zeta.
    destruct (existsb _ Ocr.nonScoreLabels); now apply IH.
Qed.

(** The padding and the truncation leave exactly [targetHoles] scores. *)
Lemma pad_or_trim_shape (found : list Z) (holeCount : Z) :
  0 <= holeCount ->
  paddedOrTruncated found holeCount
    (firstn (Z.to_nat holeCount)
            (found ++ repeat 0 (Z.to_nat (holeCount - Z.of_nat (length found))))).
Proof.
  intros Hh. unfold paddedOrTruncated. rewrite length_firstn, length_app, repeat_length.
  split; [lia|]. split; intros Hc.
  - apply firstn_all2. rewrite length_app, repeat_length. lia.
  - replace (Z.to_nat (holeCount - Z.of_nat (length found))) with 0%nat by lia.
    simpl. now rewrite app_nil_r.
Qed.

Lemma extractScoresForPlayer_ok (allLines : list jsstring) (startIndex endIndex : nat)
      (targetHoles : Z) :
  (endIndex <= length allLines)%nat -> 0 <= targetHoles ->
  exists found scores,
    Ocr.scanScoreLines allLines (seq (startIndex + 1) (endIndex - (startIndex + 1)))
                       targetHoles [] = Ok found
    /\ Ocr.extractScoresForPlayer allLines startIndex endIndex targetHoles = Ok scores
    /\ paddedOrTruncated found targetHoles scores.
Proof.
  intros Hend Ht. unfold Ocr.extractScoresForPlayer.
  destruct (scanScoreLines_ok allLines
              (seq (startIndex + 1) (endIndex - (startIndex + 1))) targetHoles [])
    as [found Hfound].
  { intros i Hi. apply in_seq in Hi. lia. }
  rewrite Hfound. cbn [bind]. cbv zeta. exists found.
  pose proof (pad_or_trim_shape found targetHoles Ht) as Hshape.
  set (padded := found ++ repeat 0 (Z.to_nat (targetHoles - Z.of_nat (length found)))) in *.
  assert (Hlen : length padded
                 = (length found + Z.to_nat (targetHoles - Z.of_nat (length found)))%nat).
  { unfold padded. rewrite length_app, repeat_length. reflexivity. }
  destruct (Z.gtb_spec (Z.of_nat (length padded)) targetHoles) as [Hgt|Hle].
  - destruct (Z.ltb_spec targetHoles 0) as [Hneg|_]; [lia|].
    eexists. split; [reflexivity|]. split; [reflexivity | exact Hshape].
  - eexists. split; [reflexivity|]. split; [reflexivity|].
    rewrite firstn_all2 in Hshape by lia. exact Hshape.
Qed.

Lemma collectScores_ok (lines : list jsstring) (players : list Ocr.ParsedPlayer)
      (holeCount : Z) :
  onLines lines players -> 0 <= holeCount ->
  exists rows,
    Ocr.collectScores lines players holeCount = Ok rows
    /\ length rows = length players
    /\ Forall (fun row => Z.of_nat (length row) = holeCount) rows.
Proof.
  intros Hps Hh. induction players as [|p rest IH]; cbn [Ocr.collectScores].
  - exists []. repeat split. constructor.
  - inversion Hps as [|? ? Hp Hrest]; subst.
    destruct (IH Hrest) as (rows & Hrows & Hlen & Hall).
    match goal with
    | |- context [Ocr.extractScoresForPlayer lines ?a ?b holeCount] =>
        destruct (extractScoresForPlayer_ok lines a b holeCount)
          as (found & scores & _ & Hs & Hl & _); [|exact Hh|]
    end.
    { destruct rest as [|q rest']; [lia|]. inversion Hrest; subst. lia. }
    rewrite Hs. cbn [bind]. rewrite Hrows. cbn [bind].
    exists (scores :: rows). split; [reflexivity|]. split.
    + simpl. now rewrite Hlen.
    + constructor; [exact Hl | exact Hall].
Qed.

(** The interpreter returns, and its result is padded. With no player the
    result is the fixed one. *)
Lemma parseScorecard_ok (now : Z) (text : jsstring) :
  exists r,
    Ocr.parseScorecard now text = Ok r
    /\ padded r
    /\ teamName r = generateTeamName now
    /\ (playerNames r = [] ->
        r = {| playerNames := []; playerHandicaps := []; holeScores := [];
               detectedHoleCount := 0; teamName := generateTeamName now;
               confidence := 0.2%Q |}).
Proof.
  unfold Ocr.parseScorecard. cbv zeta.
  destruct (findPlayers_ok (textLines text)) as (players & Hp & Hon).
  rewrite Hp. cbn [bind].
  destruct players as [|p ps].
  - cbn [length Nat.eqb]. eexists. split; [reflexivity|].
    split; [|split; [reflexivity | reflexivity]].
    split; [reflexivity | constructor].
  - cbn [length Nat.eqb].
    destruct (collectScores_ok (textLines text) (p :: ps)
                (Ocr.inferHoleCount (textLines text)) Hon) as (rows & Hrows & Hlen & Hall).
    { pose proof (inferHoleCount_range (textLines text)). lia. }
    rewrite Hrows. cbn [bind].
    eexists. split; [reflexivity|].
    split; [|split; [reflexivity | discriminate]].
    split; [| exact Hall].
    cbn [holeScores playerNames]. rewrite length_map. exact Hlen.
Qed.

End LineBased.

(** ** The row-based interpreter and its fallback never throw *)

Section RowBased.
Context {rt : Runtime}.

Lemma findIndex_bound {A} (p : A -> bool) (l : list A) (i : nat) :
  OcrBox.findIndex p l = Some i -> (i < length l)%nat.
Proof.
  revert i; induction l as [|a rest IH]; intros i; simpl.
  - discriminate.
  - destruct (p a).
    + intros [= <-]. lia.
    + destruct (OcrBox.findIndex p rest) as [j|]; [|discriminate].
      intros [= <-]. specialize (IH j eq_refl). lia.
Qed.

Lemma extractPlayer_ok (row : list OcrBox.TextAnnotation) :
  exists player, OcrBox.extractPlayer row = Ok player /\ OcrBox.row player = row.
Proof.
  unfold OcrBox.extractPlayer. cbv zeta.
  match goal with
  | |- context [OcrBox.findIndex ?p ?tokens] =>
      match p with
      | context [OcrBox.reHcapOnly] =>
          generalize tokens; intros tokens'; destruct (OcrBox.findIndex p tokens') as [hcapIdx|]
      end
  end.
  - destruct (Z.ltb_spec (Z.of_nat hcapIdx) (Z.of_nat (length tokens') - 1)) as [Hlt|Hge].
    + destruct (at_ok tokens' (hcapIdx + 1) ltac:(lia)) as (next & Hn & _).
      rewrite Hn. cbn [bind]. eexists. split; reflexivity.
    + cbn [bind]. eexists. split; reflexivity.
  - cbn [bind]. eexists. split; reflexivity.
Qed.

Lemma mapResult_extractPlayer_ok (rows : list (list OcrBox.TextAnnotation)) :
  exists players,
    OcrBox.mapResult OcrBox.extractPlayer rows = Ok players
    /\ map OcrBox.row players = rows.
Proof.
  induction rows as [|row rest IH]; cbn [OcrBox.mapResult].
  - exists []. split; reflexivity.
  - destruct (extractPlayer_ok row) as (p & Hp & Hrow). rewrite Hp. cbn [bind].
    destruct IH as (ps & Hps & Hrows). rewrite Hps. cbn [bind].
    exists (p :: ps). split; [reflexivity|]. simpl. now rewrite Hrow, Hrows.
Qed.

Lemma extractScoresFromRow_length (row : list OcrBox.TextAnnotation) (holeCount : Z) :
  0 <= holeCount ->
  Z.of_nat (length (OcrBox.extractScoresFromRow row holeCount)) = holeCount.
Proof.
  intros Hh. unfold OcrBox.extractScoresFromRow, OcrBox.slice0. cbv zeta.
  destruct (Z.ltb_spec holeCount 0) as [Hneg|_]; [lia|].
  rewrite length_firstn, length_app, repeat_length. lia.
Qed.

Lemma parseScorecardWithBoundingBoxes_ok (now : Z)
      (annotations : list OcrBox.TextAnnotation) (fullText : jsstring) :
  exists r,
    OcrBox.parseScorecardWithBoundingBoxes now annotations fullText = Ok r
    /\ padded r
    /\ teamName r = generateTeamName now
    /\ 9 <= detectedHoleCount r <= 18
    /\ (playerNames r = [] ->
        playerHandicaps r = [] /\ holeScores r = [] /\ confidence r = 0.4%Q).
Proof.
  unfold OcrBox.parseScorecardWithBoundingBoxes. cbv zeta.
  destruct (mapResult_extractPlayer_ok
              (OcrBox.findPlayerRows (OcrBox.groupByRows annotations 20)))
    as (players & Hp & _).
  rewrite Hp. cbn [bind].
  pose proof (detectHoleCount_range (OcrBox.groupByRows annotations 20)) as Hr.
  eexists. split; [reflexivity|].
  cbn [playerNames playerHandicaps holeScores detectedHoleCount teamName confidence].
  split; [|split; [reflexivity | split; [exact Hr|]]].
  - split.
    + cbn [playerNames holeScores]. now rewrite !length_map.
    + cbn [holeScores detectedHoleCount]. apply Forall_map, Forall_forall.
      intros p _. apply extractScoresFromRow_length. lia.
  - intros Hnil. apply map_eq_nil in Hnil. subst players. repeat split.
Qed.

Lemma fallback_scanLine_ok (lines : list jsstring) (i : nat)
      (players : list (jsstring * Z)) :
  exists players', OcrBox.scanLine lines i players = Ok players'.
Proof.
  unfold OcrBox.scanLine. cbv zeta.
  destruct (negb (testU (reKeyword "Name") (nth_error lines i)));
    [eexists; reflexivity|].
  match goal with
  | |- context [forReturn ?w ?b] => destruct (forReturn_ok w b) as [o Ho]
  end.
  { intros j Hj. apply in_seq in Hj.
    destruct (at_ok lines j ltac:(lia)) as (l & Hl & _). rewrite Hl. cbn [bind].
    eexists; reflexivity. }
  rewrite Ho. cbn [bind]. eexists; reflexivity.
Qed.

Lemma fallback_parseScorecard_ok (now : Z) (text : jsstring) :
  exists r,
    OcrBox.parseScorecard now text = Ok r
    /\ padded r
    /\ teamName r = generateTeamName now
    /\ detectedHoleCount r = 18
    /\ (playerNames r = [] ->
        playerHandicaps r = [] /\ holeScores r = [] /\ confidence r = 0.2%Q).
Proof.
  unfold OcrBox.parseScorecard. cbv zeta.
  destruct (forState_inv (fun _ => True) (seq 0 (length (textLines text)))
              (OcrBox.scanLine (textLines text))) with (s := @nil (jsstring * Z))
    as (players & Hp & _).
  { intros i s _ _. destruct (fallback_scanLine_ok (textLines text) i s) as [s' Hs'].
    exists s'. split; [exact Hs' | exact I]. }
  { exact I. }
  rewrite Hp. cbn [bind].
  eexists. split; [reflexivity|].
  cbn [playerNames playerHandicaps holeScores detectedHoleCount teamName confidence].
  split; [|split; [reflexivity | split; [reflexivity|]]].
  - split.
    + cbn [playerNames holeScores]. now rewrite !length_map.
    + cbn [holeScores detectedHoleCount]. apply Forall_map, Forall_forall.
      intros p _. rewrite repeat_length. reflexivity.
  - intros Hnil. apply map_eq_nil in Hnil. subst players. repeat split.
Qed.

End RowBased.

(** ** The claims on the interpreters *)

(** Only the team label of a result depends on the clock. *)
Lemma parseScorecard_clock {rt : Runtime} (now now' : Z) (text : jsstring) (r : OCRResult) :
  Ocr.parseScorecard now text = Ok r ->
  Ocr.parseScorecard now' text = Ok (withTeamName r (generateTeamName now')).
Proof.
  unfold Ocr.parseScorecard. cbv zeta.
  destruct (Ocr.findPlayers (textLines text)) as [players|]; cbn [bind]; [|discriminate].
  destruct (length players =? 0)%nat.
  - intros [= <-]. reflexivity.
  - destruct (Ocr.collectScores (textLines text) players
                (Ocr.inferHoleCount (textLines text))) as [rows|];
      cbn [bind]; [|discriminate].
    intros [= <-]. reflexivity.
Qed.

Lemma generateTeamName_index (now : Z) :
  generateTeamName now = index counties (Z.rem now 32).
Proof. reflexivity. Qed.

(** C5. Every interpretation pass (the line-based interpreter, the row-based
    one and its text fallback) returns a result in which each player has a
    row of scores whose length is the detected hole count, however many
    scores in range were found: the row is the scores found followed by
    zeros when they are too few, and the first [holeCount] of them when they
    are too many. *)
Theorem hole_scores_padded {rt : Runtime} (now : Z) (text : jsstring)
    (annotations : list OcrBox.TextAnnotation) (fullText : jsstring) :
  (exists r, Ocr.parseScorecard now text = Ok r /\ padded r)
  /\ (exists r, OcrBox.parseScorecardWithBoundingBoxes now annotations fullText = Ok r
                /\ padded r)
  /\ (exists r, OcrBox.parseScorecard now text = Ok r /\ padded r)
  /\ (forall (allLines : list jsstring) (startIndex endIndex : nat) (targetHoles : Z),
        (endIndex <= length allLines)%nat -> 0 <= targetHoles ->
        exists found scores,
          Ocr.scanScoreLines allLines
            (seq (startIndex + 1) (endIndex - (startIndex + 1))) targetHoles [] = Ok found
          /\ Ocr.extractScoresForPlayer allLines startIndex endIndex targetHoles = Ok scores
          /\ paddedOrTruncated found targetHoles scores)
  /\ (forall (row : list OcrBox.TextAnnotation) (holeCount : Z),
        0 <= holeCount ->
        paddedOrTruncated (OcrBox.rowNumbers 2 12 row) holeCount
                          (OcrBox.extractScoresFromRow row holeCount)).
Proof.
  split; [|split; [|split; [|split]]].
  - destruct (parseScorecard_ok now text) as (r & Hr & Hp & _). now exists r.
  - destruct (parseScorecardWithBoundingBoxes_ok now annotations fullText)
      as (r & Hr & Hp & _). now exists r.
  - destruct (fallback_parseScorecard_ok now text) as (r & Hr & Hp & _). now exists r.
  - intros. now apply extractScoresForPlayer_ok.
  - intros row holeCount Hh.
    unfold OcrBox.extractScoresFromRow, OcrBox.slice0. cbv zeta.
    destruct (Z.ltb_spec holeCount 0) as [Hneg|_]; [lia|].
    now apply pad_or_trim_shape.
Qed.

(** The sample card: one player, three scores found, fifteen zeros. *)
Lemma hole_scores_padded_witness :
  exists r,
    Ocr.parseScorecard (rt := asciiRuntime) 0 sampleText = Ok r
    /\ holeScores r = [[4; 5; 3; 0; 0; 0; 0; 0; 0; 0; 0; 0; 0; 0; 0; 0; 0; 0]]
    /\ padded r.
Proof.
  destruct (proj1 (hole_scores_padded (rt := asciiRuntime) 0 sampleText [] []))
    as (r & Hr & Hp).
  exists r. split; [exact Hr|]. split; [|exact Hp].
  vm_compute in Hr. injection Hr as <-. reflexivity.
Defined.

(** C8, as the code has it. No interpreter throws. When no player is
    recovered (as for the empty text) the line-based interpreter returns the
    result with no players, hole count 0 and confidence 0.2; the text
    fallback of the row-based variant returns no players with hole count 18
    and confidence 0.2, and the row-based interpreter returns no players
    with its detected hole count (in 9..18) and confidence 0.4. *)
Theorem zero_players_result {rt : Runtime} (now : Z) (text : jsstring)
    (annotations : list OcrBox.TextAnnotation) (fullText : jsstring) :
  (exists r, Ocr.parseScorecard now text = Ok r
             /\ (playerNames r = [] -> r = emptyResult now))
  /\ Ocr.parseScorecard now [] = Ok (emptyResult now)
  /\ (exists r, OcrBox.parseScorecard now text = Ok r
                /\ (playerNames r = [] ->
                    playerHandicaps r = [] /\ holeScores r = []
                    /\ detectedHoleCount r = 18 /\ confidence r = 0.2%Q))
  /\ (exists r, OcrBox.parseScorecardWithBoundingBoxes now annotations fullText = Ok r
                /\ (playerNames r = [] ->
                    playerHandicaps r = [] /\ holeScores r = []
                    /\ 9 <= detectedHoleCount r <= 18 /\ confidence r = 0.4%Q)).
Proof.
  split; [|split; [|split]].
  - destruct (parseScorecard_ok now text) as (r & Hr & _ & _ & He). now exists r.
  - reflexivity.
  - destruct (fallback_parseScorecard_ok now text) as (r & Hr & _ & _ & Hh & He).
    exists r. split; [exact Hr|]. intros Hn. destruct (He Hn) as (H1 & H2 & H3).
    now repeat split.
  - destruct (parseScorecardWithBoundingBoxes_ok now annotations fullText)
      as (r & Hr & _ & _ & Hh & He).
    exists r. split; [exact Hr|]. intros Hn. destruct (He Hn) as (H1 & H2 & H3).
    now repeat split.
Qed.

(** A text without a "Name" marker. *)
Lemma zero_players_result_witness :
  Ocr.parseScorecard (rt := asciiRuntime) 7 (lit "4 5 3 6") = Ok (emptyResult 7).
Proof.
  destruct (proj1 (zero_players_result (rt := asciiRuntime) 7 (lit "4 5 3 6") [] []))
    as (r & Hr & He).
  rewrite Hr. f_equal. apply He.
  vm_compute in Hr. injection Hr as <-. reflexivity.
Defined.

(** C8 as stated fails for the other parsing variants: on the empty text the
    fallback reports hole count 18, not 0, and on a payload whose tokens hold
    no player the row-based interpreter reports hole count 18 and confidence
    0.4, not 0.2. *)
Lemma zero_players_other_variants :
  (exists r, OcrBox.interpret (rt := asciiRuntime) 0 [] [] = Ok r
             /\ playerNames r = [] /\ detectedHoleCount r = 18
             /\ detectedHoleCount r <> 0)
  /\ (exists r, OcrBox.interpret (rt := asciiRuntime) 0 loneNumber [] = Ok r
                /\ playerNames r = [] /\ detectedHoleCount r = 18
                /\ confidence r = 0.4%Q /\ ~ (confidence r == 0.2)%Q).
Proof.
  split; eexists; (split; [vm_compute; reflexivity|]); cbn;
    repeat split; discriminate.
Qed.

(** C9, as the code has it. The interpretation returns, and everything in its
    result but the team label is a function of the text payload alone: two
    invocations on the same payload agree on the player names, handicaps,
    hole scores, detected hole count and confidence. The team label is the
    county at index [now % 32] of the clock reading, so the two results are
    identical whenever the two readings agree modulo 32. *)
Theorem interpretation_deterministic_up_to_label {rt : Runtime} (now1 now2 : Z)
    (text : jsstring) :
  exists r1 r2,
    Ocr.parseScorecard now1 text = Ok r1
    /\ Ocr.parseScorecard now2 text = Ok r2
    /\ content r1 = content r2
    /\ teamName r1 = index counties (Z.rem now1 32)
    /\ teamName r2 = index counties (Z.rem now2 32)
    /\ (Z.rem now1 32 = Z.rem now2 32 -> r1 = r2).
Proof.
  destruct (parseScorecard_ok now1 text) as (r1 & H1 & _ & Ht1 & _).
  pose proof (parseScorecard_clock now1 now2 text r1 H1) as H2.
  exists r1, (withTeamName r1 (generateTeamName now2)).
  split; [exact H1|]. split; [exact H2|]. split; [reflexivity|].
  split; [now rewrite Ht1|]. split; [reflexivity|].
  intros Hrem. destruct r1 as [n h s d t c]. unfold withTeamName. cbn in *.
  f_equal. rewrite Ht1. unfold generateTeamName. cbn [length counties map].
  change (Z.of_nat 32) with 32. now rewrite Hrem.
Qed.

(** Two readings of the clock a whole turn of the county list apart. *)
Lemma interpretation_deterministic_up_to_label_witness :
  exists r,
    Ocr.parseScorecard (rt := asciiRuntime) 5 sampleText = Ok r
    /\ Ocr.parseScorecard (rt := asciiRuntime) 37 sampleText = Ok r.
Proof.
  destruct (interpretation_deterministic_up_to_label (rt := asciiRuntime) 5 37 sampleText)
    as (r1 & r2 & H1 & H2 & _ & _ & _ & Heq).
  exists r1. split; [exact H1|]. rewrite (Heq eq_refl). exact H2.
Defined.

(** C9 as stated fails: two invocations on the same payload, one
    millisecond apart, return different team labels. *)
Lemma same_payload_different_label :
  exists r1 r2,
    Ocr.parseScorecard (rt := asciiRuntime) 0 sampleText = Ok r1
    /\ Ocr.parseScorecard (rt := asciiRuntime) 1 sampleText = Ok r2
    /\ teamName r1 = Some (lit "ANTRIM")
    /\ teamName r2 = Some (lit "ARMAGH")
    /\ r1 <> r2.
Proof.
  do 2 eexists.
  split; [vm_compute; reflexivity|]. split; [vm_compute; reflexivity|].
  split; [reflexivity|]. split; [reflexivity|]. discriminate.
Qed.


End OcrProps.

(* ===================================================================== *)
(** * Further properties of the scoring engine *)
(* ===================================================================== *)

Module ScoringExtra.
Import Scoring Spec ExtraSpec ScoringProps.

Lemma sumZ_perm (l l' : list Z) : Permutation l l' -> sumZ l = sumZ l'.
Proof. induction 1; simpl; lia. Qed.

Lemma strokeIndex_entry (i si : Z) :
  index STROKE_INDEX_18 i = Some si -> 1 <= si <= 18.
Proof.
  unfold index. destruct (i <? 0); [discriminate|].
  intros H. apply nth_error_In in H. simpl in H.
  repeat (destruct H as [<- | H]; [lia|]). contradiction.
Qed.

Lemma strokeIndex_in_table (i : Z) :
  0 <= i < 18 -> exists si, index STROKE_INDEX_18 i = Some si.
Proof.
  intros Hi. unfold index. destruct (Z.ltb_spec i 0); [lia|].
  destruct (nth_error STROKE_INDEX_18 (Z.to_nat i)) as [si|] eqn:E.
  - now exists si.
  - apply nth_error_None in E. simpl in E. lia.
Qed.

(** The running maximum of the inner loop does not depend on the order of
    the players. *)
Lemma bestPointsOnHole_perm (ps ps' : list PlayerScore) (hc h : Z) :
  Permutation ps ps' -> bestPointsOnHole ps hc h = bestPointsOnHole ps' hc h.
Proof.
  intros Hperm. unfold bestPointsOnHole.
  pose proof (best_fold (playerPoints hc h) ps 0) as H1.
  pose proof (best_fold (playerPoints hc h) ps' 0) as H2.
  cbv zeta in H1, H2.
  destruct H1 as (A1 & B1 & C1). destruct H2 as (A2 & B2 & C2).
  rewrite Forall_forall in B1, B2.
  apply Z.le_antisymm.
  - destruct C1 as [-> | C1]; [exact A2|].
    apply in_map_iff in C1 as (p & <- & Hp). apply B2.
    now apply (Permutation_in p Hperm).
  - destruct C2 as [-> | C2]; [exact A1|].
    apply in_map_iff in C2 as (p & <- & Hp). apply B1.
    now apply (Permutation_in p (Permutation_sym Hperm)).
Qed.

Lemma bestPointsOnHole_range (ps : list PlayerScore) (hc h : Z) :
  0 <= bestPointsOnHole ps hc h <= 6.
Proof.
  unfold bestPointsOnHole.
  pose proof (best_fold (playerPoints hc h) ps 0) as H. cbv zeta in H.
  destruct H as (A & _ & [-> | C]); [lia|]. split; [exact A|].
  apply in_map_iff in C as (p & <- & _). unfold playerPoints.
  apply netScoreToStableford_range.
Qed.

Lemma bestPointsOnHole_ge (ps : list PlayerScore) (hc h : Z) (p : PlayerScore) :
  In p ps -> playerPoints hc h p <= bestPointsOnHole ps hc h.
Proof.
  intros Hin. unfold bestPointsOnHole.
  pose proof (best_fold (playerPoints hc h) ps 0) as H. cbv zeta in H.
  destruct H as (_ & Hall & _). rewrite Forall_forall in Hall. now apply Hall.
Qed.

(** What the champagne scoring returns for a team with a first player. *)
Lemma champagne_returns {rt : Js.Runtime} (team : TeamData) (first : PlayerScore)
      (others : list PlayerScore) :
  players team = first :: others ->
  exists r,
    calculateChampagneScramble team = Ok r
    /\ grossTotal r = sumZ (holeScores first)
    /\ teamHandicap r = calculateTeamHandicap (map handicap (players team))
    /\ netScore r = None
    /\ pointsTotal r
       = Some (sumZ (map (bestPointsOnHole (players team) (holeCount team))
                         (holeNumbers (holeCount team)))).
Proof.
  intros Hps. unfold calculateChampagneScramble. rewrite Hps.
  cbn [index Z.ltb Z.compare Z.to_nat nth_error].
  match goal with
  | |- context [fold_left ?f ?l ?a] =>
      assert (Hloop : fst (fold_left f l a)
                      = 0 + sumZ (map (bestPointsOnHole (first :: others) (holeCount team)) l))
        by apply hole_loop_total;
      destruct (fold_left f l a) as [total bd]
  end.
  cbn [fst] in Hloop. eexists. split; [reflexivity|].
  cbn [grossTotal teamHandicap netScore pointsTotal].
  rewrite calculateGrossTotal_sum, Hloop. repeat split.
Qed.

Lemma straight_returns {rt : Js.Runtime} (team : TeamData) (first : PlayerScore)
      (others : list PlayerScore) :
  players team = first :: others ->
  exists r,
    calculateStraightScramble team = Ok r
    /\ grossTotal r = sumZ (holeScores first)
    /\ teamHandicap r = calculateTeamHandicap (map handicap (players team))
    /\ netScore r = Some (grossTotal r - teamHandicap r)
    /\ pointsTotal r = None.
Proof.
  intros Hps. unfold calculateStraightScramble. rewrite Hps.
  cbn [index Z.ltb Z.compare Z.to_nat nth_error].
  eexists. split; [reflexivity|].
  cbn [grossTotal teamHandicap netScore pointsTotal].
  rewrite calculateGrossTotal_sum. repeat split.
Qed.

Lemma sum_of_bounded (f : Z -> Z) (l : list Z) (lo hi : Z) :
  (forall h, lo <= f h <= hi) ->
  lo * Z.of_nat (length l) <= sumZ (map f l) <= hi * Z.of_nat (length l).
Proof.
  intros Hf. induction l as [|h t IH]; simpl length; simpl map; simpl sumZ.
  - lia.
  - specialize (Hf h). lia.
Qed.

Lemma holeNumbers_length (hc : Z) : Z.of_nat (length (holeNumbers hc)) = Z.max 0 hc.
Proof. unfold holeNumbers. rewrite length_map, length_seq. lia. Qed.

(** X2. The order of the players matters only through who is first: the
    team handicap and the best-ball points of every hole, hence the points
    total, are the same for any reordering of the players, and the gross
    total (and with it the straight net score) is the same as long as the
    first player stays first. *)
Theorem scoring_order_independent {rt : Js.Runtime} (team team' : TeamData) :
  Permutation (players team) (players team') ->
  holeCount team = holeCount team' ->
  calculateTeamHandicap (map handicap (players team))
  = calculateTeamHandicap (map handicap (players team'))
  /\ (forall holeNum,
        bestPointsOnHole (players team) (holeCount team) holeNum
        = bestPointsOnHole (players team') (holeCount team') holeNum)
  /\ pointsOf (calculateChampagneScramble team)
     = pointsOf (calculateChampagneScramble team')
  /\ (index (players team) 0 = index (players team') 0 ->
      forall r r',
        calculateStraightScramble team = Ok r ->
        calculateStraightScramble team' = Ok r' ->
        grossTotal r = grossTotal r' /\ teamHandicap r = teamHandicap r'
        /\ netScore r = netScore r').
Proof.
  intros Hperm Hhc.
  assert (Hth : calculateTeamHandicap (map handicap (players team))
                = calculateTeamHandicap (map handicap (players team'))).
  { rewrite !calculateTeamHandicap_formula. f_equal. f_equal.
    apply sumZ_perm. now apply Permutation_map. }
  assert (Hbest : forall holeNum,
             bestPointsOnHole (players team) (holeCount team) holeNum
             = bestPointsOnHole (players team') (holeCount team') holeNum).
  { intros h. rewrite <- Hhc. now apply bestPointsOnHole_perm. }
  split; [exact Hth|]. split; [exact Hbest|]. split.
  - destruct (players team) as [|p ps] eqn:E, (players team') as [|p' ps'] eqn:E'.
    + unfold calculateChampagneScramble. now rewrite E, E'.
    + apply Permutation_nil in Hperm. discriminate.
    + apply Permutation_sym, Permutation_nil in Hperm. discriminate.
    + destruct (champagne_returns team p ps E) as (r & Hr & _ & _ & _ & Hp).
      destruct (champagne_returns team' p' ps' E') as (r' & Hr' & _ & _ & _ & Hp').
      rewrite Hr, Hr'. cbn [pointsOf]. rewrite Hp, Hp', E, E', <- Hhc.
      f_equal. f_equal. apply map_ext. intros h.
      specialize (Hbest h). rewrite <- Hhc in Hbest. exact Hbest.
  - intros Hfirst r r' Hr Hr'.
    destruct (players team) as [|p ps] eqn:E.
    { unfold calculateStraightScramble in Hr. rewrite E in Hr. discriminate. }
    destruct (players team') as [|p' ps'] eqn:E'.
    { unfold calculateStraightScramble in Hr'. rewrite E' in Hr'. discriminate. }
    cbn in Hfirst. injection Hfirst as <-.
    destruct (straight_returns team p ps E) as (r0 & Hr0 & Hg & Ht & Hn & _).
    destruct (straight_returns team' p ps' E') as (r0' & Hr0' & Hg' & Ht' & Hn' & _).
    rewrite Hr in Hr0. injection Hr0 as <-. rewrite Hr' in Hr0'. injection Hr0' as <-.
    assert (Hgg : grossTotal r = grossTotal r') by congruence.
    assert (Htt : teamHandicap r = teamHandicap r') by congruence.
    split; [exact Hgg|]. split; [exact Htt|]. rewrite Hn, Hn', Hgg, Htt. reflexivity.
Qed.

(** The two players in either order: 7 points both ways. *)
Lemma scoring_order_independent_witness :
  pointsOf (calculateChampagneScramble (rt := asciiRuntime) (pairTeam playerA playerB 18))
  = pointsOf (calculateChampagneScramble (rt := asciiRuntime) (pairTeam playerB playerA 18)).
Proof.
  apply (scoring_order_independent (rt := asciiRuntime)
           (pairTeam playerA playerB 18) (pairTeam playerB playerA 18)).
  - apply perm_swap.
  - reflexivity.
Defined.

Lemma strokeIndex_table_injective (i j si : Z) :
  0 <= i < 18 -> 0 <= j < 18 ->
  index STROKE_INDEX_18 i = Some si -> index STROKE_INDEX_18 j = Some si -> i = j.
Proof.
  intros Hi Hj. unfold index.
  destruct (Z.ltb_spec i 0); [lia|]. destruct (Z.ltb_spec j 0); [lia|].
  intros Ei Ej.
  assert (Hnd : NoDup STROKE_INDEX_18).
  { unfold STROKE_INDEX_18.
    repeat (constructor; [simpl; intros Hin;
                          repeat (destruct Hin as [Hin|Hin]; [discriminate|]);
                          exact Hin|]).
    constructor. }
  assert (Hlt : (Z.to_nat i < length STROKE_INDEX_18)%nat) by (simpl; lia).
  pose proof (proj1 (NoDup_nth_error STROKE_INDEX_18) Hnd (Z.to_nat i) (Z.to_nat j) Hlt)
    as Hinj.
  rewrite Ei, Ej in Hinj. specialize (Hinj eq_refl). lia.
Qed.

(** The position read from the table for hole [h] of [hc]. *)
Lemma getStrokeIndex_position (h hc : Z) :
  1 <= h <= hc -> hc <= 18 ->
  exists i, 0 <= i < 18 /\ getStrokeIndex h hc = index STROKE_INDEX_18 i
            /\ (h - 1) * 18 / hc = i.
Proof.
  intros Hh Hhc. unfold getStrokeIndex.
  assert (Hq : 0 <= (h - 1) * 18 / hc < 18).
  { split.
    - apply Z.div_pos; lia.
    - apply Z.div_lt_upper_bound; lia. }
  destruct (Z.eqb_spec hc 18) as [->|Hne].
  - exists (h - 1). split; [lia|]. split; [reflexivity|].
    rewrite Z.div_mul by lia. reflexivity.
  - destruct (Z.eqb_spec hc 0); [lia|].
    exists ((h - 1) * 18 / hc). cbv zeta. repeat split; lia.
Qed.

Lemma scaled_position_increasing (h h' hc : Z) :
  1 <= h -> h < h' -> 1 <= hc <= 18 ->
  (h - 1) * 18 / hc < (h' - 1) * 18 / hc.
Proof.
  intros Hh Hlt Hhc.
  assert (Hstep : (h - 1) * 18 / hc + 1 <= (h' - 1) * 18 / hc).
  { rewrite <- Z.div_add by lia. apply Z.div_le_mono; [lia|]. nia. }
  lia.
Qed.

(** X3. On a round of 1 to 18 holes every hole has a stroke index, a
    number from 1 to 18, and no two holes of the round share one; a player
    receives a stroke on a hole exactly when the handicap is at least the
    hole's stroke index. *)
Theorem stroke_index_of_round (hc : Z) :
  1 <= hc <= 18 ->
  (forall h, 1 <= h <= hc ->
     exists si, getStrokeIndex h hc = Some si /\ 1 <= si <= 18
                /\ forall hcp, getHoleHandicapStrokes hcp h hc
                               = if hcp >=? si then 1 else 0)
  /\ (forall h h', 1 <= h <= hc -> 1 <= h' <= hc ->
        getStrokeIndex h hc = getStrokeIndex h' hc -> h = h').
Proof.
  intros Hhc. split.
  - intros h Hh.
    destruct (getStrokeIndex_position h hc Hh) as (i & Hi & Hget & _); [lia|].
    destruct (strokeIndex_in_table i Hi) as (si & Hsi).
    exists si. rewrite Hget. split; [exact Hsi|].
    split; [now apply (strokeIndex_entry i)|].
    intros hcp. unfold getHoleHandicapStrokes. rewrite Hget, Hsi.
    destruct (Z.geb_spec hcp si); [reflexivity|].
    destruct (Z.geb_spec hcp (si + 18)); [lia|reflexivity].
  - intros h h' Hh Hh' Heq.
    destruct (getStrokeIndex_position h hc Hh) as (i & Hi & Hget & Hpos); [lia|].
    destruct (getStrokeIndex_position h' hc Hh') as (j & Hj & Hget' & Hpos'); [lia|].
    destruct (strokeIndex_in_table i Hi) as (si & Hsi).
    rewrite Hget, Hget', Hsi in Heq. symmetry in Heq.
    pose proof (strokeIndex_table_injective i j si Hi Hj Hsi Heq) as Hij.
    destruct (Z.lt_total h h') as [Hlt | [Heq' | Hgt]]; [|exact Heq'|].
    + pose proof (scaled_position_increasing h h' hc ltac:(lia) Hlt Hhc). lia.
    + pose proof (scaled_position_increasing h' h hc ltac:(lia) Hgt Hhc). lia.
Qed.

(** A 9-hole round: hole 2 has stroke index 14. *)
Lemma stroke_index_of_round_witness :
  exists si, getStrokeIndex 2 9 = Some si /\ 1 <= si <= 18
             /\ forall hcp, getHoleHandicapStrokes hcp 2 9 = if hcp >=? si then 1 else 0.
Proof.
  apply (proj1 (stroke_index_of_round 9 ltac:(lia)) 2). lia.
Defined.

Lemma champagne_points_bounded {rt : Js.Runtime} (team : TeamData) :
  players team <> [] ->
  exists r pts,
    calculateChampagneScramble team = Ok r
    /\ netScore r = None
    /\ pointsTotal r = Some pts
    /\ 0 <= pts <= 6 * Z.max 0 (holeCount team).
Proof.
  intros Hne. destruct (players team) as [|p ps] eqn:E; [congruence|].
  destruct (champagne_returns team p ps E) as (r & Hr & _ & _ & Hn & Hp).
  exists r. eexists. split; [exact Hr|]. split; [exact Hn|]. split; [exact Hp|].
  pose proof (sum_of_bounded (bestPointsOnHole (players team) (holeCount team))
                (holeNumbers (holeCount team)) 0 6
                (bestPointsOnHole_range (players team) (holeCount team))) as Hb.
  rewrite holeNumbers_length in Hb. lia.
Qed.

(** X4. For a team with at least one player the champagne scoring returns,
    and its points total is between 0 and 6 points per hole (0 when the
    hole count is not positive). *)
Theorem champagne_points_range {rt : Js.Runtime} (team : TeamData) :
  players team <> [] ->
  exists r pts,
    calculateChampagneScramble team = Ok r
    /\ pointsTotal r = Some pts
    /\ 0 <= pts <= 6 * Z.max 0 (holeCount team).
Proof.
  intros Hne. destruct (champagne_points_bounded team Hne) as (r & pts & Hr & _ & Hp & Hb).
  now exists r, pts.
Qed.

Lemma champagne_points_range_witness :
  exists r pts,
    calculateChampagneScramble (rt := asciiRuntime) (pairTeam playerA playerB 3) = Ok r
    /\ pointsTotal r = Some pts
    /\ 0 <= pts <= 6 * Z.max 0 3.
Proof.
  apply (champagne_points_range (rt := asciiRuntime) (pairTeam playerA playerB 3)).
  discriminate.
Defined.

Lemma sum_of_constant (f : Z -> Z) (l : list Z) (c : Z) :
  (forall h, In h l -> f h = c) -> sumZ (map f l) = c * Z.of_nat (length l).
Proof.
  induction l as [|h t IH]; intros Hf; simpl length; simpl map; simpl sumZ.
  - lia.
  - rewrite (Hf h) by now left. rewrite IH by (intros; apply Hf; now right). lia.
Qed.

(** X5. A gross score of 0, which is what the interpreters put where no
    score was recovered, is worth 6 points when the player has no stroke on
    the hole and 0 points when the player has one; so a team with a player
    of handicap 0 (or less) whose scores all read 0 gets the full 6 points
    on every hole. *)
Theorem unrecovered_scores_earn_most {rt : Js.Runtime} (team : TeamData)
        (p : PlayerScore) :
  In p (players team) ->
  handicap p <= 0 ->
  (forall h, 1 <= h <= holeCount team -> index (holeScores p) (h - 1) = Some 0) ->
  (forall q h hc, index (holeScores q) (h - 1) = Some 0 ->
     playerPoints hc h q = if getHoleHandicapStrokes (handicap q) h hc =? 0 then 6 else 0)
  /\ exists r,
       calculateChampagneScramble team = Ok r
       /\ pointsTotal r = Some (6 * Z.max 0 (holeCount team)).
Proof.
  intros Hin Hhcp Hzero.
  assert (Hcell : forall q h hc, index (holeScores q) (h - 1) = Some 0 ->
             playerPoints hc h q
             = if getHoleHandicapStrokes (handicap q) h hc =? 0 then 6 else 0).
  { intros q h hc Hq. unfold playerPoints. cbv zeta. rewrite Hq. cbn [option_map].
    unfold getHoleHandicapStrokes.
    destruct (getStrokeIndex h hc) as [si|]; [|reflexivity].
    destruct (handicap q >=? si); [reflexivity|].
    destruct (handicap q >=? si + 18); reflexivity. }
  split; [exact Hcell|].
  destruct (players team) as [|p0 ps] eqn:E; [contradiction|].
  destruct (champagne_returns team p0 ps E) as (r & Hr & _ & _ & _ & Hp).
  exists r. split; [exact Hr|]. rewrite Hp. f_equal.
  rewrite <- holeNumbers_length. apply sum_of_constant.
  intros h Hh. apply holeNumbers_spec in Hh.
  pose proof (bestPointsOnHole_range (players team) (holeCount team) h) as Hrange.
  assert (Hp6 : playerPoints (holeCount team) h p = 6).
  { rewrite Hcell by now apply Hzero.
    unfold getHoleHandicapStrokes.
    destruct (getStrokeIndex h (holeCount team)) as [si|] eqn:Esi; [|reflexivity].
    assert (1 <= si <= 18).
    { unfold getStrokeIndex in Esi.
      destruct (holeCount team =? 18); [now apply strokeIndex_entry in Esi|].
      destruct (holeCount team =? 0); [discriminate|].
      now apply strokeIndex_entry in Esi. }
    destruct (Z.geb_spec (handicap p) si); [lia|].
    destruct (Z.geb_spec (handicap p) (si + 18)); [lia|reflexivity]. }
  rewrite <- E in Hin.
  pose proof (bestPointsOnHole_ge (players team) (holeCount team) h p Hin). lia.
Qed.

(** A lone player of handicap 0 with no score recovered on three holes:
    18 points. *)
Lemma unrecovered_scores_earn_most_witness :
  exists r,
    calculateChampagneScramble (rt := asciiRuntime)
      (pairTeam blankPlayer blankPlayer 3) = Ok r
    /\ pointsTotal r = Some (6 * Z.max 0 3).
Proof.
  apply (unrecovered_scores_earn_most (rt := asciiRuntime)
           (pairTeam blankPlayer blankPlayer 3) blankPlayer).
  - now left.
  - simpl. lia.
  - intros h Hh. simpl in Hh.
    assert (Hcases : h = 1 \/ h = 2 \/ h = 3) by lia.
    destruct Hcases as [-> | [-> | ->]]; reflexivity.
Defined.

(** X15. The scoring engine fails exactly for a team without players (it
    reads the first player's scores). For any other team it returns a result
    that carries the metric of the team's format and not the other one, the
    net score for a straight scramble and the points total for a champagne
    scramble, whatever the hole count and the scores are. *)
Theorem calculateTeamScore_outcome {rt : Js.Runtime} (team : TeamData) :
  (players team = [] -> calculateTeamScore team = Throw)
  /\ (players team <> [] ->
      exists r,
        calculateTeamScore team = Ok r
        /\ match scrambleMode team with
           | straight => netScore r = Some (grossTotal r - teamHandicap r)
                         /\ pointsTotal r = None
           | champagne => netScore r = None /\ pointsTotal r <> None
           end).
Proof.
  unfold calculateTeamScore. split.
  - intros Hnil. destruct (no_players_throws team Hnil) as [Hs Hc].
    destruct (scrambleMode team); assumption.
  - intros Hne. destruct (players team) as [|p ps] eqn:E; [congruence|].
    destruct (scrambleMode team).
    + destruct (straight_returns team p ps E) as (r & Hr & _ & _ & Hn & Hp).
      exists r. repeat split; assumption.
    + destruct (champagne_returns team p ps E) as (r & Hr & _ & _ & Hn & Hp).
      exists r. split; [exact Hr|]. split; [exact Hn|]. rewrite Hp. discriminate.
Qed.

Lemma calculateTeamScore_outcome_witness :
  exists r,
    calculateTeamScore (rt := asciiRuntime) (pairTeam playerA playerB 3) = Ok r
    /\ netScore r = None /\ pointsTotal r <> None.
Proof.
  apply (proj2 (calculateTeamScore_outcome (rt := asciiRuntime)
                  (pairTeam playerA playerB 3))).
  discriminate.
Defined.

(** X16. A hole for which no player has a score (the hole number is beyond
    the end of every player's scores) earns the team no points; a team whose
    players have no scores at all totals 0 points and a gross total of 0. *)
Theorem missing_scores_earn_nothing {rt : Js.Runtime} (team : TeamData) :
  (forall holeNum,
     (forall p, In p (players team) -> index (holeScores p) (holeNum - 1) = None) ->
     bestPointsOnHole (players team) (holeCount team) holeNum = 0)
  /\ (players team <> [] ->
      (forall p, In p (players team) -> holeScores p = []) ->
      exists r, calculateChampagneScramble team = Ok r
                /\ pointsTotal r = Some 0 /\ grossTotal r = 0).
Proof.
  assert (Hhole : forall holeNum,
            (forall p, In p (players team) -> index (holeScores p) (holeNum - 1) = None) ->
            bestPointsOnHole (players team) (holeCount team) holeNum = 0).
  { intros h Hmissing. unfold bestPointsOnHole.
    pose proof (best_fold (playerPoints (holeCount team) h) (players team) 0) as H.
    cbv zeta in H. destruct H as (_ & _ & [H | H]); [exact H|].
    apply in_map_iff in H as (p & Hp & Hin). rewrite <- Hp.
    unfold playerPoints. cbv zeta. now rewrite (Hmissing p Hin). }
  split; [exact Hhole|].
  intros Hne Hempty. destruct (players team) as [|p ps] eqn:E; [congruence|].
  destruct (champagne_returns team p ps E) as (r & Hr & Hg & _ & _ & Hp).
  exists r. split; [exact Hr|]. split.
  - rewrite Hp. f_equal.
    rewrite (sum_of_constant _ _ 0); [lia|].
    intros h _. rewrite E. apply Hhole. intros q Hq. rewrite (Hempty q Hq).
    unfold index. destruct (h - 1 <? 0); [reflexivity|]. now destruct (Z.to_nat (h - 1)).
  - rewrite Hg, (Hempty p (or_introl eq_refl)). reflexivity.
Qed.

End ScoringExtra.

(* ===================================================================== *)
(** * The pattern matcher only finds words of the pattern *)
(* ===================================================================== *)

Module RegexExtra.
Import RegexSpec.

Lemma consumed_app (w t : jsstring) : consumed (w ++ t) t = w.
Proof.
  unfold consumed. rewrite length_app.
  replace (length w + length t - length t)%nat with (length w) by lia.
  rewrite firstn_app, firstn_all, Nat.sub_diag, firstn_0. apply app_nil_r.
Qed.

Lemma repeatMatch_sound (r1 : regex)
      (IH : forall k s e, run r1 k s = Some e ->
                          exists s', reaches r1 s s' /\ k s' = Some e) :
  forall fuel k mn mx s e,
    match mx with Some m => (mn <= m)%nat | None => True end ->
    repeatMatch fuel (run r1) k mn mx s = Some e ->
    exists s' ws added,
      k s' = Some e
      /\ rest s = concat ws ++ rest s'
      /\ Forall (lang r1) ws
      /\ (mn <= length ws)%nat
      /\ match mx with Some m => (length ws <= m)%nat | None => True end
      /\ caps s' = added ++ caps s
      /\ Forall (fun c => groupLang r1 (fst c) (snd c)) added.
Proof.
  induction fuel as [|fuel IHf]; intros k mn mx s e Hb H; cbn [repeatMatch] in H;
    [discriminate|].
  assert (Hstop : k s = Some e -> mn = 0%nat ->
            exists s' ws added,
              k s' = Some e /\ rest s = concat ws ++ rest s' /\ Forall (lang r1) ws
              /\ (mn <= length ws)%nat
              /\ match mx with Some m => (length ws <= m)%nat | None => True end
              /\ caps s' = added ++ caps s
              /\ Forall (fun c => groupLang r1 (fst c) (snd c)) added).
  { intros Hk ->. exists s, [], []. cbn [concat app length].
    repeat split; try constructor; try exact Hk. destruct mx; [lia | exact I]. }
  destruct mx as [[|m]|].
  - apply Hstop; [exact H | lia].
  - match type of H with
    | context [run r1 ?d s] => set (dd := d) in H
    end.
    assert (Hstep : forall e', run r1 dd s = Some e' -> e' = e ->
              exists s' ws added,
                k s' = Some e /\ rest s = concat ws ++ rest s' /\ Forall (lang r1) ws
                /\ (mn <= length ws)%nat /\ (length ws <= S m)%nat
                /\ caps s' = added ++ caps s
                /\ Forall (fun c => groupLang r1 (fst c) (snd c)) added).
    { intros e' Hr ->. apply IH in Hr as (s1 & (w1 & a1 & Hw1 & Hl1 & Hc1 & Hg1) & Hd).
      unfold dd in Hd.
      destruct ((mn =? 0)%nat && (length (rest s1) =? length (rest s))%nat);
        [discriminate|].
      apply IHf in Hd as (s' & ws & added & Hk & Hrest & Hall & Hmn & Hmx & Hcaps & Hg);
        [|cbn [option_map Nat.pred]; lia].
      exists s', (w1 :: ws), (added ++ a1). cbn [concat length option_map Nat.pred] in *.
      split; [exact Hk|]. split; [rewrite Hw1, Hrest; now rewrite app_assoc|].
      split; [now constructor|]. split; [lia|]. split; [lia|].
      split; [rewrite Hcaps, Hc1; now rewrite app_assoc|].
      apply Forall_app. now split. }
    destruct (0 <? mn)%nat eqn:Emn; [now apply (Hstep e)|].
    destruct (run r1 dd s) as [e'|] eqn:Er.
    + injection H as ->. now apply (Hstep e).
    + apply Hstop; [exact H|]. apply Nat.ltb_ge in Emn. lia.
  - match type of H with
    | context [run r1 ?d s] => set (dd := d) in H
    end.
    assert (Hstep : forall e', run r1 dd s = Some e' -> e' = e ->
              exists s' ws added,
                k s' = Some e /\ rest s = concat ws ++ rest s' /\ Forall (lang r1) ws
                /\ (mn <= length ws)%nat /\ True
                /\ caps s' = added ++ caps s
                /\ Forall (fun c => groupLang r1 (fst c) (snd c)) added).
    { intros e' Hr ->. apply IH in Hr as (s1 & (w1 & a1 & Hw1 & Hl1 & Hc1 & Hg1) & Hd).
      unfold dd in Hd.
      destruct ((mn =? 0)%nat && (length (rest s1) =? length (rest s))%nat);
        [discriminate|].
      apply IHf in Hd as (s' & ws & added & Hk & Hrest & Hall & Hmn & Hmx & Hcaps & Hg);
        [|exact I].
      exists s', (w1 :: ws), (added ++ a1). cbn [concat length] in *.
      split; [exact Hk|]. split; [rewrite Hw1, Hrest; now rewrite app_assoc|].
      split; [now constructor|]. split; [lia|]. split; [exact I|].
      split; [rewrite Hcaps, Hc1; now rewrite app_assoc|].
      apply Forall_app. now split. }
    destruct (0 <? mn)%nat eqn:Emn; [now apply (Hstep e)|].
    destruct (run r1 dd s) as [e'|] eqn:Er.
    + injection H as ->. now apply (Hstep e).
    + apply Hstop; [exact H|]. apply Nat.ltb_ge in Emn. lia.
Qed.

(** A successful run hands its continuation a position reached over a word
    of the pattern. *)
Lemma run_sound (r : regex) :
  wellFormed r = true ->
  forall k s e, run r k s = Some e -> exists s', reaches r s s' /\ k s' = Some e.
Proof.
  induction r as [|p|r1 IH1 r2 IH2|r1 IH1 r2 IH2|r1 IH1 mn mx| | | |i r1 IH1];
    intros Hwf k s e H; cbn [run] in H; cbn [wellFormed] in Hwf.
  - exists s. split; [|exact H]. exists [], []. repeat split. constructor.
  - destruct (rest s) as [|c t] eqn:Hr; [discriminate|].
    destruct (p c) eqn:Hp; [|discriminate].
    eexists. split; [|exact H]. exists [c], []. cbn [rest caps app].
    repeat split; [exact Hr | now exists c | constructor].
  - apply andb_prop in Hwf as [Hwf1 Hwf2].
    apply (IH1 Hwf1) in H as (s1 & (w1 & a1 & Hw1 & Hl1 & Hc1 & Hg1) & H).
    apply (IH2 Hwf2) in H as (s2 & (w2 & a2 & Hw2 & Hl2 & Hc2 & Hg2) & H).
    exists s2. split; [|exact H]. exists (w1 ++ w2), (a2 ++ a1).
    split; [rewrite Hw1, Hw2; now rewrite app_assoc|].
    split; [now exists w1, w2|].
    split; [rewrite Hc2, Hc1; now rewrite app_assoc|].
    apply Forall_app. split.
    + eapply Forall_impl; [|exact Hg2]. intros c Hc. now right.
    + eapply Forall_impl; [|exact Hg1]. intros c Hc. now left.
  - apply andb_prop in Hwf as [Hwf1 Hwf2].
    destruct (run r1 k s) as [e1|] eqn:E1.
    + injection H as ->.
      apply (IH1 Hwf1) in E1 as (s1 & (w1 & a1 & Hw1 & Hl1 & Hc1 & Hg1) & H).
      exists s1. split; [|exact H]. exists w1, a1.
      repeat split; [exact Hw1 | now left | exact Hc1 |].
      eapply Forall_impl; [|exact Hg1]. intros c Hc. now left.
    + apply (IH2 Hwf2) in H as (s2 & (w2 & a2 & Hw2 & Hl2 & Hc2 & Hg2) & H).
      exists s2. split; [|exact H]. exists w2, a2.
      repeat split; [exact Hw2 | now right | exact Hc2 |].
      eapply Forall_impl; [|exact Hg2]. intros c Hc. now right.
  - apply andb_prop in Hwf as [Hwf1 Hb].
    apply (repeatMatch_sound r1 (IH1 Hwf1)) in H
      as (s' & ws & added & Hk & Hrest & Hall & Hmn & Hmx & Hcaps & Hg).
    + exists s'. split; [|exact Hk]. exists (concat ws), added.
      repeat split; [exact Hrest | | exact Hcaps | exact Hg].
      now exists ws.
    + destruct mx as [m|]; [|exact I]. apply Nat.leb_le in Hb. exact Hb.
  - destruct (xorb _ _); [|discriminate].
    exists s. split; [|exact H]. exists [], []. repeat split. constructor.
  - destruct (prev s); [discriminate|].
    exists s. split; [|exact H]. exists [], []. repeat split. constructor.
  - destruct (rest s) eqn:Hr; [|discriminate].
    exists s. split; [|exact H]. exists [], []. repeat split. constructor.
  - apply (IH1 Hwf) in H as (s1 & (w1 & a1 & Hw1 & Hl1 & Hc1 & Hg1) & H).
    eexists. split; [|exact H]. exists w1, ((i, w1) :: a1). cbn [rest caps].
    split; [exact Hw1|]. split; [exact Hl1|]. split.
    + rewrite Hw1, consumed_app, Hc1. reflexivity.
    + constructor.
      * cbn [fst snd groupLang]. left. now split.
      * eapply Forall_impl; [|exact Hg1]. intros c Hc. cbn [groupLang]. now right.
Qed.

Lemma matchAt_sound (r : regex) (prev : option char) (subject : jsstring) (e : mstate) :
  wellFormed r = true ->
  matchAt r prev subject = Some e ->
  lang r (consumed subject (rest e))
  /\ Forall (fun c => groupLang r (fst c) (snd c)) (caps e).
Proof.
  intros Hwf H. unfold matchAt in H.
  apply (run_sound r Hwf) in H as (s' & (w & added & Hw & Hl & Hc & Hg) & H).
  injection H as ->. cbn [rest caps] in Hw, Hc.
  rewrite Hw, consumed_app, Hc, app_nil_r. now split.
Qed.

Lemma exec_sound (r : regex) (s : jsstring) (m : Match) :
  wellFormed r = true ->
  exec r s = Some m ->
  lang r (mtext m) /\ Forall (fun c => groupLang r (fst c) (snd c)) (mcaps m).
Proof.
  intros Hwf. unfold exec. generalize (@None char) as prev, 0%nat as idx.
  induction s as [|c t IH]; intros prev idx H; cbn [searchFrom] in H.
  - destruct (matchAt r prev []) as [e|] eqn:E; [|discriminate].
    injection H as <-. cbn [mtext mcaps]. now apply (matchAt_sound r prev).
  - destruct (matchAt r prev (c :: t)) as [e|] eqn:E.
    + injection H as <-. cbn [mtext mcaps]. now apply (matchAt_sound r prev).
    + now apply (IH (Some c) (S idx)).
Qed.

Lemma matchAllFrom_sound (r : regex) :
  wellFormed r = true ->
  forall (subject : jsstring) (prev : option char) (skip : nat),
    Forall (lang r) (matchAllFrom r prev subject skip).
Proof.
  intros Hwf. induction subject as [|c t IH]; intros prev skip;
    cbn [matchAllFrom].
  - destruct skip; [|constructor].
    destruct (matchAt r prev []) as [e|] eqn:E; [|constructor].
    constructor; [|constructor]. now apply (matchAt_sound r prev).
  - destruct skip; [|apply IH].
    destruct (matchAt r prev (c :: t)) as [e|] eqn:E; [|apply IH].
    constructor; [|apply IH]. now apply (matchAt_sound r prev).
Qed.

Lemma matchAll_sound (r : regex) (s : jsstring) :
  wellFormed r = true -> Forall (lang r) (matchAll r s).
Proof. intros Hwf. now apply matchAllFrom_sound. Qed.

Lemma group_sound (r : regex) (s : jsstring) (m : Match) (i : nat) (w : jsstring) :
  wellFormed r = true ->
  exec r s = Some m -> group m i = Some w -> groupLang r i w.
Proof.
  intros Hwf Hm Hg. apply (exec_sound r s m Hwf) in Hm as [_ Hcaps].
  unfold group in Hg.
  destruct (find (fun c => (fst c =? i)%nat) (mcaps m)) as [c|] eqn:E; [|discriminate].
  injection Hg as <-. apply find_some in E as [Hin Hi].
  apply Nat.eqb_eq in Hi. subst i.
  rewrite Forall_forall in Hcaps. now apply Hcaps.
Qed.

(** The words of [\d{1,2}]. *)
Lemma lang_twoDigits (w : jsstring) :
  lang (Rep digit 1 (Some 2%nat)) w -> twoDigits w.
Proof.
  cbn [lang]. intros (ws & -> & Hall & Hmin & Hmax).
  destruct ws as [|w1 [|w2 [|w3 ws]]]; cbn [length] in *; try lia.
  - inversion Hall as [|? ? (c & -> & Hc) _]; subst. left. now exists c.
  - inversion Hall as [|? ? (c & -> & Hc) Hall']; subst.
    inversion Hall' as [|? ? (d & -> & Hd) _]; subst. right. now exists c, d.
Qed.

Lemma digit_cases (c : char) :
  isDigit c = true ->
  (c = 48 \/ c = 49 \/ c = 50 \/ c = 51 \/ c = 52
   \/ c = 53 \/ c = 54 \/ c = 55 \/ c = 56 \/ c = 57)%N.
Proof.
  unfold isDigit, inRange. intros H. apply andb_prop in H as [H1 H2].
  apply N.leb_le in H1, H2. lia.
Qed.

(** [parseInt] of one or two digits: a number from 0 to 99. *)
Lemma parseInt_twoDigits (w : jsstring) :
  twoDigits w -> exists n, parseInt w = Some n /\ 0 <= n <= 99.
Proof.
  intros [(c & -> & Hc) | (c & d & -> & Hc & Hd)].
  - apply digit_cases in Hc.
    repeat (destruct Hc as [Hc | Hc]);
      subst c; eexists; (split; [vm_compute; reflexivity | lia]).
  - apply digit_cases in Hc. apply digit_cases in Hd.
    repeat (destruct Hc as [Hc | Hc]); subst c;
      repeat (destruct Hd as [Hd | Hd]);
      subst d; eexists; (split; [vm_compute; reflexivity | lia]).
Qed.

(** The number read off a group that holds one or two digits. *)
Lemma capturedInt_range (r : regex) (s : jsstring) (i : nat) (n : Z) :
  wellFormed r = true ->
  (forall w, groupLang r i w -> twoDigits w) ->
  capturedInt (exec r s) i = Some n -> 0 <= n <= 99.
Proof.
  intros Hwf Hgroup H. unfold capturedInt in H.
  destruct (exec r s) as [m|] eqn:Em; [|discriminate].
  destruct (group m i) as [w|] eqn:Eg; [|discriminate].
  apply (group_sound r s m i w Hwf Em), Hgroup, parseInt_twoDigits in Eg
    as (n' & Hn' & Hrange).
  destruct w; [discriminate|]. congruence.
Qed.

End RegexExtra.

(* ===================================================================== *)
(** * Further properties of the interpreters *)
(* ===================================================================== *)

Module OcrExtra.
Import ExtraSpec OcrSpec OcrProps.

Lemma streq_true (a b : jsstring) : streq a b = true <-> a = b.
Proof.
  unfold streq. destruct (list_eq_dec N.eq_dec a b); split; congruence.
Qed.

Lemma scoreValue_zeros (n : nat) : Forall scoreValue (repeat 0 n).
Proof. apply Forall_forall. intros s Hs. apply repeat_spec in Hs. now left. Qed.

Lemma Forall_firstn {A} (P : A -> Prop) (n : nat) (l : list A) :
  Forall P l -> Forall P (firstn n l).
Proof.
  intros H. rewrite <- (firstn_skipn n l) in H. now apply Forall_app in H as [H _].
Qed.

Lemma forReturn_found {A} (idxs : list nat) (body : nat -> result (option A)) (a : A) :
  forReturn idxs body = Ok (Some a) ->
  exists i, In i idxs /\ body i = Ok (Some a).
Proof.
  induction idxs as [|i rest IH]; cbn [forReturn]; [discriminate|].
  destruct (body i) as [[b|]|] eqn:E; cbn [bind]; [| |discriminate].
  - intros [= ->]. exists i. split; [now left | exact E].
  - intros H. destruct (IH H) as (j & Hj & Hb). exists j. split; [now right | exact Hb].
Qed.

Lemma Ok_inj {A} (a b : A) : Ok a = Ok b -> a = b.
Proof. congruence. Qed.

Lemma firstSome_In {A} (l : list (option A)) (a : A) :
  firstSome l = Some a -> In (Some a) l.
Proof.
  induction l as [|[b|] rest IH]; cbn [firstSome]; [discriminate | |].
  - intros [= ->]. now left.
  - intros H. right. now apply IH.
Qed.

(** Group 1 of the handicap patterns is [\d{1,2}]. *)
Ltac group_is_two_digits :=
  let w := fresh "w" in
  let H := fresh "H" in
  let E := fresh "E" in
  intros w H; simpl in H;
  repeat match goal with
         | H : _ \/ _ |- _ => destruct H as [H | H]
         | H : _ = _ /\ _ |- _ => destruct H as [E H]; try discriminate E
         | H : False |- _ => destruct H
         end;
  apply RegexExtra.lang_twoDigits; exact H.

Lemma reHcapThenNumber_group (w : jsstring) :
  RegexSpec.groupLang Ocr.reHcapThenNumber 1 w -> RegexSpec.twoDigits w.
Proof. revert w. group_is_two_digits. Qed.

Lemma reNumberThenHcap_group (w : jsstring) :
  RegexSpec.groupLang Ocr.reNumberThenHcap 1 w -> RegexSpec.twoDigits w.
Proof. revert w. group_is_two_digits. Qed.

Lemma reCapThenNumber_group (w : jsstring) :
  RegexSpec.groupLang Ocr.reCapThenNumber 1 w -> RegexSpec.twoDigits w.
Proof. revert w. group_is_two_digits. Qed.

Lemma reNumberGroup_group (w : jsstring) :
  RegexSpec.groupLang Ocr.reNumberGroup 1 w -> RegexSpec.twoDigits w.
Proof. revert w. group_is_two_digits. Qed.

Lemma reNumberThenName_group (w : jsstring) :
  RegexSpec.groupLang Ocr.reNumberThenName 1 w -> RegexSpec.twoDigits w.
Proof. revert w. group_is_two_digits. Qed.

Lemma reInline_group (w : jsstring) :
  RegexSpec.groupLang Ocr.reInline 1 w -> RegexSpec.twoDigits w.
Proof. revert w. group_is_two_digits. Qed.

Lemma reNumberThenCap_group (w : jsstring) :
  RegexSpec.groupLang OcrBox.reNumberThenCap 1 w -> RegexSpec.twoDigits w.
Proof. revert w. group_is_two_digits. Qed.

Section LineBased.
Context {rt : Runtime}.

Lemma findHandicapNearLine_range (lines : list jsstring) (c : nat) (n : Z) :
  Ocr.findHandicapNearLine lines c = Ok n -> 0 <= n <= 99.
Proof.
  unfold Ocr.findHandicapNearLine. cbv zeta.
  match goal with
  | |- bind (forReturn ?w ?b) _ = _ -> _ => destruct (forReturn w b) as [[n1|]|] eqn:E1
  end; cbn [bind]; [| |discriminate].
  { intros [= <-]. apply forReturn_found in E1 as (i & _ & Hb).
    destruct (at_ lines i) as [line|]; cbn [bind] in Hb; [|discriminate].
    apply Ok_inj in Hb. apply firstSome_In in Hb.
    destruct Hb as [Hb | [Hb | [Hb | []]]].
    - eapply RegexExtra.capturedInt_range;
        [| | exact Hb]; [reflexivity | exact reHcapThenNumber_group].
    - eapply RegexExtra.capturedInt_range;
        [| | exact Hb]; [reflexivity | exact reNumberThenHcap_group].
    - eapply RegexExtra.capturedInt_range;
        [| | exact Hb]; [reflexivity | exact reCapThenNumber_group]. }
  match goal with
  | |- bind (forReturn ?w ?b) _ = _ -> _ => destruct (forReturn w b) as [[n2|]|] eqn:E2
  end; cbn [bind]; [| |discriminate].
  { intros [= <-]. apply forReturn_found in E2 as (i & _ & Hb).
    match type of Hb with
    | (if ?cond then _ else _) = _ => destruct cond
    end; [discriminate|].
    apply Ok_inj in Hb. apply firstSome_In in Hb.
    destruct Hb as [Hb | [Hb | []]];
      (eapply RegexExtra.capturedInt_range;
       [| | exact Hb]; [reflexivity | exact reNumberGroup_group]). }
  match goal with
  | |- bind (forReturn ?w ?b) _ = _ -> _ => destruct (forReturn w b) as [[n3|]|] eqn:E3
  end; cbn [bind]; [| |discriminate].
  { intros [= <-]. apply forReturn_found in E3 as (i & _ & Hb).
    destruct (at_ lines i) as [line|]; cbn [bind] in Hb; [|discriminate].
    apply Ok_inj in Hb.
    eapply RegexExtra.capturedInt_range;
      [| | exact Hb]; [reflexivity | exact reNumberThenName_group]. }
  intros [= <-]. lia.
Qed.

(** A turn of the scan keeps the names distinct and of two units or more,
    and the handicaps within 0..99. *)
Lemma scanLine_keeps (lines : list jsstring) (i : nat)
      (players players' : list Ocr.ParsedPlayer) :
  Ocr.scanLine lines i players = Ok players' ->
  NoDup (map Ocr.name players)
  /\ Forall (fun p => (2 <= length (Ocr.name p))%nat) players
  /\ Forall (fun p => 0 <= Ocr.handicap p <= 99) players ->
  NoDup (map Ocr.name players')
  /\ Forall (fun p => (2 <= length (Ocr.name p))%nat) players'
  /\ Forall (fun p => 0 <= Ocr.handicap p <= 99) players'.
Proof.
  intros H Hp. unfold Ocr.scanLine in H.
  destruct (negb (testU (reKeyword "Name") (nth_error lines i)));
    [injection H as <-; exact Hp|].
  destruct (nth_error lines i) as [line|]; [|discriminate]. cbv zeta in H.
  match type of H with
  | context [(length ?n <? 2)%nat] => set (rawName := n) in H
  end.
  destruct (Nat.ltb_spec (length rawName) 2) as [Hshort|Hlong];
    [injection H as <-; exact Hp|].
  destruct (existsb (fun p => streq (Ocr.name p) rawName) players) eqn:Hdup;
    [injection H as <-; exact Hp|].
  assert (Hh : exists h, 0 <= h <= 99
                 /\ players' = players ++ [{| Ocr.name := rawName; Ocr.handicap := h;
                                              Ocr.lineIndex := i |}]).
  { destruct (capturedInt (exec Ocr.reInline line) 1) as [h|] eqn:Ecap.
    - cbn [bind] in H. injection H as <-. exists h. split; [|reflexivity].
      eapply RegexExtra.capturedInt_range;
        [| | exact Ecap]; [reflexivity | exact reInline_group].
    - destruct (Ocr.findHandicapNearLine lines i) as [h|] eqn:Efind;
        cbn [bind] in H; [|discriminate].
      injection H as <-. exists h. split; [|reflexivity].
      now apply (findHandicapNearLine_range lines i). }
  destruct Hh as (h & Hh & ->). destruct Hp as (Hnd & Hlen & Hhcp).
  split; [|split].
  - rewrite map_app. cbn [map Ocr.name].
    apply (Permutation_NoDup (Permutation_cons_append (map Ocr.name players) rawName)).
    constructor; [|exact Hnd].
    intros Hin. apply in_map_iff in Hin as (q & Hq & Hqin).
    assert (Hex : existsb (fun p => streq (Ocr.name p) rawName) players = true).
    { apply existsb_exists. exists q. split; [exact Hqin|]. now apply streq_true. }
    congruence.
  - apply Forall_app. split; [exact Hlen|]. constructor; [exact Hlong | constructor].
  - apply Forall_app. split; [exact Hhcp|]. constructor; [exact Hh | constructor].
Qed.

Lemma findPlayers_keeps (lines : list jsstring) :
  exists players,
    Ocr.findPlayers lines = Ok players
    /\ onLines lines players
    /\ NoDup (map Ocr.name players)
    /\ Forall (fun p => (2 <= length (Ocr.name p))%nat) players
    /\ Forall (fun p => 0 <= Ocr.handicap p <= 99) players.
Proof.
  unfold Ocr.findPlayers.
  destruct (forState_inv
              (fun ps => onLines lines ps
                         /\ NoDup (map Ocr.name ps)
                         /\ Forall (fun p => (2 <= length (Ocr.name p))%nat) ps
                         /\ Forall (fun p => 0 <= Ocr.handicap p <= 99) ps)
              (seq 0 (length lines)) (Ocr.scanLine lines)) with (s := @nil Ocr.ParsedPlayer)
    as (players & Hp & Hinv).
  - intros i s Hin (Hon & Hkeeps).
    destruct (scanLine_ok lines i s) as (s' & Hs' & Hon'); [|exact Hon|].
    { apply in_seq in Hin. lia. }
    exists s'. split; [exact Hs'|]. split; [exact Hon'|].
    exact (scanLine_keeps lines i s s' Hs' Hkeeps).
  - split; [constructor|]. split; [constructor|]. split; constructor.
  - exists players. split; [exact Hp | exact Hinv].
Qed.

Lemma pushScores_values (tokens : list jsstring) (targetHoles : Z) (scores : list Z) :
  Forall scoreValue scores -> Forall scoreValue (Ocr.pushScores tokens targetHoles scores).
Proof.
  revert scores; induction tokens as [|token rest IH]; intros scores Hs;
    cbn [Ocr.pushScores].
  - exact Hs.
  - destruct (parseInt token) as [n|]; [|now apply IH].
    destruct (Z.ltb_spec n 2) as [|Hlo]; cbn [orb]; [now apply IH|].
    destruct (Z.gtb_spec n 12) as [|Hhi]; [now apply IH|].
    assert (Hs' : Forall scoreValue (scores ++ [n])).
    { apply Forall_app. split; [exact Hs|]. constructor; [|constructor]. right. lia. }
    cbv zeta. destruct (Z.of_nat (length (scores ++ [n])) >=? targetHoles);
      [exact Hs' | now apply IH].
Qed.

Lemma scanScoreLines_values (allLines : list jsstring) (idxs : list nat) (targetHoles : Z)
      (scores found : list Z) :
  Ocr.scanScoreLines allLines idxs targetHoles scores = Ok found ->
  Forall scoreValue scores -> Forall scoreValue found.
Proof.
  revert scores; induction idxs as [|i rest IH]; intros scores H Hs;
    cbn [Ocr.scanScoreLines] in H.
  - now injection H as <-.
  - destruct (negb (Z.of_nat (length scores) <? targetHoles)); [now injection H as <-|].
    cbv zeta in H.
    destruct (existsb _ Ocr.nonScoreLabels); [now apply (IH scores)|].
    destruct (nth_error allLines i) as [line|]; [|discriminate].
    apply (IH _ H). now apply pushScores_values.
Qed.

Lemma extractScoresForPlayer_values (allLines : list jsstring) (startIndex endIndex : nat)
      (targetHoles : Z) (scores : list Z) :
  Ocr.extractScoresForPlayer allLines startIndex endIndex targetHoles = Ok scores ->
  Forall scoreValue scores.
Proof.
  unfold Ocr.extractScoresForPlayer. intros H.
  destruct (Ocr.scanScoreLines allLines _ targetHoles []) as [found|] eqn:Hfound;
    cbn [bind] in H; [|discriminate].
  apply scanScoreLines_values in Hfound; [|constructor].
  assert (Hall : Forall scoreValue
            (found ++ repeat 0 (Z.to_nat (targetHoles - Z.of_nat (length found))))).
  { apply Forall_app. split; [exact Hfound | apply scoreValue_zeros]. }
  cbv zeta in H.
  destruct (_ >? targetHoles).
  - destruct (targetHoles <? 0); [discriminate|]. injection H as <-.
    now apply Forall_firstn.
  - now injection H as <-.
Qed.

Lemma collectScores_values (lines : list jsstring) (players : list Ocr.ParsedPlayer)
      (holeCount : Z) (rows : list (list Z)) :
  Ocr.collectScores lines players holeCount = Ok rows ->
  Forall (Forall scoreValue) rows.
Proof.
  revert rows; induction players as [|p rest IH]; intros rows H;
    cbn [Ocr.collectScores] in H.
  - injection H as <-. constructor.
  - cbv zeta in H.
    destruct (Ocr.extractScoresForPlayer lines _ _ holeCount) as [scores|] eqn:Hs;
      cbn [bind] in H; [|discriminate].
    destruct (Ocr.collectScores lines rest holeCount) as [others|];
      cbn [bind] in H; [|discriminate].
    injection H as <-. constructor.
    + now apply extractScoresForPlayer_values in Hs.
    + now apply IH.
Qed.

(** What the line-based interpreter returns. *)
Lemma parseScorecard_shape (now : Z) (text : jsstring) :
  exists r,
    Ocr.parseScorecard now text = Ok r
    /\ NoDup (playerNames r)
    /\ Forall (fun n => (2 <= length n)%nat) (playerNames r)
    /\ length (playerHandicaps r) = length (playerNames r)
    /\ Forall (fun h => 0 <= h <= 99) (playerHandicaps r)
    /\ Forall (Forall scoreValue) (holeScores r)
    /\ (playerNames r = [] -> confidence r = 0.2%Q)
    /\ (playerNames r <> [] ->
        detectedHoleCount r = Ocr.inferHoleCount (textLines text)
        /\ (0.4 <= confidence r <= 0.7)%Q).
Proof.
  unfold Ocr.parseScorecard. cbv zeta.
  destruct (findPlayers_keeps (textLines text))
    as (players & Hp & Hon & Hnd & Hlen & Hhcp).
  rewrite Hp. cbn [bind].
  destruct players as [|p ps].
  - cbn [length Nat.eqb]. eexists. split; [reflexivity|].
    cbn [playerNames playerHandicaps holeScores confidence].
    repeat split; try constructor; try reflexivity; congruence.
  - cbn [length Nat.eqb].
    destruct (collectScores_ok (textLines text) (p :: ps)
                (Ocr.inferHoleCount (textLines text)) Hon) as (rows & Hrows & _ & _).
    { pose proof (inferHoleCount_range (textLines text)). lia. }
    rewrite Hrows. cbn [bind]. eexists. split; [reflexivity|].
    cbn [playerNames playerHandicaps holeScores detectedHoleCount confidence].
    split; [exact Hnd|]. split; [apply Forall_map; exact Hlen|].
    split; [now rewrite !length_map|]. split; [apply Forall_map; exact Hhcp|].
    split; [now apply collectScores_values in Hrows|].
    split; [discriminate|]. intros _. split; [reflexivity|].
    destruct (existsb _ rows); destruct ps as [|q [|q' ps']]; cbn; split; discriminate.
Qed.

End LineBased.

Section RowBased.
Context {rt : Runtime}.

Lemma rowNumbers_range (lo hi : Z) (row : list OcrBox.TextAnnotation) :
  Forall (fun n => lo <= n <= hi) (OcrBox.rowNumbers lo hi row).
Proof.
  unfold OcrBox.rowNumbers. apply Forall_forall. intros n Hn.
  apply in_flat_map in Hn as (a & _ & Ha).
  destruct (parseInt (OcrBox.description a)) as [v|]; [|contradiction].
  destruct (Z.leb_spec lo v); cbn [andb] in Ha; [|contradiction].
  destruct (Z.leb_spec v hi); [|contradiction].
  destruct Ha as [<- | []]. lia.
Qed.

Lemma extractScoresFromRow_values (row : list OcrBox.TextAnnotation) (holeCount : Z) :
  Forall scoreValue (OcrBox.extractScoresFromRow row holeCount).
Proof.
  unfold OcrBox.extractScoresFromRow, OcrBox.slice0. cbv zeta.
  assert (Hall : Forall scoreValue
            (OcrBox.rowNumbers 2 12 row
             ++ repeat 0 (Z.to_nat (holeCount
                                    - Z.of_nat (length (OcrBox.rowNumbers 2 12 row)))))).
  { apply Forall_app. split; [|apply scoreValue_zeros].
    eapply Forall_impl; [|apply rowNumbers_range]. intros n Hn. now right. }
  destruct (holeCount <? 0); now apply Forall_firstn.
Qed.

Lemma candidate_range (tokens : list OcrBox.Token) :
  0 <= match find (fun t => OcrBox.inBounds 0 36 (parseInt (OcrBox.text t))) tokens with
       | Some hcapCandidate =>
           match parseInt (OcrBox.text hcapCandidate) with Some n => n | None => 0 end
       | None => 0
       end <= 36.
Proof.
  destruct (find _ tokens) as [c|] eqn:E; [|lia].
  apply find_some in E as [_ Hc]. unfold OcrBox.inBounds in Hc.
  destruct (parseInt (OcrBox.text c)) as [n|]; [|discriminate]. lia.
Qed.

Lemma extractPlayer_shape (row : list OcrBox.TextAnnotation) (player : OcrBox.Player) :
  OcrBox.extractPlayer row = Ok player ->
  OcrBox.name player <> []
  /\ 0 <= OcrBox.handicap player <= 54
  /\ OcrBox.row player = row.
Proof.
  unfold OcrBox.extractPlayer. cbv zeta.
  match goal with
  | |- context [OcrBox.findIndex ?p ?tokens] =>
      match p with
      | context [OcrBox.reHcapOnly] =>
          generalize tokens; intros tokens'; destruct (OcrBox.findIndex p tokens') as [hcapIdx|]
      end
  end.
  - destruct (Z.of_nat hcapIdx <? Z.of_nat (length tokens') - 1).
    + destruct (at_ tokens' (hcapIdx + 1)) as [next|]; cbn [bind]; [|discriminate].
      intros [= <-]. cbn [OcrBox.name OcrBox.handicap OcrBox.row].
      split; [|split; [|reflexivity]].
      * match goal with |- match ?n with [] => _ | _ :: _ => _ end <> [] => destruct n end;
          discriminate.
      * unfold OcrBox.inBounds. destruct (parseInt (OcrBox.text next)) as [n|]; [|lia].
        destruct (Z.leb_spec 0 n); cbn [andb]; [|lia].
        destruct (Z.leb_spec n 54); lia.
    + cbn [bind]. intros [= <-]. cbn [OcrBox.name OcrBox.handicap OcrBox.row].
      split; [|split; [|reflexivity]].
      * match goal with |- match ?n with [] => _ | _ :: _ => _ end <> [] => destruct n end;
          discriminate.
      * pose proof (candidate_range tokens'). lia.
  - cbn [bind]. intros [= <-]. cbn [OcrBox.name OcrBox.handicap OcrBox.row].
    split; [|split; [|reflexivity]].
    + match goal with |- match ?n with [] => _ | _ :: _ => _ end <> [] => destruct n end;
        discriminate.
    + pose proof (candidate_range tokens'). lia.
Qed.

Lemma mapResult_Forall {A B} (f : A -> result B) (P : B -> Prop) (l : list A) (l' : list B) :
  (forall a b, f a = Ok b -> P b) ->
  OcrBox.mapResult f l = Ok l' -> Forall P l'.
Proof.
  intros Hf. revert l'; induction l as [|a rest IH]; intros l' H;
    cbn [OcrBox.mapResult] in H.
  - injection H as <-. constructor.
  - destruct (f a) as [b|] eqn:Hb; cbn [bind] in H; [|discriminate].
    destruct (OcrBox.mapResult f rest) as [bs|]; cbn [bind] in H; [|discriminate].
    injection H as <-. constructor; [now apply (Hf a) | now apply IH].
Qed.

Lemma fallback_scanLine_keeps (lines : list jsstring) (i : nat)
      (players players' : list (jsstring * Z)) :
  OcrBox.scanLine lines i players = Ok players' ->
  Forall (fun p => fst p <> [] /\ 0 <= snd p <= 99) players ->
  Forall (fun p => fst p <> [] /\ 0 <= snd p <= 99) players'.
Proof.
  unfold OcrBox.scanLine. cbv zeta.
  destruct (negb (testU (reKeyword "Name") (nth_error lines i)));
    [now intros [= <-]|].
  match goal with
  | |- bind (forReturn ?w ?b) _ = _ -> _ => destruct (forReturn w b) as [found|] eqn:E
  end; cbn [bind]; [|discriminate].
  intros [= <-] Hp. apply Forall_app. split; [exact Hp|].
  constructor; [|constructor]. cbn [fst snd]. split.
  - destruct (toUpperCase _); discriminate.
  - destruct found as [n|]; [|lia].
    apply forReturn_found in E as (j & _ & Hb).
    destruct (at_ lines j) as [l|]; cbn [bind] in Hb; [|discriminate].
    apply Ok_inj in Hb.
    eapply RegexExtra.capturedInt_range; [| | exact Hb];
      [reflexivity | exact reNumberThenCap_group].
Qed.

(** What the text fallback returns. *)
Lemma fallback_parseScorecard_shape (now : Z) (text : jsstring) :
  exists r,
    OcrBox.parseScorecard now text = Ok r
    /\ Forall (fun n => n <> []) (playerNames r)
    /\ length (playerHandicaps r) = length (playerNames r)
    /\ Forall (fun h => 0 <= h <= 99) (playerHandicaps r)
    /\ Forall (fun row => row = repeat 0 18) (holeScores r).
Proof.
  unfold OcrBox.parseScorecard. cbv zeta.
  destruct (forState_inv (Forall (fun p : jsstring * Z => fst p <> [] /\ 0 <= snd p <= 99))
              (seq 0 (length (textLines text)))
              (OcrBox.scanLine (textLines text))) with (s := @nil (jsstring * Z))
    as (players & Hp & Hinv).
  { intros i s _ Hs. destruct (fallback_scanLine_ok (textLines text) i s) as [s' Hs'].
    exists s'. split; [exact Hs'|]. exact (fallback_scanLine_keeps _ i s s' Hs' Hs). }
  { constructor. }
  rewrite Hp. cbn [bind]. eexists. split; [reflexivity|].
  cbn [playerNames playerHandicaps holeScores].
  split; [|split; [|split]].
  - apply Forall_map. eapply Forall_impl; [|exact Hinv]. now intros p [Hn _].
  - now rewrite !length_map.
  - apply Forall_map. eapply Forall_impl; [|exact Hinv]. now intros p [_ Hh].
  - apply Forall_map, Forall_forall. reflexivity.
Qed.

(** What the row-based interpreter returns. *)
Lemma parseScorecardWithBoundingBoxes_shape (now : Z)
      (annotations : list OcrBox.TextAnnotation) (fullText : jsstring) :
  exists r,
    OcrBox.parseScorecardWithBoundingBoxes now annotations fullText = Ok r
    /\ Forall (fun n => n <> []) (playerNames r)
    /\ length (playerNames r)
       = length (OcrBox.findPlayerRows (OcrBox.groupByRows annotations 20))
    /\ length (playerHandicaps r) = length (playerNames r)
    /\ Forall (fun h => 0 <= h <= 54) (playerHandicaps r)
    /\ Forall (Forall scoreValue) (holeScores r).
Proof.
  unfold OcrBox.parseScorecardWithBoundingBoxes. cbv zeta.
  destruct (mapResult_extractPlayer_ok
              (OcrBox.findPlayerRows (OcrBox.groupByRows annotations 20)))
    as (players & Hp & Hrows).
  rewrite Hp. cbn [bind].
  pose proof (mapResult_Forall OcrBox.extractPlayer
                (fun pl => OcrBox.name pl <> [] /\ 0 <= OcrBox.handicap pl <= 54)
                _ players
                (fun row pl H => let '(conj Hn (conj Hh _)) := extractPlayer_shape row pl H
                                 in conj Hn Hh) Hp) as Hall.
  eexists. split; [reflexivity|].
  cbn [playerNames playerHandicaps holeScores].
  split; [|split; [|split; [|split]]].
  - apply Forall_map. eapply Forall_impl; [|exact Hall]. now intros pl [Hn _].
  - rewrite <- Hrows. now rewrite !length_map.
  - now rewrite !length_map.
  - apply Forall_map. eapply Forall_impl; [|exact Hall]. now intros pl [_ Hh].
  - apply Forall_map, Forall_forall. intros pl _. apply extractScoresFromRow_values.
Qed.

End RowBased.

(** ** Rows of tokens *)

Lemma lastOf_snoc {A} (l : list A) (a : A) : lastOf (l ++ [a]) = Some a.
Proof.
  induction l as [|b rest IH]; [reflexivity|].
  cbn [app lastOf]. destruct (rest ++ [a]) eqn:E; [|exact IH].
  destruct rest; discriminate.
Qed.

Lemma chained_snoc (tol : Z) (row : list OcrBox.TextAnnotation) (ann : OcrBox.TextAnnotation) :
  chained tol row ->
  (forall a, lastOf row = Some a -> sameRow tol a ann = true) ->
  chained tol (row ++ [ann]).
Proof.
  induction row as [|a rest IH]; intros Hc Hlast.
  - cbn. split; exact I.
  - cbn [app chained] in *. destruct Hc as [Hhead Hc]. split.
    + destruct rest as [|b rest']; cbn [app].
      * apply Hlast. reflexivity.
      * exact Hhead.
    + apply IH; [exact Hc|]. intros a' Ha'. apply Hlast.
      cbn [lastOf]. destruct rest; [discriminate | exact Ha'].
Qed.

Lemma grouped_extend (tol : Z) (rows : list (list OcrBox.TextAnnotation))
      (cur : list OcrBox.TextAnnotation) (ann : OcrBox.TextAnnotation) :
  grouped tol (rows ++ [cur]) ->
  (forall a, lastOf cur = Some a -> sameRow tol a ann = true) ->
  grouped tol (rows ++ [cur ++ [ann]]).
Proof.
  induction rows as [|row rest IH]; intros Hg Hlast.
  - cbn [app grouped] in *. destruct Hg as (Hne & Hc & _ & _).
    split; [destruct cur; discriminate|]. split; [now apply chained_snoc|].
    split; exact I.
  - cbn [app grouped] in *. destruct Hg as (Hne & Hc & Hsep & Hg).
    split; [exact Hne|]. split; [exact Hc|]. split; [|now apply IH].
    destruct rest as [|next rest']; cbn [app] in *; [|exact Hsep].
    intros a b Ha Hb. apply (Hsep a b Ha).
    destruct Hg as (Hcur & _). destruct cur; [congruence | exact Hb].
Qed.

Lemma grouped_new_row (tol : Z) (rows : list (list OcrBox.TextAnnotation))
      (cur : list OcrBox.TextAnnotation) (ann : OcrBox.TextAnnotation) :
  grouped tol (rows ++ [cur]) ->
  (forall a, lastOf cur = Some a -> sameRow tol a ann = false) ->
  grouped tol ((rows ++ [cur]) ++ [[ann]]).
Proof.
  induction rows as [|row rest IH]; intros Hg Hlast.
  - cbn [app grouped] in *. destruct Hg as (Hne & Hc & _ & _).
    split; [exact Hne|]. split; [exact Hc|]. split.
    + intros a b Ha [= <-]. now apply Hlast.
    + split; [discriminate|]. split; [split; exact I|]. split; exact I.
  - cbn [app grouped] in *. destruct Hg as (Hne & Hc & Hsep & Hg).
    split; [exact Hne|]. split; [exact Hc|]. split; [|now apply IH].
    destruct rest as [|next rest']; cbn [app] in *; exact Hsep.
Qed.

(** The loop of [groupByRows], from any of its states. *)
Lemma groupByRows_loop (tol : Z) (l : list OcrBox.TextAnnotation) :
  forall (rows : list (list OcrBox.TextAnnotation)) (cur : list OcrBox.TextAnnotation)
         (lastY : option Z),
    (cur = [] -> rows = [] /\ lastY = Some (-1000)) ->
    (cur <> [] -> grouped tol (rows ++ [cur])
                  /\ exists a, lastOf cur = Some a /\ lastY = OcrBox.topY a) ->
    let '(rows', cur', _) :=
      fold_left
        (fun '(rows, currentRow, lastY) ann =>
           let y := OcrBox.topY ann in
           if OcrBox.isSentinel lastY || OcrBox.within y lastY tol
           then (rows, currentRow ++ [ann], y)
           else ((if (0 <? length currentRow)%nat then rows ++ [currentRow] else rows),
                 [ann], y))
        l (rows, cur, lastY) in
    concat rows' ++ cur' = concat rows ++ cur ++ l
    /\ (cur' = [] -> rows' = [] /\ cur = [] /\ l = [])
    /\ (cur' <> [] -> grouped tol (rows' ++ [cur'])).
Proof.
  induction l as [|ann rest IH]; intros rows cur lastY Hempty Hfull.
  - cbn [fold_left]. rewrite app_nil_r. split; [reflexivity|]. split.
    + intros ->. destruct (Hempty eq_refl) as [-> _]. repeat split.
    + intros Hne. now destruct (Hfull Hne).
  - cbn [fold_left]. cbv zeta.
    destruct cur as [|c cur'].
    + destruct (Hempty eq_refl) as [-> ->].
      change (OcrBox.isSentinel (Some (-1000))) with true. cbn [orb app].
      specialize (IH [] [ann] (OcrBox.topY ann)).
      destruct (fold_left _ rest ([], [ann], OcrBox.topY ann)) as [[rows' cur''] lastY'].
      destruct IH as (Hcat & Hnil & Hg).
      * discriminate.
      * intros _. split.
        -- cbn [app grouped]. split; [discriminate|]. split; [split; exact I|].
           split; exact I.
        -- exists ann. split; reflexivity.
      * split; [exact Hcat|]. split; [|exact Hg].
        intros Hc. destruct (Hnil Hc) as (_ & Habs & _). discriminate.
    + destruct (Hfull ltac:(discriminate)) as (Hg & a & Ha & ->).
      fold (sameRow tol a ann).
      destruct (sameRow tol a ann) eqn:Hsame.
      * specialize (IH rows ((c :: cur') ++ [ann]) (OcrBox.topY ann)).
        destruct (fold_left _ rest (rows, (c :: cur') ++ [ann], OcrBox.topY ann))
          as [[rows' cur''] lastY'].
        destruct IH as (Hcat & Hnil & Hg').
        -- discriminate.
        -- intros _. split.
           ++ apply grouped_extend; [exact Hg|]. intros a' Ha'. congruence.
           ++ exists ann. split; [apply lastOf_snoc | reflexivity].
        -- split; [rewrite Hcat; now rewrite <- !app_assoc|]. split; [|exact Hg'].
           intros Hc. destruct (Hnil Hc) as (_ & Habs & _). discriminate.
      * cbn [length Nat.ltb Nat.leb].
        specialize (IH (rows ++ [c :: cur']) [ann] (OcrBox.topY ann)).
        destruct (fold_left _ rest (rows ++ [c :: cur'], [ann], OcrBox.topY ann))
          as [[rows' cur''] lastY'].
        destruct IH as (Hcat & Hnil & Hg').
        -- discriminate.
        -- intros _. split.
           ++ apply grouped_new_row; [exact Hg|]. intros a' Ha'. congruence.
           ++ exists ann. split; reflexivity.
        -- split.
           ++ rewrite Hcat, concat_app. cbn [concat]. rewrite app_nil_r.
              now rewrite <- !app_assoc.
           ++ split; [|exact Hg'].
              intros Hc. destruct (Hnil Hc) as (_ & Habs & _). discriminate.
Qed.

(** X9. Grouping tokens into rows loses and repeats nothing: the rows, read
    one after the other, are the tokens sorted by their top edge (a stable
    sort), so every token is in exactly one row. No row is empty, inside a
    row every token is within the tolerance of the one before it, and a new
    row starts exactly where that test fails. *)
Theorem groupByRows_partition (annotations : list OcrBox.TextAnnotation) (tolerance : Z) :
  concat (OcrBox.groupByRows annotations tolerance)
  = sort (fun a b => OcrBox.compareCoord (OcrBox.topY a) (OcrBox.topY b)) annotations
  /\ Permutation (concat (OcrBox.groupByRows annotations tolerance)) annotations
  /\ grouped tolerance (OcrBox.groupByRows annotations tolerance)
  /\ (OcrBox.groupByRows annotations tolerance = [] <-> annotations = []).
Proof.
  assert (Hcat : concat (OcrBox.groupByRows annotations tolerance)
                 = sort (fun a b => OcrBox.compareCoord (OcrBox.topY a) (OcrBox.topY b))
                        annotations
                 /\ grouped tolerance (OcrBox.groupByRows annotations tolerance)).
  { unfold OcrBox.groupByRows. cbv zeta.
    pose proof (groupByRows_loop tolerance
                  (sort (fun a b => OcrBox.compareCoord (OcrBox.topY a) (OcrBox.topY b))
                        annotations)
                  [] [] (Some (-1000))) as Hloop.
    destruct (fold_left _ _ ([], [], Some (-1000))) as [[rows cur] lastY].
    destruct Hloop as (Hcat & Hnil & Hg).
    - intros _. split; reflexivity.
    - intros Hne. congruence.
    - cbn [concat app] in Hcat. destruct cur as [|c cur'].
      + cbn [length Nat.ltb Nat.leb]. destruct (Hnil eq_refl) as (-> & _ & Hl).
        rewrite Hl. split; [reflexivity | exact I].
      + cbn [length Nat.ltb Nat.leb]. rewrite concat_app. cbn [concat].
        rewrite app_nil_r. split; [exact Hcat|]. apply Hg. discriminate. }
  destruct Hcat as [Hcat Hg].
  assert (Hperm : Permutation (concat (OcrBox.groupByRows annotations tolerance))
                              annotations).
  { rewrite Hcat. apply RankingProps.sort_perm. }
  split; [exact Hcat|]. split; [exact Hperm|]. split; [exact Hg|]. split.
  - intros Hnil. rewrite Hnil in Hperm. cbn [concat] in Hperm.
    now apply Permutation_nil in Hperm.
  - intros ->. destruct (OcrBox.groupByRows [] tolerance) as [|row rows] eqn:E;
      [reflexivity|].
    cbn [grouped] in Hg. destruct Hg as (Hne & _).
    cbn [concat] in Hperm. apply Permutation_sym, Permutation_nil in Hperm.
    destruct row; [congruence | discriminate].
Qed.

(** X6. Every hole score an interpreter reports is 0 (not recovered) or a
    number from 2 to 12: the line-based and the row-based interpreter keep
    only the numbers in 2..12 and pad with zeros, and the text fallback
    reports eighteen zeros for every player. *)
Theorem recovered_scores_in_range {rt : Runtime} (now : Z) (text : jsstring)
    (annotations : list OcrBox.TextAnnotation) (fullText : jsstring) :
  (exists r, Ocr.parseScorecard now text = Ok r
             /\ Forall (Forall scoreValue) (holeScores r))
  /\ (exists r, OcrBox.parseScorecardWithBoundingBoxes now annotations fullText = Ok r
                /\ Forall (Forall scoreValue) (holeScores r))
  /\ (exists r, OcrBox.parseScorecard now fullText = Ok r
                /\ Forall (fun row => row = repeat 0 18) (holeScores r)).
Proof.
  split; [|split].
  - destruct (parseScorecard_shape now text) as (r & Hr & _ & _ & _ & _ & Hs & _).
    now exists r.
  - destruct (parseScorecardWithBoundingBoxes_shape now annotations fullText)
      as (r & Hr & _ & _ & _ & _ & Hs).
    now exists r.
  - destruct (fallback_parseScorecard_shape now fullText) as (r & Hr & _ & _ & _ & Hs).
    now exists r.
Qed.

(** X7. The player names of the line-based interpreter are pairwise
    distinct and at least two code units long (a repeated or shorter name is
    skipped); the row-based interpreter reports one player for every row it
    keeps, and neither it nor its text fallback ever reports an empty name,
    PLAYER standing in for a name that was not recovered. *)
Theorem player_names_shape {rt : Runtime} (now : Z) (text : jsstring)
    (annotations : list OcrBox.TextAnnotation) (fullText : jsstring) :
  (exists r, Ocr.parseScorecard now text = Ok r
             /\ NoDup (playerNames r)
             /\ Forall (fun n => (2 <= length n)%nat) (playerNames r))
  /\ (exists r, OcrBox.parseScorecardWithBoundingBoxes now annotations fullText = Ok r
                /\ Forall (fun n => n <> []) (playerNames r)
                /\ length (playerNames r)
                   = length (OcrBox.findPlayerRows (OcrBox.groupByRows annotations 20)))
  /\ (exists r, OcrBox.parseScorecard now fullText = Ok r
                /\ Forall (fun n => n <> []) (playerNames r)).
Proof.
  split; [|split].
  - destruct (parseScorecard_shape now text) as (r & Hr & Hnd & Hlen & _).
    now exists r.
  - destruct (parseScorecardWithBoundingBoxes_shape now annotations fullText)
      as (r & Hr & Hn & Hlen & _).
    now exists r.
  - destruct (fallback_parseScorecard_shape now fullText) as (r & Hr & Hn & _).
    now exists r.
Qed.

(** X8. Every player has a handicap and it is never negative: a number
    from 0 to 99 in the line-based interpreter and in the text fallback
    (one or two digits, 0 when none is found), from 0 to 54 in the row-based
    interpreter. *)
Theorem handicaps_in_range {rt : Runtime} (now : Z) (text : jsstring)
    (annotations : list OcrBox.TextAnnotation) (fullText : jsstring) :
  (exists r, Ocr.parseScorecard now text = Ok r
             /\ length (playerHandicaps r) = length (playerNames r)
             /\ Forall (fun h => 0 <= h <= 99) (playerHandicaps r))
  /\ (exists r, OcrBox.parseScorecardWithBoundingBoxes now annotations fullText = Ok r
                /\ length (playerHandicaps r) = length (playerNames r)
                /\ Forall (fun h => 0 <= h <= 54) (playerHandicaps r))
  /\ (exists r, OcrBox.parseScorecard now fullText = Ok r
                /\ length (playerHandicaps r) = length (playerNames r)
                /\ Forall (fun h => 0 <= h <= 99) (playerHandicaps r)).
Proof.
  split; [|split].
  - destruct (parseScorecard_shape now text) as (r & Hr & _ & _ & Hlen & Hh & _).
    now exists r.
  - destruct (parseScorecardWithBoundingBoxes_shape now annotations fullText)
      as (r & Hr & _ & _ & Hlen & Hh & _).
    now exists r.
  - destruct (fallback_parseScorecard_shape now fullText) as (r & Hr & _ & Hlen & Hh & _).
    now exists r.
Qed.

(** X17. The confidence of a result: the line-based interpreter reports
    0.2 without a player and between 0.4 and 0.7 with one; the row-based
    interpreter reports 0.4, 0.6 or 0.8, 0.4 exactly when it has fewer than
    two players and 0.8 only with three players or more and a score above 0;
    the text fallback reports 0.2 without a player and 0.4 with one. *)
Theorem confidence_levels {rt : Runtime} (now : Z) (text : jsstring)
    (annotations : list OcrBox.TextAnnotation) (fullText : jsstring) :
  (exists r, Ocr.parseScorecard now text = Ok r
             /\ (playerNames r = [] -> confidence r = 0.2%Q)
             /\ (playerNames r <> [] -> (0.4 <= confidence r <= 0.7)%Q))
  /\ (exists r, OcrBox.parseScorecardWithBoundingBoxes now annotations fullText = Ok r
                /\ (confidence r = 0.4%Q \/ confidence r = 0.6%Q \/ confidence r = 0.8%Q)
                /\ ((length (playerNames r) < 2)%nat <-> confidence r = 0.4%Q)
                /\ (confidence r = 0.8%Q ->
                    (3 <= length (playerNames r))%nat
                    /\ exists row score, In row (holeScores r) /\ In score row /\ 0 < score))
  /\ (exists r, OcrBox.parseScorecard now fullText = Ok r
                /\ (playerNames r = [] -> confidence r = 0.2%Q)
                /\ (playerNames r <> [] -> confidence r = 0.4%Q)).
Proof.
  split; [|split].
  - destruct (parseScorecard_shape now text) as (r & Hr & _ & _ & _ & _ & _ & H0 & H1).
    exists r. split; [exact Hr|]. split; [exact H0|]. intros Hne. now apply H1.
  - unfold OcrBox.parseScorecardWithBoundingBoxes. cbv zeta.
    destruct (mapResult_extractPlayer_ok
                (OcrBox.findPlayerRows (OcrBox.groupByRows annotations 20)))
      as (players & Hp & _).
    rewrite Hp. cbn [bind]. eexists. split; [reflexivity|].
    cbn [confidence playerNames holeScores]. rewrite length_map.
    match goal with
    | |- context [existsb ?f ?l] => destruct (existsb f l) eqn:Hreal
    end.
    + apply existsb_exists in Hreal as (row & Hrow & Hs).
      apply existsb_exists in Hs as (score & Hscore & Hpos).
      apply Z.gtb_lt in Hpos.
      destruct (Nat.leb_spec 3 (length players)) as [H3|H3]; cbn [andb].
      * split; [now right; right|]. split; [split; [lia | discriminate]|].
        intros _. split; [exact H3|]. now exists row, score.
      * destruct (Nat.leb_spec 2 (length players)) as [H2|H2].
        -- split; [now right; left|]. split; [split; [lia | discriminate]|]. discriminate.
        -- split; [now left|]. split; [split; [reflexivity | lia]|]. discriminate.
    + rewrite andb_false_r.
      destruct (Nat.leb_spec 2 (length players)) as [H2|H2].
      * split; [now right; left|]. split; [split; [lia | discriminate]|]. discriminate.
      * split; [now left|]. split; [split; [reflexivity | lia]|]. discriminate.
  - unfold OcrBox.parseScorecard. cbv zeta.
    destruct (fallback_parseScorecard_ok now fullText) as (r & Hr & _).
    unfold OcrBox.parseScorecard in Hr. cbv zeta in Hr.
    destruct (forState _ _ _) as [players|]; cbn [bind] in *; [|discriminate].
    eexists. split; [reflexivity|]. cbn [confidence playerNames].
    destruct players; cbn; split; congruence.
Qed.

(** ** Where the scores and the players come from *)

Lemma pushScores_from (P : Z -> Prop) (tokens : list jsstring) (targetHoles : Z)
      (scores : list Z) :
  Forall P scores ->
  (forall token n, In token tokens -> parseInt token = Some n -> 2 <= n <= 12 -> P n) ->
  Forall P (Ocr.pushScores tokens targetHoles scores).
Proof.
  revert scores; induction tokens as [|token rest IH]; intros scores Hs Htok;
    cbn [Ocr.pushScores].
  - exact Hs.
  - assert (Hrest : forall tk n, In tk rest -> parseInt tk = Some n -> 2 <= n <= 12 -> P n)
      by (intros tk n Hin; apply Htok; now right).
    destruct (parseInt token) as [n|] eqn:En; [|now apply IH].
    destruct (Z.ltb_spec n 2) as [|Hlo]; cbn [orb]; [now apply IH|].
    destruct (Z.gtb_spec n 12) as [|Hhi]; [now apply IH|].
    assert (Hs' : Forall P (scores ++ [n])).
    { apply Forall_app. split; [exact Hs|]. constructor; [|constructor].
      apply (Htok token n); [now left | exact En | lia]. }
    cbv zeta. destruct (Z.of_nat (length (scores ++ [n])) >=? targetHoles);
      [exact Hs' | now apply IH].
Qed.

Lemma scanScoreLines_from (P : Z -> Prop) (allLines : list jsstring) (idxs : list nat)
      (targetHoles : Z) (scores found : list Z) :
  (forall i line token n,
     In i idxs -> nth_error allLines i = Some line ->
     existsb (fun r => test r line) Ocr.nonScoreLabels = false ->
     In token (matchAll reNumber line) -> parseInt token = Some n -> 2 <= n <= 12 ->
     P n) ->
  Ocr.scanScoreLines allLines idxs targetHoles scores = Ok found ->
  Forall P scores -> Forall P found.
Proof.
  revert scores; induction idxs as [|i rest IH]; intros scores Hline H Hs;
    cbn [Ocr.scanScoreLines] in H.
  - now injection H as <-.
  - assert (Hrest : forall j line token n,
              In j rest -> nth_error allLines j = Some line ->
              existsb (fun r => test r line) Ocr.nonScoreLabels = false ->
              In token (matchAll reNumber line) -> parseInt token = Some n ->
              2 <= n <= 12 -> P n)
      by (intros j line token n Hj; apply Hline; now right).
    destruct (negb (Z.of_nat (length scores) <? targetHoles)); [now injection H as <-|].
    cbv zeta in H.
    destruct (nth_error allLines i) as [line|] eqn:El.
    + change (existsb (fun r => testU r (Some line)) Ocr.nonScoreLabels)
        with (existsb (fun r => test r line) Ocr.nonScoreLabels) in H.
      destruct (existsb (fun r => test r line) Ocr.nonScoreLabels) eqn:Elabel;
        [now apply (IH scores)|].
      apply (IH _ Hrest H). apply pushScores_from; [exact Hs|].
      intros token n Htok Hn Hrange.
      apply (Hline i line token n); try assumption. now left.
    + destruct (existsb _ Ocr.nonScoreLabels); [now apply (IH scores) | discriminate].
Qed.

(** X20. The scores the line-based interpreter gives a player come from the
    player's own block of lines: every score of the row is 0 (padding) or
    the number, from 2 to 12, of a one- or two-digit token on a line
    strictly between the player's line and the end of the block that carries
    none of the labels Name, Par, Index, Total, Point(s), Hcap, Heap. *)
Theorem scores_come_from_player_block {rt : Runtime} (allLines : list jsstring)
        (startIndex endIndex : nat) (targetHoles : Z) (scores : list Z) :
  Ocr.extractScoresForPlayer allLines startIndex endIndex targetHoles = Ok scores ->
  Forall (fun s => s = 0 \/ fromBlock allLines startIndex endIndex s) scores.
Proof.
  unfold Ocr.extractScoresForPlayer. intros H.
  destruct (Ocr.scanScoreLines allLines _ targetHoles []) as [found|] eqn:Hfound;
    cbn [bind] in H; [|discriminate].
  apply (scanScoreLines_from
           (fun s => s = 0 \/ fromBlock allLines startIndex endIndex s)) in Hfound;
    [| |constructor].
  - assert (Hall : Forall (fun s => s = 0 \/ fromBlock allLines startIndex endIndex s)
              (found ++ repeat 0 (Z.to_nat (targetHoles - Z.of_nat (length found))))).
    { apply Forall_app. split; [exact Hfound|].
      apply Forall_forall. intros s Hs. apply repeat_spec in Hs. now left. }
    cbv zeta in H. destruct (_ >? targetHoles).
    + destruct (targetHoles <? 0); [discriminate|]. injection H as <-.
      now apply Forall_firstn.
    + now injection H as <-.
  - intros i line token n Hi Hl Hlabel Htok Hn Hrange. right.
    exists i, line, token. apply in_seq in Hi. repeat split; try assumption; lia.
Qed.

Lemma scores_come_from_player_block_witness :
  Forall (fun s => s = 0 \/ fromBlock sampleLines 0 2 s) [4; 5; 3].
Proof.
  apply (scores_come_from_player_block (rt := asciiRuntime) sampleLines 0 2 3).
  vm_compute. reflexivity.
Defined.

Lemma forState_idle {S} (idxs : list nat) (body : nat -> S -> result S) (s : S) :
  (forall i, In i idxs -> body i s = Ok s) -> forState idxs body s = Ok s.
Proof.
  induction idxs as [|i rest IH]; intros Hbody; cbn [forState]; [reflexivity|].
  rewrite (Hbody i (or_introl eq_refl)). cbn [bind]. apply IH.
  intros j Hj. apply Hbody. now right.
Qed.

Lemma no_marker_at (lines : list jsstring) (i : nat) :
  Forall (fun line => test (reKeyword "Name") line = false) lines ->
  (i < length lines)%nat ->
  negb (testU (reKeyword "Name") (nth_error lines i)) = true.
Proof.
  intros Hall Hi. destruct (nth_error lines i) as [line|] eqn:E.
  - apply nth_error_In in E. rewrite Forall_forall in Hall.
    cbn [testU]. now rewrite (Hall line E).
  - apply nth_error_None in E. lia.
Qed.

(** X21. Without the word Name, no player: when no line of the text
    contains the word Name (in any case, as a whole word), the line-based
    interpreter returns its empty result (no players, hole count 0,
    confidence 0.2) and the text fallback returns no player either. *)
Theorem no_name_marker_no_player {rt : Runtime} (now : Z) (text : jsstring) :
  Forall (fun line => test (reKeyword "Name") line = false) (textLines text) ->
  Ocr.parseScorecard now text = Ok (emptyResult now)
  /\ exists r, OcrBox.parseScorecard now text = Ok r
               /\ playerNames r = [] /\ holeScores r = [] /\ confidence r = 0.2%Q.
Proof.
  intros Hall. split.
  - unfold Ocr.parseScorecard, Ocr.findPlayers. cbv zeta.
    rewrite forState_idle; [reflexivity|].
    intros i Hi. apply in_seq in Hi. unfold Ocr.scanLine.
    now rewrite (no_marker_at (textLines text) i Hall) by lia.
  - unfold OcrBox.parseScorecard. cbv zeta.
    rewrite forState_idle.
    + cbn [bind]. eexists. split; [reflexivity|]. repeat split.
    + intros i Hi. apply in_seq in Hi. unfold OcrBox.scanLine.
      now rewrite (no_marker_at (textLines text) i Hall) by lia.
Qed.

(** A card that shows three scores and no name marker. *)
Lemma no_name_marker_no_player_witness :
  Ocr.parseScorecard (rt := asciiRuntime) 0 (lit "4 5 3") = Ok (emptyResult 0).
Proof.
  apply (no_name_marker_no_player (rt := asciiRuntime) 0 (lit "4 5 3")).
  vm_compute. repeat constructor.
Defined.

(** ** The lines of the text *)

Lemma replace_carriage_returns (rest : jsstring) (prev : option char) :
  replaceFrom (chr 13%N) [] prev rest 0 = filter (fun c => negb (c =? 13)%N) rest.
Proof.
  revert prev; induction rest as [|c t IH]; intros prev; cbn [replaceFrom filter].
  - reflexivity.
  - unfold matchAt, chr. cbn [run Js.rest].
    destruct (c =? 13)%N; cbn [negb].
    + cbn [Js.rest]. unfold consumed. cbn [length].
      replace (S (length t) - length t)%nat with 1%nat by lia.
      cbn [firstn length Nat.pred app]. apply IH.
    + f_equal. apply IH.
Qed.

Lemma split_pieces (s piece : jsstring) (c : char) :
  In piece (split 10%N s) -> In c piece -> In c s /\ c <> 10%N.
Proof.
  revert piece; induction s as [|d t IH]; intros piece Hp Hc; cbn [split] in Hp.
  - destruct Hp as [<- | []]. contradiction.
  - destruct (N.eqb_spec d 10) as [->|Hd].
    + destruct Hp as [<- | Hp]; [contradiction|].
      destruct (IH piece Hp Hc) as [Hin Hne]. split; [now right | exact Hne].
    + destruct (split 10%N t) as [|p ps] eqn:E.
      * destruct Hp as [<- | []]. destruct Hc as [<- | []]. split; [now left | exact Hd].
      * destruct Hp as [<- | Hp].
        -- destruct Hc as [<- | Hc]; [split; [now left | exact Hd]|].
           destruct (IH p (or_introl eq_refl) Hc) as [Hin Hne].
           split; [now right | exact Hne].
        -- destruct (IH piece (or_intror Hp) Hc) as [Hin Hne].
           split; [now right | exact Hne].
Qed.

Lemma dropWhile_suffix {A} (p : A -> bool) (l : list A) :
  (exists pre, l = pre ++ dropWhile p l)
  /\ (forall c, hd_error (dropWhile p l) = Some c -> p c = false).
Proof.
  induction l as [|a rest [[pre Hpre] Hhd]]; cbn [dropWhile].
  - split; [now exists [] | discriminate].
  - destruct (p a) eqn:Ha.
    + split; [|exact Hhd]. exists (a :: pre). cbn [app]. now f_equal.
    + split; [now exists []|]. intros c [= <-]. exact Ha.
Qed.

Lemma lastOf_rev {A} (l : list A) : lastOf (rev l) = hd_error l.
Proof. destruct l as [|a rest]; [reflexivity|]. cbn [rev]. apply lastOf_snoc. Qed.

Lemma trim_shape (s : jsstring) :
  (forall c, In c (trim s) -> In c s)
  /\ (forall c, hd_error (trim s) = Some c -> isSpace c = false)
  /\ (forall c, lastOf (trim s) = Some c -> isSpace c = false).
Proof.
  unfold trim.
  destruct (dropWhile_suffix isSpace s) as [[pre1 H1] Hhd1].
  destruct (dropWhile_suffix isSpace (rev (dropWhile isSpace s))) as [[pre2 H2] Hhd2].
  set (a := dropWhile isSpace s) in *.
  set (b := dropWhile isSpace (rev a)) in *.
  assert (Ha : a = rev b ++ rev pre2).
  { rewrite <- (rev_involutive a), H2, rev_app_distr. reflexivity. }
  split; [|split].
  - intros c Hc. rewrite H1. apply in_or_app. right.
    rewrite Ha. apply in_or_app. now left.
  - intros c Hc. apply Hhd1. rewrite Ha.
    destruct (rev b); [discriminate | exact Hc].
  - intros c Hc. rewrite lastOf_rev in Hc. now apply Hhd2.
Qed.

(** X18. The lines both interpreters work on: no line is empty, none
    contains a carriage return or a line feed, and none begins or ends with
    white space. *)
Theorem textLines_clean (text : jsstring) :
  Forall (fun line =>
            line <> []
            /\ Forall (fun c => c <> 10%N /\ c <> 13%N) line
            /\ (forall c, hd_error line = Some c -> isSpace c = false)
            /\ (forall c, lastOf line = Some c -> isSpace c = false))
         (textLines text).
Proof.
  unfold textLines. cbv zeta. apply Forall_forall. intros line Hline.
  apply filter_In in Hline as [Hline Hlen].
  apply in_map_iff in Hline as (piece & <- & Hpiece).
  destruct (trim_shape piece) as (Hin & Hhd & Hlast).
  split; [|split; [|split; assumption]].
  - destruct (trim piece); [discriminate | discriminate].
  - apply Forall_forall. intros c Hc. apply Hin in Hc.
    destruct (split_pieces _ piece c Hpiece Hc) as [Htext Hlf].
    split; [exact Hlf|].
    unfold replaceAll in Htext. rewrite replace_carriage_returns in Htext.
    apply filter_In in Htext as [_ Hcr]. intros ->. discriminate.
Qed.

End OcrExtra.

(* ===================================================================== *)
(** * Ranks applied to teams (rankingHelper.ts) *)
(* ===================================================================== *)

Module RankingExtra.
Import Ranking RankingSpec RankingProps RankingHelper.

Lemma ids_of_combine (l : list TeamForRanking) (k : nat) :
  map teamId (map (fun p => {| teamId := id (snd p); rank := Z.of_nat (fst p) |})
                  (combine (seq k (length l)) l))
  = map id l.
Proof.
  revert k; induction l as [|t ts IH]; intros k; simpl.
  - reflexivity.
  - f_equal. apply IH.
Qed.

Lemma ranksFromOne_ids (l : list TeamForRanking) : map teamId (ranksFromOne l) = map id l.
Proof. apply ids_of_combine. Qed.

Lemma ranksFromOne_bounds (l : list TeamForRanking) (r : Ranking) :
  In r (ranksFromOne l) -> 1 <= rank r <= Z.of_nat (length l).
Proof.
  intros Hin. apply (in_map rank) in Hin. rewrite ranksFromOne_ranks in Hin.
  apply in_map_iff in Hin as (n & <- & Hn). apply in_seq in Hn. lia.
Qed.

Lemma formats_partition (teams : list TeamForRanking) :
  Permutation (filter isStraight teams ++ filter isChampagne teams) teams.
Proof.
  induction teams as [|t ts IH]; [constructor|].
  cbn [filter]. unfold isStraight at 1, isChampagne at 1.
  destruct (scrambleMode t); cbn [Scoring.ScrambleMode_eqb].
  - cbn [app]. now constructor.
  - apply Permutation_sym, Permutation_cons_app, Permutation_sym, IH.
Qed.

Lemma rankTeams_ids (teams : list TeamForRanking) :
  Permutation (map teamId (rankTeams teams)) (map id teams).
Proof.
  rewrite rankTeams_unfold, map_app, !ranksFromOne_ids, <- map_app.
  apply Permutation_map.
  rewrite (sort_perm straightCompare), (sort_perm champagneCompare).
  apply formats_partition.
Qed.

Lemma rankTeams_length (teams : list TeamForRanking) :
  length (rankTeams teams) = length teams.
Proof.
  rewrite <- (length_map teamId), (Permutation_length (rankTeams_ids teams)).
  apply length_map.
Qed.

Lemma rankTeams_bounds (teams : list TeamForRanking) (r : Ranking) :
  In r (rankTeams teams) -> 1 <= rank r <= Z.of_nat (length teams).
Proof.
  rewrite rankTeams_unfold. intros Hin.
  pose proof (Permutation_length (formats_partition teams)) as Hlen.
  rewrite length_app in Hlen.
  apply in_app_or in Hin as [Hin | Hin]; apply ranksFromOne_bounds in Hin;
    rewrite sort_length in Hin; lia.
Qed.

(** Looking a key up in the entries a map was built from. *)
Lemma unique_value {K V} (l : list (K * V)) (k : K) (v v' : V) :
  NoDup (map fst l) -> In (k, v) l -> In (k, v') l -> v = v'.
Proof.
  induction l as [|[k0 v0] rest IH]; intros Hnd Hv Hv'; [contradiction|].
  cbn [map fst] in Hnd. inversion Hnd as [|? ? Hnotin Hnd']; subst.
  destruct Hv as [Hv | Hv], Hv' as [Hv' | Hv'].
  - congruence.
  - injection Hv as -> ->. exfalso. apply Hnotin.
    now apply (in_map fst) in Hv'.
  - injection Hv' as -> ->. exfalso. apply Hnotin.
    now apply (in_map fst) in Hv.
  - now apply IH.
Qed.

Lemma find_key (l : list (Z * Z)) (key : Z) :
  In key (map fst l) ->
  exists v, option_map snd (find (fun e => fst e =? key) l) = Some v /\ In (key, v) l.
Proof.
  intros Hin. destruct (find (fun e => fst e =? key) l) as [[k v]|] eqn:E.
  - apply find_some in E as [He Hk]. cbn [fst] in Hk. apply Z.eqb_eq in Hk. subst k.
    exists v. split; [reflexivity | exact He].
  - apply in_map_iff in Hin as ([k v] & Hk & He). cbn [fst] in Hk. subst k.
    pose proof (find_none _ _ E _ He) as Hnone. cbn [fst] in Hnone.
    rewrite Z.eqb_refl in Hnone. discriminate.
Qed.

Lemma mapGet_In (entries : list (Z * Z)) (key : Z) :
  In key (map fst entries) ->
  exists v, mapGet entries key = Some v /\ In (key, v) entries.
Proof.
  intros Hin. unfold mapGet.
  destruct (find_key (rev entries) key) as (v & Hv & He).
  - rewrite map_rev. now apply in_rev in Hin.
  - exists v. split; [exact Hv|]. now apply in_rev.
Qed.

Lemma entry_of_ranking (rankings : list Ranking) (k v : Z) :
  In (k, v) (map (fun r => (teamId r, rank r)) rankings)
  <-> In {| teamId := k; rank := v |} rankings.
Proof.
  rewrite in_map_iff. split.
  - intros ([k' v'] & [= -> ->] & Hin). exact Hin.
  - intros Hin. now exists {| teamId := k; rank := v |}.
Qed.

Lemma keys_of_rankings (rankings : list Ranking) :
  map fst (map (fun r => (teamId r, rank r)) rankings) = map teamId rankings.
Proof. rewrite map_map. reflexivity. Qed.

(** X10. [applyRankings] returns the teams it was given, in their order,
    each with a rank that [rankTeams] gave to a team of the same id: a
    number from 1 to the number of teams, so the fallback rank 0 is never
    used. When the ids are distinct the ranks are exactly those of
    [rankTeams]. *)
Theorem applyRankings_ranks {T : Type} (fields : T -> TeamForRanking) (teams : list T) :
  map fst (applyRankings fields teams) = teams
  /\ (forall t r, In (t, r) (applyRankings fields teams) ->
        In t teams
        /\ 1 <= r <= Z.of_nat (length teams)
        /\ In {| teamId := id (fields t); rank := r |} (rankTeams (map fields teams)))
  /\ (NoDup (map (fun t => id (fields t)) teams) ->
      forall t r,
        In t teams ->
        In {| teamId := id (fields t); rank := r |} (rankTeams (map fields teams)) ->
        In (t, r) (applyRankings fields teams)).
Proof.
  unfold applyRankings. destruct teams as [|t0 ts].
  { cbn [length Nat.eqb map]. repeat split; contradiction. }
  cbn [length Nat.eqb]. cbv zeta.
  set (teams := t0 :: ts).
  set (rankings := rankTeams (map fields teams)).
  set (rankMap := map (fun r => (teamId r, rank r)) rankings).
  assert (Hkey : forall t, In t teams -> In (id (fields t)) (map fst rankMap)).
  { intros t Ht. unfold rankMap. rewrite keys_of_rankings.
    apply (Permutation_in _ (Permutation_sym (rankTeams_ids (map fields teams)))).
    rewrite map_map. now apply (in_map (fun t => id (fields t))). }
  split; [|split].
  - rewrite map_map. cbn [fst]. apply map_id.
  - intros t r Hin. apply in_map_iff in Hin as (t' & [= -> <-] & Ht).
    destruct (mapGet_In rankMap (id (fields t)) (Hkey t Ht)) as (v & Hv & He).
    rewrite Hv. cbn [orZero]. apply entry_of_ranking in He.
    split; [exact Ht|]. split; [|exact He].
    pose proof (rankTeams_bounds (map fields teams) _ He) as Hb.
    cbn [rank] in Hb. rewrite length_map in Hb. exact Hb.
  - intros Hnd t r Ht Hr. apply in_map_iff. exists t. split; [|exact Ht].
    destruct (mapGet_In rankMap (id (fields t)) (Hkey t Ht)) as (v & Hv & He).
    rewrite Hv. cbn [orZero]. f_equal.
    apply (unique_value rankMap (id (fields t)) v r); [|exact He|].
    + unfold rankMap. rewrite keys_of_rankings.
      apply (Permutation_NoDup (Permutation_sym (rankTeams_ids (map fields teams)))).
      now rewrite map_map.
    + now apply entry_of_ranking.
Qed.

(** The five mixed teams: the first, a straight team with net 70, is third
    of its format. *)
Lemma applyRankings_ranks_witness :
  In ({| id := 1; scrambleMode := Scoring.straight; netScore := Some 70;
         pointsTotal := None; grossTotal := 75; teamHandicap := 5 |}, 3)
     (applyRankings (fun t => t) mixedTeams).
Proof.
  apply (proj2 (proj2 (applyRankings_ranks (fun t => t) mixedTeams))).
  - repeat constructor; simpl; intuition discriminate.
  - simpl. now left.
  - vm_compute. intuition.
Defined.

(** ** Ranks and scores *)

Lemma combine_seq_In {A} (l : list A) (k m : nat) (t : A) :
  In (m, t) (combine (seq k (length l)) l) ->
  exists n, m = (k + n)%nat /\ nth_error l n = Some t.
Proof.
  revert k; induction l as [|a rest IH]; intros k Hin; cbn in Hin; [contradiction|].
  destruct Hin as [[= <- <-] | Hin].
  - exists 0%nat. split; [lia | reflexivity].
  - destruct (IH (S k) Hin) as (n & -> & Hn). exists (S n). split; [lia | exact Hn].
Qed.

Lemma position_of_entry (l : list TeamForRanking) (k r : Z) :
  In {| teamId := k; rank := r |} (ranksFromOne l) ->
  exists n t, nth_error l n = Some t /\ id t = k /\ r = Z.of_nat (S n).
Proof.
  unfold ranksFromOne. intros Hin. apply in_map_iff in Hin as ([m t] & [= <- <-] & Hin).
  apply combine_seq_In in Hin as (n & -> & Hn). now exists n, t.
Qed.

Lemma sorted_positions {A} (R : A -> A -> Prop) (l : list A) :
  StronglySorted R l ->
  forall i j a b, (i < j)%nat -> nth_error l i = Some a -> nth_error l j = Some b -> R a b.
Proof.
  induction 1 as [|x l Hs IH Hx]; intros i j a b Hij Ha Hb.
  - destruct i; discriminate.
  - destruct j as [|j]; [lia|]. cbn [nth_error] in Hb. destruct i as [|i].
    + injection Ha as <-. rewrite Forall_forall in Hx. apply Hx.
      now apply nth_error_In in Hb.
    + cbn [nth_error] in Ha. apply (IH i j); [lia | exact Ha | exact Hb].
Qed.

Lemma same_id_same_team (teams : list TeamForRanking) (a b : TeamForRanking) :
  NoDup (map id teams) -> In a teams -> In b teams -> id a = id b -> a = b.
Proof.
  induction teams as [|t ts IH]; intros Hnd Ha Hb Hid; [contradiction|].
  cbn [map] in Hnd. inversion Hnd as [|? ? Hnotin Hnd']; subst.
  destruct Ha as [<- | Ha], Hb as [<- | Hb].
  - reflexivity.
  - exfalso. apply Hnotin. rewrite Hid. now apply in_map.
  - exfalso. apply Hnotin. rewrite <- Hid. now apply in_map.
  - now apply IH.
Qed.

Lemma ranks_follow_order (R : TeamForRanking -> TeamForRanking -> Prop)
      (teams sorted : list TeamForRanking) (a b : TeamForRanking) (ra rb : Z) :
  NoDup (map id teams) ->
  (forall t, In t sorted -> In t teams) ->
  StronglySorted R sorted ->
  In a teams -> In b teams ->
  In {| teamId := id a; rank := ra |} (ranksFromOne sorted) ->
  In {| teamId := id b; rank := rb |} (ranksFromOne sorted) ->
  R a b -> ~ R b a -> ra < rb.
Proof.
  intros Hnd Hsub Hs Ha Hb Hra Hrb Hab Hba.
  apply position_of_entry in Hra as (i & ta & Hi & Hida & ->).
  apply position_of_entry in Hrb as (j & tb & Hj & Hidb & ->).
  assert (ta = a).
  { apply (same_id_same_team teams); try assumption.
    apply Hsub. now apply nth_error_In in Hi. }
  assert (tb = b).
  { apply (same_id_same_team teams); try assumption.
    apply Hsub. now apply nth_error_In in Hj. }
  subst ta tb.
  destruct (Nat.lt_total i j) as [Hlt | [Heq | Hgt]]; [lia | |].
  - subst j. rewrite Hi in Hj. injection Hj as <-. contradiction.
  - exfalso. apply Hba. exact (sorted_positions R sorted Hs j i b a Hgt Hj Hi).
Qed.

Lemma entry_of_format (teams : list TeamForRanking) (a : TeamForRanking) (ra : Z) :
  NoDup (map id teams) -> In a teams ->
  In {| teamId := id a; rank := ra |} (rankTeams teams) ->
  match scrambleMode a with
  | Scoring.straight =>
      In {| teamId := id a; rank := ra |}
         (ranksFromOne (sort straightCompare (filter isStraight teams)))
  | Scoring.champagne =>
      In {| teamId := id a; rank := ra |}
         (ranksFromOne (sort champagneCompare (filter isChampagne teams)))
  end.
Proof.
  intros Hnd Ha Hin. rewrite rankTeams_unfold in Hin.
  assert (Hother : forall (cmp : TeamForRanking -> TeamForRanking -> Z)
                          (keep : TeamForRanking -> bool),
             In {| teamId := id a; rank := ra |}
                (ranksFromOne (sort cmp (filter keep teams))) -> keep a = true).
  { intros cmp keep He. apply position_of_entry in He as (n & t & Hn & Hid & _).
    apply nth_error_In in Hn.
    apply (Permutation_in _ (sort_perm cmp (filter keep teams))) in Hn.
    apply filter_In in Hn as [Ht Hkeep].
    now rewrite <- (same_id_same_team teams t a Hnd Ht Ha Hid). }
  apply in_app_or in Hin as [Hin | Hin].
  - pose proof (Hother _ _ Hin) as Hk. unfold isStraight in Hk.
    destruct (scrambleMode a); [exact Hin | discriminate].
  - pose proof (Hother _ _ Hin) as Hk. unfold isChampagne in Hk.
    destruct (scrambleMode a); [discriminate | exact Hin].
Qed.

(** X19. Ranks follow scores. Among teams with distinct ids that carry the
    metric of their format, a team that comes strictly before another team
    of the same format in the order of that format (lower net score for
    straight, higher points total for champagne, then lower gross total,
    then lower team handicap) has a strictly smaller rank. *)
Theorem better_score_better_rank (teams : list TeamForRanking)
        (a b : TeamForRanking) (ra rb : Z) :
  NoDup (map id teams) ->
  Forall hasMetric teams ->
  In a teams -> In b teams ->
  scrambleMode a = scrambleMode b ->
  In {| teamId := id a; rank := ra |} (rankTeams teams) ->
  In {| teamId := id b; rank := rb |} (rankTeams teams) ->
  match scrambleMode a with
  | Scoring.straight => straightOrder a b /\ ~ straightOrder b a
  | Scoring.champagne => champagneOrder a b /\ ~ champagneOrder b a
  end ->
  ra < rb.
Proof.
  intros Hnd Hm Ha Hb Hmode Hra Hrb Hbetter.
  apply (entry_of_format teams a ra Hnd Ha) in Hra.
  apply (entry_of_format teams b rb Hnd Hb) in Hrb.
  rewrite <- Hmode in Hrb.
  destruct (scrambleMode a); destruct Hbetter as [Hab Hba].
  - apply (ranks_follow_order straightOrder teams
             (sort straightCompare (filter isStraight teams)) a b); try assumption.
    + intros t Ht. apply (Permutation_in _ (sort_perm _ _)) in Ht.
      now apply filter_In in Ht.
    + apply (sort_sorted straightCompare straightOrder (fun t => netScore t <> None)).
      * exact straightCompare_le.
      * exact straightCompare_gt.
      * exact straightOrder_trans.
      * now apply metric_of_straight.
  - apply (ranks_follow_order champagneOrder teams
             (sort champagneCompare (filter isChampagne teams)) a b); try assumption.
    + intros t Ht. apply (Permutation_in _ (sort_perm _ _)) in Ht.
      now apply filter_In in Ht.
    + apply (sort_sorted champagneCompare champagneOrder (fun t => pointsTotal t <> None)).
      * exact champagneCompare_le.
      * exact champagneCompare_gt.
      * exact champagneOrder_trans.
      * now apply metric_of_champagne.
Qed.

(** Of the five mixed teams, the straight team with net 68 is ranked before
    the one with net 70 and gross 75. *)
Lemma better_score_better_rank_witness :
  In {| teamId := 3; rank := 1 |} (rankTeams mixedTeams)
  /\ In {| teamId := 1; rank := 3 |} (rankTeams mixedTeams)
  /\ 1 < 3.
Proof.
  split; [vm_compute; tauto|]. split; [vm_compute; tauto|].
  apply (better_score_better_rank mixedTeams
           {| id := 3; scrambleMode := Scoring.straight; netScore := Some 68;
              pointsTotal := None; grossTotal := 72; teamHandicap := 4 |}
           {| id := 1; scrambleMode := Scoring.straight; netScore := Some 70;
              pointsTotal := None; grossTotal := 75; teamHandicap := 5 |}
           1 3).
  - repeat constructor; simpl; intuition discriminate.
  - repeat constructor; simpl; discriminate.
  - simpl. tauto.
  - simpl. tauto.
  - reflexivity.
  - vm_compute. tauto.
  - vm_compute. tauto.
  - cbn [scrambleMode]. unfold straightOrder, tieBreakOrder. cbn. lia.
Defined.

End RankingExtra.

(* ===================================================================== *)
(** * From an interpretation result to a team record (the upload handler) *)
(* ===================================================================== *)

Module UploadExtra.
Import Spec ExtraSpec RankingSpec.

Lemma indexed_values {A B} (f : option A -> B) (pre l : list A) (names : list jsstring) :
  length l = length names ->
  map (fun '(idx, _) => f (index (pre ++ l) idx)) (withIndex (Z.of_nat (length pre)) names)
  = map (fun a => f (Some a)) l.
Proof.
  revert pre l; induction names as [|n ns IH]; intros pre l Hlen.
  - destruct l; [reflexivity | discriminate].
  - destruct l as [|a l']; [discriminate|]. cbn [withIndex map]. f_equal.
    + unfold index. destruct (Z.ltb_spec (Z.of_nat (length pre)) 0); [lia|].
      rewrite Nat2Z.id, nth_error_app2, Nat.sub_diag by lia. reflexivity.
    + specialize (IH (pre ++ [a]) l' ltac:(simpl in Hlen; lia)).
      rewrite <- app_assoc in IH. cbn [app] in IH.
      rewrite length_app in IH. cbn [length] in IH.
      replace (Z.of_nat (length pre) + 1) with (Z.of_nat (length pre + 1)) by lia.
      exact IH.
Qed.

Lemma scoringPlayers_handicaps (names : list jsstring) (handicaps : list Z)
      (scores : list (list Z)) :
  length handicaps = length names ->
  map Scoring.handicap (UploadHandler.scoringPlayers names handicaps scores) = handicaps.
Proof.
  intros Hlen. unfold UploadHandler.scoringPlayers. rewrite map_map.
  transitivity (map (fun a => match Some a with Some h => h | None => 0 end) handicaps);
    [|apply map_id].
  rewrite <- (indexed_values (fun o => match o with Some h => h | None => 0 end)
                [] handicaps names Hlen).
  apply map_ext. now intros [idx name].
Qed.

Lemma sum_of_values (l : list Z) (lo hi : Z) :
  Forall (fun v => lo <= v <= hi) l ->
  lo * Z.of_nat (length l) <= sumZ l <= hi * Z.of_nat (length l).
Proof.
  induction 1 as [|v l Hv _ IH]; cbn [sumZ fold_right length]; [lia|].
  fold (sumZ l). lia.
Qed.

Section WithRuntime.
Context {rt : Js.Runtime} {json_rt : Json.Runtime}.

(** X11. The upload handler fails exactly when the interpretation has no
    player. Otherwise it hands over a team record of rank 0 for the given event and format, with the detected
    hole count (18 when that is 0), the interpretation's label (Team when
    there is none) and the metric of its format: the net score, gross total
    less team handicap, for a straight scramble, a points total between 0
    and 6 a hole for a champagne scramble. *)
Theorem teamFromOcr_outcome (eventId : Z) (mode : Scoring.ScrambleMode)
        (ocrData : OCRResult) :
  (playerNames ocrData = [] -> UploadHandler.teamFromOcr eventId mode ocrData = Throw)
  /\ (playerNames ocrData <> [] ->
      exists t,
        UploadHandler.teamFromOcr eventId mode ocrData = Ok t
        /\ UploadHandler.rank t = 0
        /\ UploadHandler.eventId t = eventId
        /\ UploadHandler.scrambleMode t = mode
        /\ UploadHandler.holeCount t
           = (if detectedHoleCount ocrData =? 0 then 18 else detectedHoleCount ocrData)
        /\ UploadHandler.teamName t = match teamName ocrData with
                                      | Some (c :: label) => c :: label
                                      | Some [] | None => lit "Team"
                                      end
        /\ (forall key, hasMetric (storedFields key t))
        /\ match mode with
           | Scoring.straight =>
               UploadHandler.netScore t
               = Some (UploadHandler.grossTotal t - UploadHandler.teamHandicap t)
               /\ UploadHandler.pointsTotal t = None
           | Scoring.champagne =>
               UploadHandler.netScore t = None
               /\ exists pts, UploadHandler.pointsTotal t = Some pts
                              /\ 0 <= pts <= 6 * Z.max 0 (UploadHandler.holeCount t)
           end).
Proof.
  destruct ocrData as [names hs scores detected label conf].
  unfold UploadHandler.teamFromOcr. cbn [playerNames detectedHoleCount teamName].
  split; [intros ->; reflexivity|].
  intros Hne. destruct names as [|n ns]; [congruence|]. cbn [length Nat.eqb].
  unfold Scoring.calculateTeamScore. cbn [Scoring.scrambleMode].
  destruct mode.
  - match goal with
    | |- context [Scoring.calculateStraightScramble ?tm] =>
        destruct (ScoringExtra.straight_returns tm _ _ eq_refl)
          as (r & Hr & _ & _ & Hnet & Hpts)
    end.
    rewrite Hr. cbn [bind]. eexists. split; [reflexivity|].
    cbn [UploadHandler.rank UploadHandler.eventId UploadHandler.scrambleMode
         UploadHandler.holeCount UploadHandler.teamName UploadHandler.netScore
         UploadHandler.pointsTotal UploadHandler.grossTotal UploadHandler.teamHandicap].
    repeat split; try assumption.
    intros key. unfold hasMetric, storedFields. cbn. rewrite Hnet. discriminate.
  - match goal with
    | |- context [Scoring.calculateChampagneScramble ?tm] =>
        destruct (ScoringExtra.champagne_points_bounded tm)
          as (r & pts & Hr & Hnet & Hpts & Hb)
    end.
    { cbn [Scoring.players UploadHandler.scoringPlayers withIndex map]. discriminate. }
    rewrite Hr. cbn [bind]. eexists. split; [reflexivity|].
    cbn [UploadHandler.rank UploadHandler.eventId UploadHandler.scrambleMode
         UploadHandler.holeCount UploadHandler.teamName UploadHandler.netScore
         UploadHandler.pointsTotal UploadHandler.grossTotal UploadHandler.teamHandicap].
    cbn [Scoring.holeCount] in Hb.
    repeat split; try assumption.
    + intros key. unfold hasMetric, storedFields. cbn. rewrite Hpts. discriminate.
    + exists pts. split; [exact Hpts | exact Hb].
Qed.

(** The handler on a result shaped as the interpreters shape theirs. *)
Lemma teamFromOcr_of_shape (eventId : Z) (mode : Scoring.ScrambleMode) (r : OCRResult) :
  OcrSpec.padded r ->
  (playerNames r <> [] -> 9 <= detectedHoleCount r <= 18) ->
  length (playerHandicaps r) = length (playerNames r) ->
  Forall (fun h => 0 <= h <= 99) (playerHandicaps r) ->
  Forall (Forall scoreValue) (holeScores r) ->
  uploadOutcome r (UploadHandler.teamFromOcr eventId mode r).
Proof.
  destruct r as [names hs scores detected label conf].
  unfold OcrSpec.padded, uploadOutcome.
  cbn [playerNames playerHandicaps holeScores detectedHoleCount].
  intros [Hrows Hlens] Hrange Hlen Hhs Hvalues.
  destruct names as [|n ns]; [reflexivity|].
  specialize (Hrange ltac:(discriminate)).
  destruct scores as [|row0 rows]; [discriminate|].
  unfold UploadHandler.teamFromOcr. cbn [length Nat.eqb].
  assert (Hpad : UploadHandler.padHandicaps (n :: ns) hs = hs).
  { unfold UploadHandler.padHandicaps. rewrite Hlen, Nat.ltb_irrefl. reflexivity. }
  assert (Hscores : UploadHandler.scoreRows (n :: ns) (row0 :: rows) detected
                    = row0 :: rows) by reflexivity.
  assert (Hhc : UploadHandler.holeCountOr18 detected = detected).
  { unfold UploadHandler.holeCountOr18. destruct (Z.eqb_spec detected 0); [lia | reflexivity]. }
  rewrite Hpad, Hscores, Hhc.
  assert (Hth : 0 <= Scoring.calculateTeamHandicap hs <= 10 * Z.of_nat (length (n :: ns))).
  { rewrite ScoringProps.calculateTeamHandicap_formula.
    pose proof (sum_of_values hs 0 99 Hhs) as Hsum. rewrite Hlen in Hsum.
    pose proof (Z.div_mod (sumZ hs + 5) 10 ltac:(lia)) as Hdm.
    pose proof (Z.mod_pos_bound (sumZ hs + 5) 10 ltac:(lia)) as Hmb.
    cbn [length] in *. lia. }
  assert (Hgross : 0 <= sumZ row0 <= 12 * detected).
  { inversion Hvalues as [|? ? Hrow0 _]; subst.
    inversion Hlens as [|? ? Hlen0 _]; subst.
    assert (Hb : Forall (fun v => 0 <= v <= 12) row0).
    { eapply Forall_impl; [|exact Hrow0]. intros v [-> | Hv]; lia. }
    apply sum_of_values in Hb. lia. }
  assert (Hresult : exists sr,
            Scoring.calculateTeamScore
              {| Scoring.teamName := UploadHandler.labelOr label (lit "Unnamed Team");
                 Scoring.players := UploadHandler.scoringPlayers (n :: ns) hs (row0 :: rows);
                 Scoring.holeCount := detected;
                 Scoring.scrambleMode := mode |} = Ok sr
            /\ Scoring.grossTotal sr = sumZ row0
            /\ Scoring.teamHandicap sr = Scoring.calculateTeamHandicap hs).
  { unfold Scoring.calculateTeamScore. cbn [Scoring.scrambleMode].
    destruct mode.
    - match goal with
      | |- context [Scoring.calculateStraightScramble ?tm] =>
          destruct (ScoringExtra.straight_returns tm _ _ eq_refl)
            as (sr & Hsr & Hg & Ht & _)
      end.
      exists sr. split; [exact Hsr|]. split; [exact Hg|].
      rewrite Ht. cbn [Scoring.players]. now rewrite scoringPlayers_handicaps.
    - match goal with
      | |- context [Scoring.calculateChampagneScramble ?tm] =>
          destruct (ScoringExtra.champagne_returns tm _ _ eq_refl)
            as (sr & Hsr & Hg & Ht & _)
      end.
      exists sr. split; [exact Hsr|]. split; [exact Hg|].
      rewrite Ht. cbn [Scoring.players]. now rewrite scoringPlayers_handicaps. }
  destruct Hresult as (sr & Hsr & Hg & Ht). rewrite Hsr. cbn [bind].
  eexists. split; [reflexivity|].
  cbn [UploadHandler.holeCount UploadHandler.teamHandicap UploadHandler.grossTotal
       UploadHandler.playerHandicaps UploadHandler.holeScores hd].
  rewrite Hg, Ht. cbn [length] in Hth. repeat split; lia.
Qed.

(** X12. Interpreting a card and handing the result to the upload handler:
    when no player was recognised the handler fails; otherwise it produces a
    team record whose hole count is the detected one, from 9 to 18, whose
    team handicap is a tenth of the recognised handicaps' sum, rounded (at
    most 10 a player), and whose gross total is the sum of the first
    player's row, at most 12 a hole. The handler's defaults (18 holes, zero
    handicaps, rows of zeros) never come into play for such a result. *)
Theorem upload_of_interpretation (now : Z) (text : jsstring)
        (annotations : list OcrBox.TextAnnotation) (fullText : jsstring)
        (eventId : Z) (mode : Scoring.ScrambleMode) :
  (exists r, Ocr.parseScorecard now text = Ok r
             /\ uploadOutcome r (UploadHandler.teamFromOcr eventId mode r))
  /\ (exists r, OcrBox.interpret now annotations fullText = Ok r
                /\ uploadOutcome r (UploadHandler.teamFromOcr eventId mode r)).
Proof.
  split.
  - destruct (OcrProps.parseScorecard_ok now text) as (r & Hr & Hpad & _).
    destruct (OcrExtra.parseScorecard_shape now text)
      as (r' & Hr' & _ & _ & Hlen & Hhs & Hvalues & _ & Hdet).
    rewrite Hr in Hr'. injection Hr' as <-.
    exists r. split; [exact Hr|].
    apply teamFromOcr_of_shape; try assumption.
    intros Hne. destruct (Hdet Hne) as [-> _]. apply OcrProps.inferHoleCount_range.
  - unfold OcrBox.interpret. destruct (0 <? length annotations)%nat.
    + destruct (OcrProps.parseScorecardWithBoundingBoxes_ok now annotations fullText)
        as (r & Hr & Hpad & _ & Hrange & _).
      destruct (OcrExtra.parseScorecardWithBoundingBoxes_shape now annotations fullText)
        as (r' & Hr' & _ & _ & Hlen & Hhs & Hvalues).
      rewrite Hr in Hr'. injection Hr' as <-.
      exists r. split; [exact Hr|].
      apply teamFromOcr_of_shape; try assumption; [now intros _|].
      eapply Forall_impl; [|exact Hhs]. intros h Hh. cbv beta in Hh. lia.
    + destruct (OcrProps.fallback_parseScorecard_ok now fullText)
        as (r & Hr & Hpad & _ & Hdet & _).
      destruct (OcrExtra.fallback_parseScorecard_shape now fullText)
        as (r' & Hr' & _ & Hlen & Hhs & Hvalues).
      rewrite Hr in Hr'. injection Hr' as <-.
      exists r. split; [exact Hr|].
      apply teamFromOcr_of_shape; try assumption; [rewrite Hdet; lia|].
      eapply Forall_impl; [|exact Hvalues]. intros row ->.
      apply OcrExtra.scoreValue_zeros.
Qed.

End WithRuntime.

End UploadExtra.

(* ===================================================================== *)
(** * The leaderboard of the current event (App.tsx) *)
(* ===================================================================== *)

Module AppExtra.
Import Ranking RankingProps.

Lemma mapResult_ok {A B} (f : A -> result B) (l : list A) :
  (forall a, In a l -> f a <> Throw) ->
  exists l', OcrBox.mapResult f l = Ok l' /\ Forall2 (fun a b => f a = Ok b) l l'.
Proof.
  induction l as [|a rest IH]; intros Hf; cbn [OcrBox.mapResult].
  - exists []. split; [reflexivity | constructor].
  - destruct (f a) as [b|] eqn:Hb; [|now destruct (Hf a (or_introl eq_refl))].
    destruct IH as (bs & Hbs & Hall); [intros a' Ha'; apply Hf; now right|].
    rewrite Hbs. cbn [bind]. exists (b :: bs). split; [reflexivity|]. now constructor.
Qed.

Lemma mapResult_throw {A B} (f : A -> result B) (l : list A) (a : A) :
  In a l -> f a = Throw -> OcrBox.mapResult f l = Throw.
Proof.
  induction l as [|a0 rest IH]; intros Hin Ha; [contradiction|].
  cbn [OcrBox.mapResult]. destruct Hin as [-> | Hin].
  - now rewrite Ha.
  - destruct (f a0); [|reflexivity]. cbn [bind]. now rewrite (IH Hin Ha).
Qed.

Lemma rank_found (teams : list TeamForRanking) (key : Z) :
  In key (map id teams) ->
  exists r, find (fun r => teamId r =? key) (rankTeams teams) = Some r
            /\ teamId r = key /\ In r (rankTeams teams).
Proof.
  intros Hin.
  apply (Permutation_in _ (Permutation_sym (RankingExtra.rankTeams_ids teams))) in Hin.
  destruct (find (fun r => teamId r =? key) (rankTeams teams)) as [r|] eqn:E.
  - apply find_some in E as [Hr Hk]. apply Z.eqb_eq in Hk. now exists r.
  - apply in_map_iff in Hin as (r & Hk & Hr).
    pose proof (find_none _ _ E _ Hr) as Hnone. cbn beta in Hnone.
    rewrite Hk, Z.eqb_refl in Hnone. discriminate.
Qed.

Section WithRuntime.
Context {json_rt : Json.Runtime}.

Lemma parseTeam_ok (t t' : App.Team) (names handicaps : Json.Parsed) :
  App.parseTeam t = Ok (t', names, handicaps) ->
  t' = t /\ Json.parse (App.playerNames t) = Ok names
  /\ Json.parse (App.playerHandicaps t) = Ok handicaps.
Proof.
  unfold App.parseTeam.
  destruct (Json.parse (App.playerNames t)) as [n|]; cbn [bind]; [|discriminate].
  destruct (Json.parse (App.playerHandicaps t)) as [h|]; cbn [bind]; [|discriminate].
  intros [= <- <- <-]. repeat split.
Qed.

Lemma entries_of_parsed (rankOf : Z -> Z) (l : list App.Team)
      (parsed : list (App.Team * Json.Parsed * Json.Parsed)) :
  Forall2 (fun a b => App.parseTeam a = Ok b) l parsed ->
  map App.team
      (map (fun '(t, names, handicaps) =>
              {| App.team := t; App.parsedNames := names;
                 App.parsedHandicaps := handicaps;
                 App.boardRank := rankOf (App.id t) |}) parsed) = l
  /\ forall e,
       In e (map (fun '(t, names, handicaps) =>
                    {| App.team := t; App.parsedNames := names;
                       App.parsedHandicaps := handicaps;
                       App.boardRank := rankOf (App.id t) |}) parsed) ->
       Json.parse (App.playerNames (App.team e)) = Ok (App.parsedNames e)
       /\ Json.parse (App.playerHandicaps (App.team e)) = Ok (App.parsedHandicaps e)
       /\ In (App.team e) l
       /\ App.boardRank e = rankOf (App.id (App.team e)).
Proof.
  induction 1 as [|t [[t' n] h] l l' Ht _ [IH1 IH2]]; [split; [reflexivity | contradiction]|].
  apply parseTeam_ok in Ht as (-> & Hn & Hh). split.
  - cbn [map App.team]. now rewrite IH1.
  - intros e [<- | He].
    + cbn. repeat split; try assumption. now left.
    + destruct (IH2 e He) as (H1 & H2 & H3 & H4). repeat split; try assumption.
      now right.
Qed.

(** X13. The leaderboard of the current event: empty without a current
    event, and lost altogether when the stored names or handicaps of one of
    the event's teams do not parse. Otherwise it lists exactly the teams of
    the event, each once, in non-decreasing order of rank, every team with
    its parsed names and handicaps and with a rank that the ranking engine
    gave to its id, a number from 1 to the number of teams of the event. *)
Theorem eventTeams_board (currentEvent : AppEvent.Event) (allTeams : list App.Team) :
  let mine := filter (fun t => App.eventId t =? AppEvent.id currentEvent) allTeams in
  App.eventTeams None allTeams = Ok []
  /\ ((exists t, In t mine
                 /\ (Json.parse (App.playerNames t) = Throw
                     \/ Json.parse (App.playerHandicaps t) = Throw)) ->
      App.eventTeams (Some currentEvent) allTeams = Throw)
  /\ ((forall t, In t mine ->
                 Json.parse (App.playerNames t) <> Throw
                 /\ Json.parse (App.playerHandicaps t) <> Throw) ->
      exists board,
        App.eventTeams (Some currentEvent) allTeams = Ok board
        /\ Permutation (map App.team board) mine
        /\ StronglySorted (fun a b => App.boardRank a <= App.boardRank b) board
        /\ forall e, In e board ->
             Json.parse (App.playerNames (App.team e)) = Ok (App.parsedNames e)
             /\ Json.parse (App.playerHandicaps (App.team e)) = Ok (App.parsedHandicaps e)
             /\ 1 <= App.boardRank e <= Z.of_nat (length mine)
             /\ In {| teamId := App.id (App.team e); rank := App.boardRank e |}
                   (rankTeams (map App.rankingFields mine))).
Proof.
  intros mine. split; [reflexivity|]. split.
  - intros (t & Ht & Hthrow). unfold App.eventTeams. cbv zeta. fold mine.
    rewrite (mapResult_throw App.parseTeam mine t Ht); [reflexivity|].
    unfold App.parseTeam. destruct Hthrow as [-> | Hh]; [reflexivity|].
    destruct (Json.parse (App.playerNames t)); cbn [bind]; [|reflexivity].
    now rewrite Hh.
  - intros Hparse. unfold App.eventTeams. cbv zeta. fold mine.
    destruct (mapResult_ok App.parseTeam mine) as (parsed & Hparsed & Hall).
    { intros t Ht. destruct (Hparse t Ht) as [Hn Hh]. unfold App.parseTeam.
      destruct (Json.parse (App.playerNames t)); [|congruence]. cbn [bind].
      destruct (Json.parse (App.playerHandicaps t)); [|congruence]. discriminate. }
    rewrite Hparsed. cbn [bind]. eexists. split; [reflexivity|].
    set (rankings := rankTeams (map App.rankingFields mine)).
    destruct (entries_of_parsed (App.rankOf rankings) mine parsed Hall)
      as [Hteams Hentries].
    match goal with
    | |- context [sort _ ?l] => set (entries := l) in *
    end.
    split; [|split].
    + rewrite <- Hteams. apply Permutation_map, sort_perm.
    + apply (sort_sorted _ (fun a b => App.boardRank a <= App.boardRank b)
                         (fun _ => True)).
      * intros a b _ _. lia.
      * intros a b _ _. lia.
      * intros a b c. lia.
      * apply Forall_forall. intros; exact I.
    + intros e He.
      apply (Permutation_in _ (sort_perm _ entries)) in He.
      destruct (Hentries e He) as (Hn & Hh & Hmine & Hrank).
      split; [exact Hn|]. split; [exact Hh|].
      destruct (rank_found (map App.rankingFields mine) (App.id (App.team e)))
        as (r & Hfind & Hid & Hr).
      { rewrite map_map. now apply (in_map (fun t => id (App.rankingFields t))). }
      unfold App.rankOf in Hrank. fold rankings in Hfind. rewrite Hfind in Hrank.
      rewrite Hrank. destruct r as [k v]. cbn [teamId rank] in *. subst k.
      split; [|exact Hr].
      pose proof (RankingExtra.rankTeams_bounds _ _ Hr) as Hb.
      cbn [rank] in Hb. now rewrite length_map in Hb.
Qed.

End WithRuntime.

End AppExtra.

(* ===================================================================== *)
(** * Ordinals *)
(* ===================================================================== *)

Module OrdinalExtra.
Import ExtraSpec Ordinal.

(** X14. The suffix of a rank is st, nd and rd for 1, 2 and 3 and th for
    every other number, so a positive rank gets its English ordinal suffix
    exactly when it is at most 20, or ends in 11, 12 or 13, or does not end
    in 1, 2 or 3: ranks 1 to 20 are right, 21 reads 21th. *)
Theorem ordinal_suffix_english (n : Z) :
  1 <= n ->
  (getOrdinalSuffix n = englishSuffix n
   <-> n <= 20
       \/ (n mod 100 = 11 \/ n mod 100 = 12 \/ n mod 100 = 13)
       \/ ~ (n mod 10 = 1 \/ n mod 10 = 2 \/ n mod 10 = 3)).
Proof.
  intros Hn. unfold getOrdinalSuffix, englishSuffix.
  pose proof (Z.mod_pos_bound n 10 ltac:(lia)) as H10.
  pose proof (Z.mod_pos_bound n 100 ltac:(lia)) as H100.
  pose proof (Z.div_mod n 10 ltac:(lia)) as D10.
  pose proof (Z.div_mod n 100 ltac:(lia)) as D100.
  destruct (Z.eqb_spec n 1); [subst n; split; [intros _; left; lia | reflexivity]|].
  destruct (Z.eqb_spec n 2); [subst n; split; [intros _; left; lia | reflexivity]|].
  destruct (Z.eqb_spec n 3); [subst n; split; [intros _; left; lia | reflexivity]|].
  destruct (Z.eqb_spec (n mod 100) 11), (Z.eqb_spec (n mod 100) 12),
    (Z.eqb_spec (n mod 100) 13), (Z.eqb_spec (n mod 10) 1),
    (Z.eqb_spec (n mod 10) 2), (Z.eqb_spec (n mod 10) 3);
    cbn [orb]; (split; [intros H; try (vm_compute in H; discriminate); lia
                       | intros H; try reflexivity; exfalso; lia]).
Qed.

Lemma ordinal_suffix_english_witness :
  getOrdinalSuffix 12 = englishSuffix 12.
Proof.
  apply (proj2 (ordinal_suffix_english 12 ltac:(lia))). left. lia.
Defined.

End OrdinalExtra.
